(** * Data-fetchers loader of the nextjs SDK: syntax-tree queries, renaming
      and template splicing.

    Shallow embedding of
      - packages/nextjs/src/config/loaders/ast.ts
      - the loader part of packages/nextjs/src/config/wrappers/wrapperUtils.ts
        ([wrapFunctions], [wrapDataFetchersLoader], [DATA_FETCHING_FUNCTIONS]).

    The syntax tree is the mutable object graph built by the parser.  It is
    modelled as a rose tree whose nodes carry the few attributes the code
    reads or writes ([type], [name], [shorthand], [computed], [comments]).
    A node path is the list of child indices from the root; renaming never
    changes the shape of the tree, so a path stays valid across renames,
    as the node paths of the library do.

    Conventions of the model:
      - [type] is the class as which the checks of the code ([X.check],
        [find(X)]) accept a node: a node of a subclass of a class tested by
        the code (a [JSXIdentifier] or a [TSTypeParameter], which the library
        accepts as an [Identifier]) is encoded with that class;
      - every node is a child of one parent and sits in one field of it, so
        [node === parent.F] is a test on the position of the node (a parser
        that stores one object as both key and value of a shorthand property
        is outside the model);
      - for a node stored directly in a field of its parent, as the parts of
        specifiers, properties and member accesses are, [path.parentPath.node]
        is the parent and [path.parentPath.parentPath.node] the grandparent;
      - the parsers, the printer, [isESM], [path.relative] and the template
        file are not in these files and enter as an environment. *)

From Stdlib Require Import List String Ascii Bool Arith Lia FinFun.
Import ListNotations.
Open Scope string_scope.
Open Scope list_scope.
Set Warnings "-register-all".

(* ================================================================== *)
(** ** Syntax trees *)
(* ================================================================== *)

(** The node classes the code tests with [X.check(...)]; every other class
    is an [OtherType]. *)
Inductive NodeType : Type :=
| Identifier
| ImportSpecifier
| Property
| ObjectPattern
| ObjectExpression
| MemberExpression
| ExportSpecifier
| VariableDeclaration
| VariableDeclarator
| OtherType (t : string).

(** The field of the parent object in which a child is stored.  Children of
    an array-valued field ([declarations], [properties], ...) share the
    field. *)
Inductive Field : Type :=
| f_imported
| f_local
| f_exported
| f_key
| f_value
| f_object
| f_property
| f_id
| f_init
| f_declarations
| f_properties
| f_other (f : string).

Inductive Node : Type :=
  mkNode {
    type : NodeType;
    slot : Field;
    name : string;
    shorthand : bool;
    computed : bool;
    comments : option (list string);
    kids : list Node
  }.

Definition NodeType_eqb (a b : NodeType) : bool :=
  match a, b with
  | Identifier, Identifier
  | ImportSpecifier, ImportSpecifier
  | Property, Property
  | ObjectPattern, ObjectPattern
  | ObjectExpression, ObjectExpression
  | MemberExpression, MemberExpression
  | ExportSpecifier, ExportSpecifier
  | VariableDeclaration, VariableDeclaration
  | VariableDeclarator, VariableDeclarator => true
  | OtherType s, OtherType t => String.eqb s t
  | _, _ => false
  end.

Definition Field_eqb (a b : Field) : bool :=
  match a, b with
  | f_imported, f_imported
  | f_local, f_local
  | f_exported, f_exported
  | f_key, f_key
  | f_value, f_value
  | f_object, f_object
  | f_property, f_property
  | f_id, f_id
  | f_init, f_init
  | f_declarations, f_declarations
  | f_properties, f_properties => true
  | f_other s, f_other t => String.eqb s t
  | _, _ => false
  end.

(** [T.check(node)] *)
Definition check (T : NodeType) (n : Node) : bool := NodeType_eqb T (type n).

Definition setName (s : string) (n : Node) : Node :=
  mkNode (type n) (slot n) s (shorthand n) (computed n) (comments n) (kids n).

Definition setShorthand (b : bool) (n : Node) : Node :=
  mkNode (type n) (slot n) (name n) b (computed n) (comments n) (kids n).

Definition setKids (ks : list Node) (n : Node) : Node :=
  mkNode (type n) (slot n) (name n) (shorthand n) (computed n) (comments n) ks.

(** *** Node paths *)

Definition Path : Type := list nat.

Fixpoint getNode (t : Node) (p : Path) : option Node :=
  match p with
  | [] => Some t
  | i :: p' =>
      match nth_error (kids t) i with
      | Some c => getNode c p'
      | None => None
      end
  end.

Fixpoint updNth {A : Type} (i : nat) (f : A -> A) (l : list A) {struct l} : list A :=
  match l with
  | [] => []
  | x :: l' =>
      match i with
      | 0 => f x :: l'
      | S i' => x :: updNth i' f l'
      end
  end.

(** In-place mutation of the node a path points to. *)
Fixpoint updateNode (f : Node -> Node) (t : Node) (p : Path) : Node :=
  match p with
  | [] => f t
  | i :: p' => setKids (updNth i (fun c => updateNode f c p') (kids t)) t
  end.

(** All paths of a tree in the order the visitor reaches them (a node, then
    its children field by field), the root's own path first. *)
Fixpoint paths (t : Node) : list Path :=
  match t with
  | mkNode _ _ _ _ _ _ ks =>
      [] :: (fix go (i : nat) (l : list Node) : list Path :=
               match l with
               | [] => []
               | c :: l' => map (cons i) (paths c) ++ go (S i) l'
               end) 0 ks
  end.

(** [ast.find(T)] collects the descendants of the collection's root path,
    not that path itself. *)
Definition descendants (ast : Node) : list Path := tl (paths ast).

Definition nodeSatisfies (ast : Node) (f : Node -> bool) (p : Path) : bool :=
  match getNode ast p with
  | Some n => f n
  | None => false
  end.

Definition find (ast : Node) (T : NodeType) : list Path :=
  filter (nodeSatisfies ast (check T)) (descendants ast).

(** [path.parentPath] and the value of a single-valued field. *)
Definition parentPath (p : Path) : Path := removelast p.

Fixpoint fieldIndexFrom (i : nat) (F : Field) (l : list Node) : option nat :=
  match l with
  | [] => None
  | c :: l' => if Field_eqb F (slot c) then Some i else fieldIndexFrom (S i) F l'
  end.

Definition fieldIndex (parent : Node) (F : Field) : option nat :=
  fieldIndexFrom 0 F (kids parent).

(** [parent.F] *)
Definition field (parent : Node) (F : Field) : option Node :=
  match fieldIndex parent F with
  | Some i => nth_error (kids parent) i
  | None => None
  end.

(** All children stored in an array-valued field. *)
Definition fieldArray (parent : Node) (F : Field) : list Node :=
  filter (fun c => Field_eqb F (slot c)) (kids parent).

(** [node === parent.F] for the node at the end of [p]. *)
Definition isField (parent : Node) (F : Field) (p : Path) : bool :=
  match fieldIndex parent F, p with
  | Some i, _ :: _ => Nat.eqb i (last p 0)
  | _, _ => false
  end.

(* ================================================================== *)
(** ** Node query layer (ast.ts) *)
(* ================================================================== *)

(** [findIdentifiers] *)
Definition identifierFilter (name' : string) (n : Node) : bool :=
  String.eqb (name n) name'.

Definition findIdentifiers (ast : Node) (name' : string) : list Path :=
  filter (nodeSatisfies ast (identifierFilter name')) (find ast Identifier).

(** [findDeclarations] *)
Definition declarationFilter (name' : string) (n : Node) : bool :=
  match fieldArray n f_declarations with
  | [d] =>
      check VariableDeclarator d &&
      match field d f_id with
      | Some i => check Identifier i && String.eqb (name i) name'
      | None => false
      end
  | _ => false
  end.

Definition findDeclarations (ast : Node) (name' : string) : list Path :=
  filter (nodeSatisfies ast (declarationFilter name')) (find ast VariableDeclaration).

(** [findExports].  (A specifier without an [exported] part, which no
    parser produces and on which the source would raise, matches nothing.) *)
Definition exportFilter (name' : string) (n : Node) : bool :=
  check ExportSpecifier n &&
  match field n f_exported with
  | Some e => String.eqb (name e) name'
  | None => false
  end.

Definition findExports (ast : Node) (name' : string) : list Path :=
  filter (nodeSatisfies ast (exportFilter name')) (find ast ExportSpecifier).

(* ================================================================== *)
(** ** Alias allocator (ast.ts, [findAvailibleAlias]) *)
(* ================================================================== *)

(** The [while] loop, one iteration per unit of fuel; [None] is an
    exhausted budget.  The second component counts the iterations made. *)
Fixpoint findAvailibleAlias_loop (fuel : nat) (userAST : Node) (newName : string)
  : option (string * nat) :=
  match fuel with
  | 0 => None
  | S fuel' =>
      let newName' := ("_" ++ newName)%string in
      let existingIdentifiers := findIdentifiers userAST newName' in
      if Nat.eqb (List.length existingIdentifiers) 0
      then Some (newName', 1)
      else match findAvailibleAlias_loop fuel' userAST newName' with
           | Some (r, k) => Some (r, S k)
           | None => None
           end
  end.

(** The budget that always suffices (see [findAvailibleAlias_loop_total]):
    one more than the number of identifiers of the tree. *)
Definition aliasBudget (userAST : Node) : nat :=
  S (List.length (find userAST Identifier)).

Definition findAvailibleAlias (userAST : Node) (origName : string) : string :=
  match findAvailibleAlias_loop (aliasBudget userAST) userAST origName with
  | Some (r, _) => r
  | None => origName
  end.

(* ================================================================== *)
(** ** Scope-aware renamer (ast.ts, [renameIdentifiers], [maybeRenameNode]) *)
(* ================================================================== *)

(** Result of running code that may raise (reading a property of a missing
    object is a [TypeError]) or exhaust the recursion budget of the model. *)
Inductive Outcome (A : Type) : Type :=
| Ok (a : A)
| Throw
| Timeout.
Arguments Ok {A} a.
Arguments Throw {A}.
Arguments Timeout {A}.

Definition bindO {A B : Type} (m : Outcome A) (k : A -> Outcome B) : Outcome B :=
  match m with
  | Ok a => k a
  | Throw => Throw
  | Timeout => Timeout
  end.

Notation "x <-- m ;; k" := (bindO m (fun x => k))
  (at level 61, m at next level, right associativity).

(** [collection.forEach(body)] over a tree that [body] mutates. *)
Fixpoint forEach (body : Node -> Path -> Outcome Node) (ps : list Path) (ast : Node)
  : Outcome Node :=
  match ps with
  | [] => Ok ast
  | p :: ps' => ast' <-- body ast p ;; forEach body ps' ast'
  end.

(** [a || b] on strings: the empty string and [undefined] are falsy. *)
Definition orElse (a : option string) (b : string) : string :=
  match a with
  | Some s => if String.eqb s "" then b else s
  | None => b
  end.

(** [x.name] of an optional part [x?]: [undefined] when the part is missing. *)
Definition optName (n : option Node) : option string := option_map name n.

Definition optString_eqb (a b : option string) : bool :=
  match a, b with
  | Some s, Some t => String.eqb s t
  | None, None => true
  | _, _ => false
  end.

(** The node [path.node] of a path with at least [k] ancestors below the
    root; reading [.node] of a missing parent path raises. *)
Definition ancestor (ast : Node) (p : Path) (k : nat) : Outcome Node :=
  if Nat.ltb (List.length p) k then Throw
  else match getNode ast (firstn (List.length p - k) p) with
       | Some n => Ok n
       | None => Throw
       end.

(** [maybeRenameNode(ast, identifierPath, alias)], open in the recursive call
    to [renameIdentifiers]. *)
Definition maybeRenameNode
    (rename : Node -> string -> option string -> Outcome (Node * option string))
    (ast : Node) (identifierPath : Path) (alias : string) : Outcome Node :=
  parent <-- ancestor ast identifierPath 1 ;;
  grandparent <-- ancestor ast identifierPath 2 ;;
  let pp := parentPath identifierPath in
  if check ImportSpecifier parent && isField parent f_imported identifierPath
  then Ok ast
  else
  if check Property parent && check ObjectPattern grandparent
     && isField parent f_key identifierPath
  then Ok ast
  else
  let ast1 :=
    if check Property parent && check ObjectPattern grandparent
    then updateNode (setShorthand false) ast pp else ast in
  if check Property parent && check ObjectExpression grandparent
     && isField parent f_key identifierPath
  then Ok ast1
  else
  let ast2 :=
    if check Property parent && check ObjectExpression grandparent
    then updateNode (setShorthand false) ast1 pp else ast1 in
  if check MemberExpression parent && isField parent f_property identifierPath
  then Ok ast2
  else
  ast3 <--
    (if check ExportSpecifier parent
     then
       match field parent f_exported with
       | None => Throw
       | Some e =>
           if negb (optString_eqb (Some (name e)) (optName (field parent f_local)))
              && isField parent f_exported identifierPath
           then
             let currentLocalName := orElse (optName (field parent f_local)) "" in
             r <-- rename ast2 currentLocalName (Some alias) ;; Ok (fst r)
           else Ok ast2
       end
     else Ok ast2) ;;
  Ok (updateNode (setName alias) ast3 identifierPath).

(** [renameIdentifiers(ast, origName, newName?)]; the budget bounds the depth
    of the re-entry from the export-specifier case. *)
Fixpoint renameIdentifiers (fuel : nat) (ast : Node) (origName : string)
    (newName : option string) : Outcome (Node * option string) :=
  match fuel with
  | 0 => Timeout
  | S fuel' =>
      let matchingNodes := findIdentifiers ast origName in
      if Nat.ltb 0 (List.length matchingNodes) then
        let alias := orElse newName (findAvailibleAlias ast origName) in
        ast' <-- forEach (fun t nodePath =>
                            maybeRenameNode (renameIdentifiers fuel') t nodePath alias)
                         matchingNodes ast ;;
        Ok (ast', Some alias)
      else Ok (ast, None)
  end.

(** [removeComments(ast)]: every node found below the root loses its
    comment attachment. *)
Fixpoint clearComments (n : Node) : Node :=
  match n with
  | mkNode ty sl nm sh co _ ks => mkNode ty sl nm sh co None (map clearComments ks)
  end.

Definition removeComments (ast : Node) : Node :=
  setKids (map clearComments (kids ast)) ast.

(** [collection.remove()]: every node of the collection is detached from its
    parent.  [ps] are paths of the tree before the removal; a node below a
    removed node goes with it.  (The library's tidying of a parent left
    empty, such as an [if] that lost a branch, is not part of the model.) *)
Definition pathsUnder (i : nat) (ps : list Path) : list Path :=
  flat_map (fun p => match p with
                     | j :: q => if Nat.eqb i j then [q] else []
                     | [] => []
                     end) ps.

Definition isNil {A : Type} (l : list A) : bool :=
  match l with [] => true | _ => false end.

Fixpoint remove (ast : Node) (ps : list Path) : Node :=
  match ast with
  | mkNode ty sl nm sh co cm ks =>
      mkNode ty sl nm sh co cm
        ((fix go (i : nat) (l : list Node) : list Node :=
            match l with
            | [] => []
            | c :: l' =>
                if existsb isNil (pathsUnder i ps)
                then go (S i) l'
                else remove c (pathsUnder i ps) :: go (S i) l'
            end) 0 ks)
  end.

(* ================================================================== *)
(** ** Strings as the loader uses them *)
(* ================================================================== *)

Definition newline : string := String (ascii_of_nat 10) "".

Fixpoint dropS (n : nat) (s : string) : string :=
  match n, s with
  | 0, _ => s
  | S n', String _ s' => dropS n' s'
  | S _, EmptyString => EmptyString
  end.

(** [s.includes(pat)] *)
Fixpoint includes (pat s : string) : bool :=
  String.prefix pat s
  || match s with
     | EmptyString => false
     | String _ s' => includes pat s'
     end.

(** [s.replace(pat, rep)] for a string pattern: the first occurrence only.
    (The replacement is taken literally; the aliases the loader produces
    hold no [$].) *)
Fixpoint replace (pat rep s : string) : string :=
  if String.prefix pat s then (rep ++ dropS (String.length pat) s)%string
  else match s with
       | EmptyString => EmptyString
       | String c s' => String c (replace pat rep s')
       end.

Definition endsWith (suffix s : string) : bool :=
  Nat.leb (String.length suffix) (String.length s)
  && String.eqb (dropS (String.length s - String.length suffix) s) suffix.

(** [new RegExp('\\.tsx?$').test(filepath)] *)
Definition isTSPath (filepath : string) : bool :=
  endsWith ".ts" filepath || endsWith ".tsx" filepath.

(* ================================================================== *)
(** ** Template assembler (wrapperUtils.ts) *)
(* ================================================================== *)

Record TrackedFunction : Type :=
  mkTracked { placeholder : string; alias : string }.

(** A JS object used as an ordered map: [Object.keys] and [Object.values]
    enumerate in insertion order. *)
Definition Registry : Type := list (string * TrackedFunction).

(** The module-level object, as the module initialises it. *)
Definition DATA_FETCHING_FUNCTIONS : Registry :=
  [ ("getServerSideProps", mkTracked "__ORIG_GSSP__" "");
    ("getStaticProps", mkTracked "__ORIG_GSPROPS__" "");
    ("getStaticPaths", mkTracked "__ORIG_GSPATHS__" "") ].

Definition keys (r : Registry) : list string := map fst r.
Definition values (r : Registry) : list TrackedFunction := map snd r.

(** [registry[functionName].alias = functionAlias] *)
Definition setAlias (functionName functionAlias : string) (r : Registry) : Registry :=
  map (fun e => if String.eqb (fst e) functionName
                then (fst e, mkTracked (placeholder (snd e)) functionAlias)
                else e) r.

(** What one run of the loader can read and change outside its arguments:
    the module-level registry, the logger, and (for the statements about
    which steps run) the record of parser calls and registered
    dependencies. *)
Record World : Type :=
  mkWorld {
    registry : Registry;
    warnings : list string;
    parseCalls : list (string * bool);
    dependencies : list string
  }.

Definition initialWorld : World := mkWorld DATA_FETCHING_FUNCTIONS [] [] [].

(** The collaborators of the loader that live outside these files: the
    parsers built by [makeParser] together with the library's tree
    constructor ([inl] carries the rendering of the error thrown on
    unparsable text), the printer [toSource], [isESM], [path.relative], and
    the template file on disk. *)
Record Env : Type :=
  mkEnv {
    parse : bool -> string -> string + Node;
    toSource : Node -> string;
    isESM : string -> bool;
    relative : string -> string -> string;
    templatePath : string;
    readFileSync : string -> string
  }.

(** [makeAST(code, isTS)] *)
Definition makeAST (env : Env) (code : string) (isTS : bool) (w : World)
  : (string + Node) * World :=
  (parse env isTS code,
   mkWorld (registry w) (warnings w) (parseCalls w ++ [(code, isTS)]) (dependencies w)).

(** [logger.warn(msg)] *)
Definition warn (msg : string) (w : World) : World :=
  mkWorld (registry w) (warnings w ++ [msg]) (parseCalls w) (dependencies w).

(** [this.addDependency(path)] *)
Definition addDependency (path : string) (w : World) : World :=
  mkWorld (registry w) (warnings w) (parseCalls w) (dependencies w ++ [path]).

Definition setRegistry (r : Registry) (w : World) : World :=
  mkWorld r (warnings w) (parseCalls w) (dependencies w).

Definition parseWarning (filepath err : string) : string :=
  ("Couldn't add Sentry to " ++ filepath
   ++ " because there was a parsing error: " ++ err)%string.

(** [matchingNodes.forEach(nodePath => (nodePath.node.name = functionAlias))] *)
Definition renameAll (functionAlias : string) (matchingNodes : list Path) (ast : Node)
  : Node :=
  fold_left (fun t nodePath => updateNode (setName functionAlias) t nodePath)
            matchingNodes ast.

(** The body of the [for ... of Object.keys(DATA_FETCHING_FUNCTIONS)] loop of
    [wrapFunctions], on the user tree, the template tree and the registry. *)
Definition wrapStep (st : Node * Node * Registry) (functionName : string)
  : Node * Node * Registry :=
  let '(userAST, templateAST, reg) := st in
  let matchingNodes := findIdentifiers userAST functionName in
  if Nat.ltb 0 (List.length matchingNodes) then
    let functionAlias := findAvailibleAlias userAST functionName in
    let userAST' := renameAll functionAlias matchingNodes userAST in
    (userAST', templateAST, setAlias functionName functionAlias reg)
  else
    let templateAST1 := remove templateAST (findExports templateAST functionName) in
    let templateAST2 := remove templateAST1 (findDeclarations templateAST1 functionName) in
    (userAST, templateAST2, reg).

(** [wrapFunctions(userCode, templateCode, filepath)] *)
Definition wrapFunctions (env : Env) (userCode templateCode filepath : string) (w : World)
  : (string * string) * World :=
  let isTS := isTSPath filepath in
  let failed (err : string) (w' : World) :=
    ((userCode, ""), warn (parseWarning filepath err) w') in
  match makeAST env userCode isTS w with
  | (inl err, w1) => failed err w1
  | (inr userAST, w1) =>
      match makeAST env templateCode false w1 with
      | (inl err, w2) => failed err w2
      | (inr templateAST, w2) =>
          let templateAST' := removeComments templateAST in
          let '(userAST', templateAST'', reg) :=
            fold_left wrapStep (keys (registry w2))
                      (userAST, templateAST', registry w2) in
          ((toSource env userAST', toSource env templateAST''), setRegistry reg w2)
      end
  end.

(** Filling in the placeholders of the rendered template. *)
Definition fillPlaceholders (r : Registry) (code : string) : string :=
  fold_left (fun injectedCode tf => replace (placeholder tf) (alias tf) injectedCode)
            (values r) code.

(** [wrapDataFetchersLoader.call(this, userCode)], with [projectDir] read
    from the loader options and [resourcePath] from [this]. *)
Definition wrapDataFetchersLoader (env : Env) (projectDir resourcePath : string)
    (userCode : string) (w : World) : string * World :=
  if negb (isESM env userCode) then (userCode, w)
  else if forallb (fun functionName => negb (includes functionName userCode))
                  (keys (registry w))
  then (userCode, w)
  else
    let w1 := addDependency (templatePath env) w in
    let templateCode := readFileSync env (templatePath env) in
    let '((modifiedUserCode, modifiedTemplateCode), w2) :=
      wrapFunctions env userCode templateCode (relative env projectDir resourcePath) w1 in
    let injectedCode := fillPlaceholders (registry w2) modifiedTemplateCode in
    ((modifiedUserCode ++ newline ++ injectedCode)%string, w2).

(* ================================================================== *)
(** ** Auxiliary definitions used in the statements *)
(* ================================================================== *)

(** The children part of [paths]. *)
Fixpoint kidPaths (i : nat) (l : list Node) : list Path :=
  match l with
  | [] => []
  | c :: l' => map (cons i) (paths c) ++ kidPaths (S i) l'
  end.

(** Attributes of the node a path points to. *)
Definition nameAt (t : Node) (p : Path) : option string := option_map name (getNode t p).
Definition typeAt (t : Node) (p : Path) : option NodeType := option_map type (getNode t p).
Definition shorthandAt (t : Node) (p : Path) : option bool :=
  option_map shorthand (getNode t p).

(** The shape of a tree: everything but the names and the shorthand flags,
    the two attributes renaming writes. *)
Fixpoint skeleton (n : Node) : Node :=
  match n with
  | mkNode ty sl _ _ co cm ks => mkNode ty sl "" false co cm (map skeleton ks)
  end.

(** The names of the identifiers of a tree, in traversal order. *)
Definition identifierNames (t : Node) : list string :=
  flat_map (fun p => match getNode t p with Some n => [name n] | None => [] end)
           (find t Identifier).

(** [k] underscores in front of a name: the [k]-th candidate of the alias
    loop. *)
Fixpoint candidate (k : nat) (origName : string) : string :=
  match k with
  | 0 => origName
  | S k' => String "_" (candidate k' origName)
  end.

(** [s] is [origName] with one or more underscores in front. *)
Definition isVariant (origName s : string) : bool :=
  existsb (fun k => String.eqb s (candidate k origName)) (seq 1 (String.length s)).

(** The distinct underscore-prefixed variants of a name that occur as
    identifiers in a tree. *)
Definition variantsPresent (t : Node) (origName : string) : list string :=
  nodup string_dec (filter (isVariant origName) (identifierNames t)).

(** The four contexts in which an occurrence names something outside the
    module: the imported side of an import specifier, the key of a property
    of an object pattern or of an object literal, and the property part of a
    member access. *)
Definition doNotRename (parent grandparent : Node) (p : Path) : bool :=
  (check ImportSpecifier parent && isField parent f_imported p)
  || (check Property parent && check ObjectPattern grandparent
      && isField parent f_key p)
  || (check Property parent && check ObjectExpression grandparent
      && isField parent f_key p)
  || (check MemberExpression parent && isField parent f_property p).

(** The tree after the shorthand fix-up of [maybeRenameNode]. *)
Definition afterShorthand (ast parent grandparent : Node) (p : Path) : Node :=
  if check Property parent
     && (check ObjectPattern grandparent || check ObjectExpression grandparent)
  then updateNode (setShorthand false) ast (parentPath p) else ast.

(** The export-specifier case re-enters the renamer. *)
Definition reenters (parent : Node) (p : Path) : bool :=
  check ExportSpecifier parent
  && match field parent f_exported with
     | Some e => negb (optString_eqb (Some (name e)) (optName (field parent f_local)))
                 && isField parent f_exported p
     | None => false
     end.

(** [t'] is [t] with some names replaced by [A] (and some shorthand flags
    changed): what a run of the renamer with alias [A] does to a tree. *)
Definition renamedTo (A : string) (t t' : Node) : Prop :=
  skeleton t' = skeleton t /\
  forall p, nameAt t' p = nameAt t p \/ nameAt t' p = Some A.

(** The occurrence at [p] is in none of the do-not-rename contexts. *)
Definition renamable (t : Node) (p : Path) : bool :=
  match ancestor t p 1, ancestor t p 2 with
  | Ok parent, Ok grandparent => negb (doNotRename parent grandparent p)
  | _, _ => false
  end.

(** The identifier at [p] is named [s]. *)
Definition identifierAt (t : Node) (p : Path) (s : string) : Prop :=
  exists n, getNode t p = Some n /\ type n = Identifier /\ name n = s.

(* ================================================================== *)
(** ** Sample trees *)
(* ================================================================== *)

Definition ident (sl : Field) (nm : string) : Node :=
  mkNode Identifier sl nm false false None [].

Definition node (ty : NodeType) (sl : Field) (ks : list Node) : Node :=
  mkNode ty sl "" false false None ks.

Definition other (ty sl : string) (ks : list Node) : Node :=
  node (OtherType ty) (f_other sl) ks.

Definition literal (sl raw : string) : Node :=
  mkNode (OtherType "Literal") (f_other sl) raw false false None [].

Definition file (body : list Node) : Node :=
  other "File" "" [other "Program" "program" body].

(** [import { helper } from './h'; export { helper as getServerSideProps };] *)
Definition aliasedExport : Node :=
  file [ other "ImportDeclaration" "body"
           [ node ImportSpecifier (f_other "specifiers")
               [ ident f_local "helper"; ident f_imported "helper" ];
             literal "source" "'./h'" ];
         other "ExportNamedDeclaration" "body"
           [ node ExportSpecifier (f_other "specifiers")
               [ ident f_local "helper"; ident f_exported "getServerSideProps" ] ] ].

(** [const v = obj[getStaticProps];] *)
Definition computedAccess : Node :=
  file [ node VariableDeclaration (f_other "body")
           [ node VariableDeclarator f_declarations
               [ ident f_id "v";
                 mkNode MemberExpression f_init "" false true None
                   [ ident f_object "obj"; ident f_property "getStaticProps" ] ] ] ].

(** [import { getServerSideProps } from './data'; export { getServerSideProps };] *)
Definition reExported : Node :=
  file [ other "ImportDeclaration" "body"
           [ node ImportSpecifier (f_other "specifiers")
               [ ident f_local "getServerSideProps";
                 ident f_imported "getServerSideProps" ];
             literal "source" "'./data'" ];
         other "ExportNamedDeclaration" "body"
           [ node ExportSpecifier (f_other "specifiers")
               [ ident f_local "getServerSideProps";
                 ident f_exported "getServerSideProps" ] ] ].

(** [import { helper as _getServerSideProps } from './h';
     export { _getServerSideProps as _getServerSideProps };] *)
Definition aliasedExportRenamed : Node :=
  file [ other "ImportDeclaration" "body"
           [ node ImportSpecifier (f_other "specifiers")
               [ ident f_local "_getServerSideProps"; ident f_imported "helper" ];
             literal "source" "'./h'" ];
         other "ExportNamedDeclaration" "body"
           [ node ExportSpecifier (f_other "specifiers")
               [ ident f_local "_getServerSideProps";
                 ident f_exported "_getServerSideProps" ] ] ].

(** The import specifier of [aliasedExport] and the declaration above it. *)
Definition helperImportSpecifier : Node :=
  node ImportSpecifier (f_other "specifiers")
       [ ident f_local "helper"; ident f_imported "helper" ].

Definition helperImportDeclaration : Node :=
  other "ImportDeclaration" "body" [ helperImportSpecifier; literal "source" "'./h'" ].

(** The member access of [computedAccess] and the declarator above it. *)
Definition computedMember : Node :=
  mkNode MemberExpression f_init "" false true None
         [ ident f_object "obj"; ident f_property "getStaticProps" ].

Definition computedDeclarator : Node :=
  node VariableDeclarator f_declarations [ ident f_id "v"; computedMember ].

(** A registry that differs from the initial one in its aliases only: what
    the module-level object can be after any number of runs. *)
Definition registryOk (r : Registry) : Prop :=
  map (fun e => (fst e, placeholder (snd e))) r
  = map (fun e => (fst e, placeholder (snd e))) DATA_FETCHING_FUNCTIONS.

(* ================================================================== *)
(** ** A sample environment *)
(* ================================================================== *)

(** A printer for the node classes of the samples, and a parser that knows
    the sample texts; they stand in for the library's printer and parsers
    when the loader is run on the samples. *)

Fixpoint join (sep : string) (l : list string) : string :=
  match l with
  | [] => ""
  | [x] => x
  | x :: l' => (x ++ sep ++ join sep l')%string
  end.

Fixpoint printNode (n : Node) : string :=
  match n with
  | mkNode ty sl nm sh co cm ks =>
      let printed := map (fun c => (slot c, printNode c)) ks in
      let parts F := map snd (filter (fun e => Field_eqb F (fst e)) printed) in
      let one F := join "" (parts F) in
      (match ty with
       | Identifier => nm
       | ImportSpecifier =>
           if String.eqb (one f_imported) (one f_local) then one f_local
           else one f_imported ++ " as " ++ one f_local
       | ExportSpecifier =>
           if String.eqb (one f_local) (one f_exported) then one f_local
           else one f_local ++ " as " ++ one f_exported
       | VariableDeclaration => "const " ++ join ", " (parts f_declarations) ++ ";"
       | VariableDeclarator => one f_id ++ " = " ++ one f_init
       | MemberExpression =>
           if co then one f_object ++ "[" ++ one f_property ++ "]"
           else one f_object ++ "." ++ one f_property
       | Property => if sh then one f_value else one f_key ++ ": " ++ one f_value
       | ObjectPattern | ObjectExpression => "{ " ++ join ", " (parts f_properties) ++ " }"
       | OtherType t =>
           if String.eqb t "Literal" then nm
           else if String.eqb t "ImportDeclaration" then
             "import { " ++ join ", " (parts (f_other "specifiers")) ++ " } from "
             ++ one (f_other "source") ++ ";"
           else if String.eqb t "ExportNamedDeclaration" then
             "export { " ++ join ", " (parts (f_other "specifiers")) ++ " };"
           else if String.eqb t "CallExpression" then
             one (f_other "callee") ++ "(" ++ join ", " (parts (f_other "arguments")) ++ ")"
           else if String.eqb t "ExpressionStatement" then
             one (f_other "expression") ++ ";"
           else if String.eqb t "FunctionDeclaration" then
             "function " ++ one f_id ++ "() {}"
           else join newline (map snd printed)
       end)%string
  end.

(** [function f() {}  export { f };] *)
Definition exportedFunction (f : string) : Node :=
  file [ other "FunctionDeclaration" "body" [ ident f_id f ];
         other "ExportNamedDeclaration" "body"
           [ node ExportSpecifier (f_other "specifiers")
               [ ident f_local f; ident f_exported f ] ] ].

(** [const f = Sentry.wrapper(placeholder);] *)
Definition wrapperDeclaration (f wrapper ph : string) : Node :=
  node VariableDeclaration (f_other "body")
    [ node VariableDeclarator f_declarations
        [ ident f_id f;
          node (OtherType "CallExpression") f_init
            [ node MemberExpression (f_other "callee")
                [ ident f_object "Sentry"; ident f_property wrapper ];
              ident (f_other "arguments") ph ] ] ].

Definition wrapperExports : Node :=
  other "ExportNamedDeclaration" "body"
    [ node ExportSpecifier (f_other "specifiers")
        [ ident f_local "getServerSideProps"; ident f_exported "getServerSideProps" ];
      node ExportSpecifier (f_other "specifiers")
        [ ident f_local "getStaticProps"; ident f_exported "getStaticProps" ];
      node ExportSpecifier (f_other "specifiers")
        [ ident f_local "getStaticPaths"; ident f_exported "getStaticPaths" ] ].

(** A template that meets the template contract: per tracked name one
    export specifier and one single-binding declaration holding the
    placeholder. *)
Definition templateTree : Node :=
  file [ wrapperDeclaration "getServerSideProps" "withSentryGSSP" "__ORIG_GSSP__";
         wrapperDeclaration "getStaticProps" "withSentryGSProps" "__ORIG_GSPROPS__";
         wrapperDeclaration "getStaticPaths" "withSentryGSPaths" "__ORIG_GSPATHS__";
         wrapperExports ].

(** The same template with one more use of a placeholder, outside the
    declaration of its function: [Sentry.debug(__ORIG_GSSP__);]. *)
Definition strayTemplateTree : Node :=
  file [ wrapperDeclaration "getServerSideProps" "withSentryGSSP" "__ORIG_GSSP__";
         wrapperDeclaration "getStaticProps" "withSentryGSProps" "__ORIG_GSPROPS__";
         wrapperDeclaration "getStaticPaths" "withSentryGSPaths" "__ORIG_GSPATHS__";
         wrapperExports;
         other "ExpressionStatement" "body"
           [ node (OtherType "CallExpression") (f_other "expression")
               [ node MemberExpression (f_other "callee")
                   [ ident f_object "Sentry"; ident f_property "debug" ];
                 ident (f_other "arguments") "__ORIG_GSSP__" ] ] ].

Definition brokenText : string := "export const getStaticProps = ;".
Definition plainText : string := "export default function Page() {}".

Definition sampleParse (isTS : bool) (code : string) : string + Node :=
  if String.eqb code (printNode (exportedFunction "getServerSideProps"))
  then inr (exportedFunction "getServerSideProps")
  else if String.eqb code (printNode (exportedFunction "getStaticProps"))
  then inr (exportedFunction "getStaticProps")
  else if String.eqb code (printNode reExported) then inr reExported
  else if String.eqb code (printNode templateTree) then inr templateTree
  else if String.eqb code (printNode strayTemplateTree) then inr strayTemplateTree
  else inl "SyntaxError: Unexpected token".

Definition sampleEnv (templateText : string) : Env :=
  mkEnv sampleParse printNode
        (fun code => includes "export " code || includes "import " code)
        (fun projectDir resourcePath =>
           if String.prefix projectDir resourcePath
           then dropS (S (String.length projectDir)) resourcePath
           else resourcePath)
        "templates/dataFetchersLoaderTemplate.js"
        (fun _ => templateText).

(** The names for which the loop of [wrapFunctions] finds an identifier in
    the user tree when their turn comes. *)
Fixpoint foundNames (userAST : Node) (names : list string) : list string :=
  match names with
  | [] => []
  | functionName :: rest =>
      let matchingNodes := findIdentifiers userAST functionName in
      if Nat.ltb 0 (List.length matchingNodes)
      then functionName
           :: foundNames (renameAll (findAvailibleAlias userAST functionName)
                                    matchingNodes userAST) rest
      else foundNames userAST rest
  end.

(** While the placeholders are filled in, in the order of the registry, no
    placeholder of a name that was not found is present when its turn
    comes. *)
Fixpoint staleAbsent (found : list string) (r : Registry) (code : string) : bool :=
  match r with
  | [] => true
  | e :: r' =>
      if existsb (String.eqb (fst e)) found
      then staleAbsent found r' (replace (placeholder (snd e)) (alias (snd e)) code)
      else negb (includes (placeholder (snd e)) code) && staleAbsent found r' code
  end.

(** The same for a run of the loader that starts from the initial
    registry. *)
Definition stalePlaceholdersAbsent (env : Env) (projectDir resourcePath userCode : string)
  : bool :=
  let filepath := relative env projectDir resourcePath in
  match parse env (isTSPath filepath) userCode,
        parse env false (readFileSync env (templatePath env)) with
  | inr userAST, inr templateAST =>
      let '(_, templateAST', reg) :=
        fold_left wrapStep (keys DATA_FETCHING_FUNCTIONS)
                  (userAST, removeComments templateAST, DATA_FETCHING_FUNCTIONS) in
      staleAbsent (foundNames userAST (keys DATA_FETCHING_FUNCTIONS)) reg
                  (toSource env templateAST')
  | _, _ => true
  end.

(** Two registries with the same names and placeholders whose aliases agree
    for the names of [found]. *)
Definition agreeOn (found : list string) (r1 r2 : Registry) : Prop :=
  Forall2 (fun e1 e2 => fst e1 = fst e2 /\
                        placeholder (snd e1) = placeholder (snd e2) /\
                        (In (fst e1) found -> alias (snd e1) = alias (snd e2)))
          r1 r2.

(** Two pages, and the world a run on the first leaves behind. *)
Definition pageWithGSSP : string := printNode (exportedFunction "getServerSideProps").
Definition pageWithGSP : string := printNode (exportedFunction "getStaticProps").

Definition afterFirstRun (env : Env) : World :=
  snd (wrapDataFetchersLoader env "/proj" "/proj/pages/index.js" pageWithGSSP
                              initialWorld).

(* ================================================================== *)
(** ** Removal, structurally *)
(* ================================================================== *)

(** The children part of [remove]. *)
Fixpoint removeKids (ps : list Path) (i : nat) (l : list Node) : list Node :=
  match l with
  | [] => []
  | c :: l' =>
      if existsb isNil (pathsUnder i ps)
      then removeKids ps (S i) l'
      else remove c (pathsUnder i ps) :: removeKids ps (S i) l'
  end.

(** Detaching every node below the root that satisfies [f]. *)
Fixpoint prune (f : Node -> bool) (n : Node) : Node :=
  match n with
  | mkNode ty sl nm sh co cm ks =>
      mkNode ty sl nm sh co cm
        ((fix go (l : list Node) : list Node :=
            match l with
            | [] => []
            | c :: l' => if f c then go l' else prune f c :: go l'
            end) ks)
  end.

Fixpoint pruneKids (f : Node -> bool) (l : list Node) : list Node :=
  match l with
  | [] => []
  | c :: l' => if f c then pruneKids f l' else prune f c :: pruneKids f l'
  end.



(** What [findExports(ast, name)] and [findDeclarations(ast, name)] select. *)
Definition exportMatch (name' : string) (n : Node) : bool :=
  check ExportSpecifier n && exportFilter name' n.

Definition declarationMatch (name' : string) (n : Node) : bool :=
  check VariableDeclaration n && declarationFilter name' n.

(** The classes of node the loader removes, and the fields the two filters
    read.  In a parsed tree no declaration or export specifier is stored in
    one of these fields. *)
Definition removableType (n : Node) : bool :=
  check ExportSpecifier n || check VariableDeclaration n.

Definition filterSlot (n : Node) : bool :=
  Field_eqb f_declarations (slot n) || Field_eqb f_id (slot n)
  || Field_eqb f_exported (slot n).

Fixpoint wfSlots (n : Node) : bool :=
  match n with
  | mkNode _ _ _ _ _ _ ks =>
      forallb (fun c => negb (filterSlot c && removableType c) && wfSlots c) ks
  end.


(** The template part of [wrapStep] for a name the user tree lacks. *)
Definition deleteWrapper (functionName : string) (templateAST : Node) : Node :=
  let templateAST1 := remove templateAST (findExports templateAST functionName) in
  remove templateAST1 (findDeclarations templateAST1 functionName).



(** The statements of the program below the root [File]. *)
Definition statements (t : Node) : list Node := flat_map kids (kids t).

(** The template side of the loop of [wrapFunctions] when no name is found. *)
Definition deleteWrappers (names : list string) (templateAST : Node) : Node :=
  fold_left (fun t functionName => deleteWrapper functionName t) names templateAST.


(** [reExported] after the loop of [wrapFunctions]:
    [import { _getServerSideProps } from './data';
     export { _getServerSideProps };] *)
Definition reExportedByDriver : Node :=
  file [ other "ImportDeclaration" "body"
           [ node ImportSpecifier (f_other "specifiers")
               [ ident f_local "_getServerSideProps";
                 ident f_imported "_getServerSideProps" ];
             literal "source" "'./data'" ];
         other "ExportNamedDeclaration" "body"
           [ node ExportSpecifier (f_other "specifiers")
               [ ident f_local "_getServerSideProps";
                 ident f_exported "_getServerSideProps" ] ] ].

(** [reExported] after [renameIdentifiers]:
    [import { getServerSideProps as _getServerSideProps } from './data';
     export { _getServerSideProps };] *)
Definition reExportedByRenamer : Node :=
  file [ other "ImportDeclaration" "body"
           [ node ImportSpecifier (f_other "specifiers")
               [ ident f_local "_getServerSideProps";
                 ident f_imported "getServerSideProps" ];
             literal "source" "'./data'" ];
         other "ExportNamedDeclaration" "body"
           [ node ExportSpecifier (f_other "specifiers")
               [ ident f_local "_getServerSideProps";
                 ident f_exported "_getServerSideProps" ] ] ].

(** Every renamable identifier that was named [L] in [ast0] is named [A] in
    [t]. *)
Definition allRenamed (A L : string) (ast0 t : Node) : Prop :=
  forall p, p <> [] -> identifierAt ast0 p L -> renamable ast0 p = true ->
            nameAt t p = Some A.

(** What holds between the steps of a run of the renamer with alias [A] on
    [ast0]: names were only replaced by [A], and the identifier at [lp] is
    still named [L] unless every renamable [L] has been renamed. *)
Definition aliasInvariant (A L : string) (ast0 : Node) (lp : Path) (t : Node) : Prop :=
  renamedTo A ast0 t /\ (nameAt t lp = Some L \/ allRenamed A L ast0 t).

(* ================================================================== *)
(** ** Further definitions for the properties of the whole code *)
(* ================================================================== *)

(** [t'] is [t] with the same shape and with the name of every occurrence in
    a do-not-rename context (or without the two ancestors the renamer reads)
    untouched. *)
Definition keepsExempt (t t' : Node) : Prop :=
  skeleton t' = skeleton t /\
  forall q, renamable t q = false -> nameAt t' q = nameAt t q.

(** [const { getStaticProps } = lib;] *)
Definition shorthandProperty : Node :=
  mkNode Property f_properties "" true false None
         [ ident f_key "getStaticProps"; ident f_value "getStaticProps" ].

Definition shorthandPattern : Node := node ObjectPattern f_id [ shorthandProperty ].

Definition destructured : Node :=
  file [ node VariableDeclaration (f_other "body")
           [ node VariableDeclarator f_declarations
               [ shorthandPattern; ident f_init "lib" ] ] ].

(** A name that begins with an underscore. *)
Definition startsWithUnderscore (s : string) : bool :=
  match s with
  | String c _ => Ascii.eqb c "_"
  | EmptyString => false
  end.

(** No identifier of the tree carries the name. *)
Definition absentFrom (ast : Node) (name' : string) : bool :=
  isNil (findIdentifiers ast name').

(** What the loop of [wrapFunctions] leaves in the registry entry [e'] that
    was [e], for the names of the loop and the user tree it started from. *)
Definition recorded (names : list string) (userAST : Node)
    (e e' : string * TrackedFunction) : Prop :=
  fst e' = fst e /\
  placeholder (snd e') = placeholder (snd e) /\
  if existsb (String.eqb (fst e)) names && negb (absentFrom userAST (fst e))
  then exists k, 1 <= k /\ alias (snd e') = candidate k (fst e)
  else alias (snd e') = alias (snd e).

(* ================================================================== *)
(** ** The wrapper of the data-fetching functions (wrapperUtils.ts,
       [wrapperCore], [callOriginal]) *)
(* ================================================================== *)

(** The tracing state the wrapper reads and writes: the transaction on the
    current scope with its child spans, and the exceptions handed to
    [captureException].  A span is known by its position among the children
    of the transaction; [finishCalls] counts the calls of [span.finish()]. *)
Record Span : Type :=
  mkSpan { op : string; description : string; finishCalls : nat }.

Record Transaction : Type :=
  mkTransaction {
    transactionName : string;
    metadataSource : option string;
    spans : list Span
  }.

Record Hub : Type :=
  mkHub { activeTransaction : option Transaction; capturedExceptions : list string }.

(** What calling the user's function does: it throws, it returns a value
    (or a promise fulfilled with it), or it returns a promise that rejects.
    The function is taken to leave the tracing state alone. *)
Inductive CallResult (R : Type) : Type :=
| Throws (err : string)
| Returns (v : R)
| ReturnsRejected (err : string).
Arguments Throws {R} err.
Arguments Returns {R} v.
Arguments ReturnsRejected {R} err.

Record DataFetcher (C R : Type) : Type :=
  mkDataFetcher { functionName : string; body : C -> CallResult R }.
Arguments mkDataFetcher {C R} functionName body.
Arguments functionName {C R} d.
Arguments body {C R} d c.

(** How the promise of an [async] function settles. *)
Inductive Settled (R : Type) : Type :=
| Fulfilled (v : R)
| Rejected (err : string).
Arguments Fulfilled {R} v.
Arguments Rejected {R} err.

(** [name.replace(/^_*/, '')] *)
Fixpoint stripLeadingUnderscores (s : string) : string :=
  match s with
  | String c s' => if Ascii.eqb c "_" then stripLeadingUnderscores s' else s
  | EmptyString => EmptyString
  end.

(** [span.finish()] for the span at position [i] of the active transaction. *)
Definition finishSpan (i : nat) (h : Hub) : Hub :=
  match activeTransaction h with
  | Some tx =>
      mkHub (Some (mkTransaction (transactionName tx) (metadataSource tx)
                     (updNth i (fun s => mkSpan (op s) (description s)
                                                (S (finishCalls s)))
                             (spans tx))))
            (capturedExceptions h)
  | None => h
  end.

(** [captureException(err)] *)
Definition captureException (err : string) (h : Hub) : Hub :=
  mkHub (activeTransaction h) (capturedExceptions h ++ [err]).

(** [callOriginal(origFunction, context, span?)].  The [try] returns the
    result of the call without awaiting it, so the [catch] clause runs for
    an exception thrown by the call itself and not for a promise that
    rejects later. *)
Definition callOriginal {C R : Type} (origFunction : DataFetcher C R) (context : C)
    (span : option nat) (h : Hub) : Settled R * Hub :=
  match body origFunction context with
  | Returns v => (Fulfilled v, h)
  | ReturnsRejected err => (Rejected err, h)
  | Throws err =>
      let h1 := match span with Some i => finishSpan i h | None => h end in
      (Rejected err, captureException err h1)
  end.

(** [wrapperCore(origFunction, context, route)] *)
Definition wrapperCore {C R : Type} (origFunction : DataFetcher C R) (context : C)
    (route : string) (h : Hub) : Settled R * Hub :=
  match activeTransaction h with
  | Some transaction =>
      let wrappedFunctionName := stripLeadingUnderscores (functionName origFunction) in
      let span := List.length (spans transaction) in
      let transaction' :=
        mkTransaction route (Some "route")
          (spans transaction
           ++ [mkSpan "nextjs.data" (wrappedFunctionName ++ " (" ++ route ++ ")")%string 0])
      in
      let h1 := mkHub (Some transaction') (capturedExceptions h) in
      match callOriginal origFunction context (Some span) h1 with
      | (Fulfilled props, h2) => (Fulfilled props, finishSpan span h2)
      | (Rejected err, h2) => (Rejected err, h2)
      end
  | None => callOriginal origFunction context None h
  end.

(** A text that is not a template the sample parser knows. *)
Definition brokenTemplate : string := "const getServerSideProps = ;".

(** The occurrence at [p] has the two ancestors the renamer reads and its
    parent is not an export specifier: [maybeRenameNode] handles it without
    re-entering [renameIdentifiers]. *)
Definition needsNoReentry (ast : Node) (p : Path) : bool :=
  match ancestor ast p 1, ancestor ast p 2 with
  | Ok parent, Ok _ => negb (check ExportSpecifier parent)
  | _, _ => false
  end.

(** The occurrence at [p] is in none of the contexts [maybeRenameNode]
    treats specially: not in a do-not-rename context, not a part of an
    export specifier, not the value of a property of an object pattern or
    literal. *)
Definition plainOccurrence (ast : Node) (p : Path) : bool :=
  match ancestor ast p 1, ancestor ast p 2 with
  | Ok parent, Ok grandparent =>
      negb (doNotRename parent grandparent p)
      && negb (check ExportSpecifier parent)
      && negb (check Property parent
               && (check ObjectPattern grandparent || check ObjectExpression grandparent))
  | _, _ => false
  end.

(** [export function getStaticProps() {}] *)
Definition exportFunctionDeclaration : Node :=
  file [ other "ExportNamedDeclaration" "body"
           [ other "FunctionDeclaration" "declaration"
               [ ident f_id "getStaticProps" ] ] ].

(** Every alias of the registry is empty, as the module initialises it, or
    the name of its entry with one or more underscores in front. *)
Definition aliasesOk (r : Registry) : Prop :=
  Forall (fun e => alias (snd e) = ""
                   \/ exists k, 1 <= k /\ alias (snd e) = candidate k (fst e)) r.

(** The loader run on one page after the other; a page is given by the
    project directory, the path of the page and its text. *)
Definition runLoader (env : Env) (pages : list (string * string * string)) (w : World)
  : World :=
  fold_left (fun w' page =>
               snd (wrapDataFetchersLoader env (fst (fst page)) (snd (fst page))
                                           (snd page) w'))
            pages w.
(* ================================================================== *)
(** ** Termination of the renamer *)
(* ================================================================== *)

(** An export specifier as the parser builds it: the identifier [local],
    then the identifier [exported] (the order of the fields of the class,
    which is the order in which the visitor reaches them). *)
Definition specifierShape (s : Node) : bool :=
  match kids s with
  | [l; e] =>
      check Identifier l && Field_eqb f_local (slot l) && isNil (kids l)
      && (check Identifier e && Field_eqb f_exported (slot e) && isNil (kids e))
  | _ => false
  end.

(** A tree as [maybeRenameNode] expects it: every identifier has the two
    ancestors the function reads (in a parsed file the root [File] and its
    [Program] are above every statement), and every export specifier has
    its two parts. *)
Definition wellShaped (t : Node) : bool :=
  forallb (fun p => Nat.leb 2 (List.length p)) (find t Identifier)
  && forallb (nodeSatisfies t specifierShape) (find t ExportSpecifier).

(** No export specifier exports under the name [A] something whose local
    name is not [A]. *)
Definition specifierClosed (A : string) (s : Node) : bool :=
  match field s f_exported with
  | Some e =>
      negb (String.eqb (name e) A)
      || match field s f_local with
         | Some l => String.eqb (name l) A
         | None => false
         end
  | None => true
  end.

Definition aliasClosed (A : string) (t : Node) : bool :=
  forallb (nodeSatisfies t (specifierClosed A)) (find t ExportSpecifier).

(** [aliasClosed] read on the paths of the two parts of a specifier. *)
Definition partsClosed (A : string) (t : Node) : Prop :=
  forall sp, In sp (find t ExportSpecifier) ->
             nameAt t (sp ++ [1]) = Some A -> nameAt t (sp ++ [0]) = Some A.

(** The identifiers a run with alias [A] may still rename: those outside
    the do-not-rename contexts that are not named [A]. *)
Definition pending (A : string) (t : Node) (p : Path) : bool :=
  renamable t p && negb (nodeSatisfies t (identifierFilter A) p).

Definition pendingCount (A : string) (t : Node) : nat :=
  List.length (filter (pending A t) (find t Identifier)).

Fixpoint firstIndex {X : Type} (f : X -> bool) (l : list X) : nat :=
  match l with
  | [] => 0
  | x :: l' => if f x then 0 else S (firstIndex f l')
  end.

(** The position, among the identifiers of the tree, of the first one named
    [N] outside the do-not-rename contexts. *)
Definition firstRenamable (t : Node) (N : string) : nat :=
  firstIndex (fun p => renamable t p && nodeSatisfies t (identifierFilter N) p)
             (find t Identifier).

(** The depth of re-entry a call [renameIdentifiers(t, N, A)] can reach is
    bounded by its rank; the budget covers every rank. *)
Definition renameRank (A : string) (t : Node) (N : string) : nat :=
  pendingCount A t * S (List.length (find t Identifier)) + firstRenamable t N.

Definition renameBudget (t : Node) : nat :=
  S (List.length (find t Identifier)) * S (List.length (find t Identifier)).

(** What holds between the steps of a pass of [renameIdentifiers(t, N, A)]
    when [tc] is the tree after the identifiers [pre] were handled: names
    were only replaced by [A], the specifiers are closed, the renamable
    identifiers handled are named [A], and either an identifier was renamed
    or every identifier so far was left alone. *)
Definition passInvariant (A N : string) (t : Node) (pre : list Path) (tc : Node) : Prop :=
  renamedTo A t tc /\ partsClosed A tc /\
  (forall q, In q pre -> nameAt t q = Some N -> renamable t q = true ->
             nameAt tc q = Some A) /\
  (N = A \/ pendingCount A tc < pendingCount A t \/
   forall q, In q pre ->
             renamable t q && nodeSatisfies t (identifierFilter N) q = false).

(** [export { b as a, a as b };] *)
Definition cyclicExports : Node :=
  file [ other "ExportNamedDeclaration" "body"
           [ node ExportSpecifier (f_other "specifiers")
               [ ident f_local "b"; ident f_exported "a" ];
             node ExportSpecifier (f_other "specifiers")
               [ ident f_local "a"; ident f_exported "b" ] ] ].


(* ================================================================== *)
(** * Properties *)
(* ================================================================== *)

(** ** Trees and paths *)

Lemma Node_induction (P : Node -> Prop) :
  (forall ty sl nm sh co cm ks,
      Forall P ks -> P (mkNode ty sl nm sh co cm ks)) ->
  forall n, P n.
Proof.
  intros H. fix IH 1. intros [ty sl nm sh co cm ks]. apply H.
  induction ks as [|c ks IHks]; constructor; [apply IH | exact IHks].
Qed.

Lemma paths_unfold (t : Node) : paths t = [] :: kidPaths 0 (kids t).
Proof.
  destruct t as [ty sl nm sh co cm ks]. reflexivity.
Qed.

Lemma NodeType_eqb_spec (a b : NodeType) : NodeType_eqb a b = true <-> a = b.
Proof.
  destruct a, b; simpl; split; intros H; try reflexivity; try discriminate;
    try (apply String.eqb_eq in H; now subst);
    try (injection H as ->; apply String.eqb_refl).
Qed.

Lemma Field_eqb_spec (a b : Field) : Field_eqb a b = true <-> a = b.
Proof.
  destruct a, b; simpl; split; intros H; try reflexivity; try discriminate;
    try (apply String.eqb_eq in H; now subst);
    try (injection H as ->; apply String.eqb_refl).
Qed.

Lemma in_kidPaths (l : list Node) : forall i p,
  In p (kidPaths i l) <->
  exists j q c, p = (i + j) :: q /\ nth_error l j = Some c /\ In q (paths c).
Proof.
  induction l as [|c l IH]; intros i p; simpl.
  - split; [tauto|]. intros (j & q & c & _ & H & _). destruct j; discriminate.
  - rewrite in_app_iff, in_map_iff, IH. split.
    + intros [(q & <- & Hq) | (j & q & c' & -> & Hn & Hq)].
      * exists 0, q, c. rewrite Nat.add_0_r. auto.
      * exists (S j), q, c'. split; [f_equal; lia | auto].
    + intros (j & q & c' & -> & Hn & Hq). destruct j as [|j]; simpl in Hn.
      * injection Hn as <-. left. exists q. rewrite Nat.add_0_r. auto.
      * right. exists j, q, c'. split; [f_equal; lia | auto].
Qed.

Lemma in_paths : forall t p, In p (paths t) <-> getNode t p <> None.
Proof.
  induction t as [ty sl nm sh co cm ks IH] using Node_induction.
  intros p. rewrite paths_unfold. simpl.
  destruct p as [|i q]; simpl.
  - split; [discriminate | auto].
  - rewrite in_kidPaths. split.
    + intros [H | (j & q' & c & Heq & Hn & Hq)]; [discriminate|].
      injection Heq as -> ->. simpl. rewrite Hn.
      rewrite Forall_forall in IH. apply IH; [eapply nth_error_In; eauto | exact Hq].
    + intros H. right. destruct (nth_error ks i) as [c|] eqn:Hn; [|congruence].
      exists i, q, c. repeat split; auto.
      rewrite Forall_forall in IH. apply IH; [eapply nth_error_In; eauto | exact H].
Qed.

Lemma in_descendants (t : Node) (p : Path) :
  In p (descendants t) <-> p <> [] /\ getNode t p <> None.
Proof.
  unfold descendants. pose proof (in_paths t p) as H.
  rewrite paths_unfold in *. simpl in *. rewrite <- H.
  split.
  - intros Hin. split; [|auto]. intros ->.
    apply in_kidPaths in Hin. destruct Hin as (j & q & c & Heq & _). discriminate.
  - intros [Hne [Heq | Hin]]; [congruence | exact Hin].
Qed.

Lemma in_find (t : Node) (T : NodeType) (p : Path) :
  In p (find t T) <->
  p <> [] /\ exists n, getNode t p = Some n /\ type n = T.
Proof.
  unfold find. rewrite filter_In, in_descendants. unfold nodeSatisfies, check.
  split.
  - intros [[Hne _] H]. split; [exact Hne|].
    destruct (getNode t p) as [n|]; [|discriminate].
    exists n. split; [reflexivity|]. apply NodeType_eqb_spec in H. auto.
  - intros [Hne (n & Hn & Hty)]. rewrite Hn. repeat split; auto; try congruence.
    apply NodeType_eqb_spec. auto.
Qed.

Lemma in_findIdentifiers (t : Node) (s : string) (p : Path) :
  In p (findIdentifiers t s) <->
  p <> [] /\ exists n, getNode t p = Some n /\ type n = Identifier /\ name n = s.
Proof.
  unfold findIdentifiers. rewrite filter_In, in_find.
  unfold nodeSatisfies, identifierFilter. split.
  - intros [[Hne (n & Hn & Hty)] H]. rewrite Hn in H. apply String.eqb_eq in H.
    split; [exact Hne|]. exists n. auto.
  - intros [Hne (n & Hn & Hty & Hnm)]. rewrite Hn. repeat split; auto.
    + exists n. auto.
    + now apply String.eqb_eq.
Qed.

Lemma in_identifierNames (t : Node) (s : string) :
  In s (identifierNames t) <-> findIdentifiers t s <> [].
Proof.
  unfold identifierNames. rewrite in_flat_map. split.
  - intros (p & Hp & Hs) Hnil.
    assert (Hin : In p (findIdentifiers t s)).
    { apply in_findIdentifiers. apply in_find in Hp as Hp'.
      destruct Hp' as [Hne (n & Hn & Hty)]. split; [exact Hne|].
      rewrite Hn in Hs. destruct Hs as [<- | []]. exists n. auto. }
    rewrite Hnil in Hin. exact Hin.
  - intros Hne. destruct (findIdentifiers t s) as [|p ps] eqn:E; [congruence|].
    assert (Hin : In p (findIdentifiers t s)) by (rewrite E; now left).
    exists p. split.
    + unfold findIdentifiers in Hin. apply filter_In in Hin. tauto.
    + apply in_findIdentifiers in Hin. destruct Hin as [_ (n & Hn & _ & Hnm)].
      rewrite Hn. now left.
Qed.

(** ** The alias allocator *)

Lemma candidate_length (k : nat) (s : string) :
  String.length (candidate k s) = k + String.length s.
Proof. induction k; simpl; auto. Qed.

Lemma candidate_shift (k : nat) (s : string) :
  candidate k (String "_" s) = candidate (S k) s.
Proof. induction k; simpl; [reflexivity | now rewrite IHk]. Qed.

Lemma candidate_inj (s : string) (i j : nat) : candidate i s = candidate j s -> i = j.
Proof.
  intros H. apply (f_equal String.length) in H. rewrite !candidate_length in H. lia.
Qed.

Lemma candidates_NoDup (s : string) (a n : nat) :
  NoDup (map (fun i => candidate i s) (seq a n)).
Proof.
  apply Injective_map_NoDup; [|apply seq_NoDup].
  intros i j. apply candidate_inj.
Qed.

Lemma isVariant_candidate (s : string) (k : nat) :
  1 <= k -> isVariant s (candidate k s) = true.
Proof.
  intros Hk. unfold isVariant. apply existsb_exists. exists k. split.
  - apply in_seq. rewrite candidate_length. lia.
  - apply String.eqb_refl.
Qed.

Lemma identifierNames_length (t : Node) :
  List.length (identifierNames t) <= List.length (find t Identifier).
Proof.
  unfold identifierNames. induction (find t Identifier) as [|p ps IH]; simpl; [lia|].
  rewrite length_app. destruct (getNode t p); simpl; lia.
Qed.

Lemma findIdentifiers_length_0 (t : Node) (s : string) :
  Nat.eqb (List.length (findIdentifiers t s)) 0 = true <-> findIdentifiers t s = [].
Proof.
  rewrite Nat.eqb_eq. destruct (findIdentifiers t s); simpl; split; congruence.
Qed.

Lemma loop_some (t : Node) : forall fuel s r k,
  findAvailibleAlias_loop fuel t s = Some (r, k) ->
  r = candidate k s /\ 1 <= k <= fuel /\ findIdentifiers t r = [] /\
  (forall i, 1 <= i < k -> In (candidate i s) (identifierNames t)).
Proof.
  induction fuel as [|fuel IH]; intros s r k H; simpl in H; [discriminate|].
  destruct (Nat.eqb (List.length (findIdentifiers t (String "_" s))) 0) eqn:E.
  - injection H as <- <-. apply findIdentifiers_length_0 in E.
    repeat split; simpl; auto; try lia.
  - destruct (findAvailibleAlias_loop fuel t (String "_" s)) as [[r' k']|] eqn:E';
      [|discriminate].
    injection H as <- <-. apply IH in E'. destruct E' as (-> & Hk & Hnil & Hin).
    rewrite candidate_shift in *. repeat split; auto; try lia.
    intros i Hi. destruct (Nat.eq_dec i 1) as [-> | Hne].
    + simpl. apply in_identifierNames. intros Hnil'.
      apply findIdentifiers_length_0 in Hnil'. congruence.
    + specialize (Hin (i - 1) ltac:(lia)). rewrite candidate_shift in Hin.
      replace (S (i - 1)) with i in Hin by lia. exact Hin.
Qed.

Lemma loop_none (t : Node) : forall fuel s,
  findAvailibleAlias_loop fuel t s = None ->
  forall i, 1 <= i <= fuel -> In (candidate i s) (identifierNames t).
Proof.
  induction fuel as [|fuel IH]; intros s H i Hi; [lia|]. simpl in H.
  destruct (Nat.eqb (List.length (findIdentifiers t (String "_" s))) 0) eqn:E;
    [discriminate|].
  destruct (findAvailibleAlias_loop fuel t (String "_" s)) as [[r' k']|] eqn:E';
    [discriminate|].
  destruct (Nat.eq_dec i 1) as [-> | Hne].
  - simpl. apply in_identifierNames. intros Hnil.
    apply findIdentifiers_length_0 in Hnil. congruence.
  - specialize (IH _ E' (i - 1) ltac:(lia)). rewrite candidate_shift in IH.
    replace (S (i - 1)) with i in IH by lia. exact IH.
Qed.

Lemma loop_more_fuel (t : Node) : forall fuel s x,
  findAvailibleAlias_loop fuel t s = Some x ->
  forall fuel', fuel <= fuel' -> findAvailibleAlias_loop fuel' t s = Some x.
Proof.
  induction fuel as [|fuel IH]; intros s x H fuel' Hle; [discriminate|].
  destruct fuel' as [|fuel']; [lia|]. simpl in *.
  destruct (Nat.eqb (List.length (findIdentifiers t (String "_" s))) 0); [exact H|].
  destruct (findAvailibleAlias_loop fuel t (String "_" s)) as [y|] eqn:E;
    [|discriminate].
  rewrite (IH _ _ E fuel') by lia. exact H.
Qed.

(** The budget of [findAvailibleAlias] is never exhausted. *)
Lemma findAvailibleAlias_loop_total (t : Node) (s : string) :
  exists r k, findAvailibleAlias_loop (aliasBudget t) t s = Some (r, k).
Proof.
  destruct (findAvailibleAlias_loop (aliasBudget t) t s) as [[r k]|] eqn:E; [eauto|].
  exfalso. pose proof (loop_none _ _ _ E) as Hin.
  assert (Hlen : aliasBudget t <= List.length (identifierNames t)).
  { pose proof (@NoDup_incl_length _ _ (identifierNames t)
                  (candidates_NoDup s 1 (aliasBudget t))) as Hl.
    rewrite length_map, length_seq in Hl. apply Hl.
    intros x Hx. apply in_map_iff in Hx. destruct Hx as (i & <- & Hi).
    apply in_seq in Hi. apply Hin. lia. }
  pose proof (identifierNames_length t). unfold aliasBudget in Hlen. lia.
Qed.

Lemma findAvailibleAlias_spec (t : Node) (s : string) :
  exists k, findAvailibleAlias_loop (aliasBudget t) t s = Some (findAvailibleAlias t s, k)
            /\ findAvailibleAlias t s = candidate k s /\ 1 <= k
            /\ findIdentifiers t (findAvailibleAlias t s) = [].
Proof.
  destruct (findAvailibleAlias_loop_total t s) as (r & k & E).
  unfold findAvailibleAlias. rewrite E. exists k.
  apply loop_some in E as H. destruct H as (-> & Hk & Hnil & _).
  repeat split; auto; lia.
Qed.

(** C6: the alias returned by [findAvailibleAlias] is the name with one or
    more underscores in front, no identifier of the tree carries it
    ([findIdentifiers] finds nothing), and so it differs from the name of
    every identifier present in the tree at the time of the call. *)
Theorem findAvailibleAlias_fresh (t : Node) (origName : string) :
  (exists k, 1 <= k /\ findAvailibleAlias t origName = candidate k origName) /\
  findIdentifiers t (findAvailibleAlias t origName) = [] /\
  (forall p n, In p (find t Identifier) -> getNode t p = Some n ->
               name n <> findAvailibleAlias t origName).
Proof.
  destruct (findAvailibleAlias_spec t origName) as (k & _ & Hc & Hk & Hnil).
  split; [eauto|]. split; [exact Hnil|].
  intros p n Hp Hn Heq.
  assert (Hin : In p (findIdentifiers t (findAvailibleAlias t origName))).
  { apply in_findIdentifiers. apply in_find in Hp.
    destruct Hp as [Hne (n' & Hn' & Hty)]. split; [exact Hne|].
    exists n. rewrite Hn in Hn'. injection Hn' as <-. auto. }
  rewrite Hnil in Hin. exact Hin.
Qed.

(** C7: the loop of [findAvailibleAlias] terminates: some number [k] of
    iterations gives the result under every budget of at least [k]
    (the budget the function uses among them); [k] is at most one more than
    the number of distinct underscore-prefixed variants of the name among
    the identifiers of the tree; the candidates tried before the last were
    all taken, and each candidate is strictly longer than the one before. *)
Theorem findAvailibleAlias_terminates (t : Node) (origName : string) :
  exists k,
    (forall fuel, k <= fuel ->
       findAvailibleAlias_loop fuel t origName = Some (candidate k origName, k)) /\
    k <= aliasBudget t /\
    findAvailibleAlias t origName = candidate k origName /\
    1 <= k <= S (List.length (variantsPresent t origName)) /\
    (forall j, 1 <= j < k -> findIdentifiers t (candidate j origName) <> []) /\
    (forall j, String.length (candidate (S j) origName)
               = S (String.length (candidate j origName))).
Proof.
  destruct (findAvailibleAlias_spec t origName) as (k & E & Hc & Hk & Hnil).
  rewrite Hc in E. apply loop_some in E as H.
  destruct H as (_ & Hkb & _ & Hin). exists k.
  assert (Hmin : findAvailibleAlias_loop k t origName = Some (candidate k origName, k)).
  { destruct (findAvailibleAlias_loop k t origName) as [[r' k']|] eqn:E'.
    - pose proof (loop_more_fuel _ _ _ _ E' (aliasBudget t) ltac:(lia)) as E2.
      rewrite E in E2. now injection E2 as <- <-.
    - exfalso. pose proof (loop_none _ _ _ E' k ltac:(lia)) as Hin'.
      apply in_identifierNames in Hin'. rewrite <- Hc in Hin'. auto. }
  split; [intros fuel Hle; eapply loop_more_fuel; eauto|].
  split; [lia|]. split; [exact Hc|]. split; [|split].
  - split; [lia|].
    assert (Hlen : k - 1 <= List.length (variantsPresent t origName)).
    { pose proof (@NoDup_incl_length _ _ (variantsPresent t origName)
                    (candidates_NoDup origName 1 (k - 1))) as Hl.
      rewrite length_map, length_seq in Hl. apply Hl.
      intros x Hx. apply in_map_iff in Hx. destruct Hx as (i & <- & Hi).
      apply in_seq in Hi. unfold variantsPresent. apply nodup_In.
      apply filter_In. split; [apply Hin; lia | apply isVariant_candidate; lia]. }
    lia.
  - intros j Hj. apply in_identifierNames. apply Hin. exact Hj.
  - intros j. reflexivity.
Qed.

(** ** Mutation at a path *)

Lemma nth_error_updNth {A : Type} (f : A -> A) : forall (l : list A) i j,
  nth_error (updNth i f l) j
  = if Nat.eqb i j then option_map f (nth_error l j) else nth_error l j.
Proof.
  induction l as [|x l IH]; intros i j; simpl.
  - destruct j; simpl; now destruct (Nat.eqb i _).
  - destruct i as [|i], j as [|j]; simpl; try reflexivity. apply IH.
Qed.

Lemma map_updNth {A B : Type} (g : A -> B) (f : A -> A) : forall (l : list A) i,
  (forall x, In x l -> g (f x) = g x) -> map g (updNth i f l) = map g l.
Proof.
  induction l as [|x l IH]; intros i H; simpl; [reflexivity|].
  destruct i as [|i]; simpl.
  - rewrite H by (now left). reflexivity.
  - rewrite IH; [reflexivity|]. intros y Hy. apply H. now right.
Qed.

Lemma getNode_updateNode_same (f : Node -> Node) : forall p t n,
  getNode t p = Some n -> getNode (updateNode f t p) p = Some (f n).
Proof.
  induction p as [|i p IH]; intros t n H; simpl in *.
  - now injection H as ->.
  - rewrite nth_error_updNth, Nat.eqb_refl.
    destruct (nth_error (kids t) i) as [c|]; [|discriminate]. simpl. now apply IH.
Qed.

(** Attributes that do not depend on the children are untouched away from
    the mutated node. *)
Lemma getNode_updateNode_other {A : Type} (proj : Node -> A) (f : Node -> Node) :
  (forall n, kids (f n) = kids n) ->
  (forall ks n, proj (setKids ks n) = proj n) ->
  forall p t q, q <> p ->
    option_map proj (getNode (updateNode f t p) q) = option_map proj (getNode t q).
Proof.
  intros Hk Hp. induction p as [|i p IH]; intros t q Hne; simpl.
  - destruct q as [|j q]; [congruence|]. simpl. now rewrite Hk.
  - destruct q as [|j q]; simpl; [now rewrite Hp|].
    rewrite nth_error_updNth. destruct (Nat.eqb i j) eqn:E.
    + apply Nat.eqb_eq in E. subst j.
      destruct (nth_error (kids t) i) as [c|]; [|reflexivity]. simpl.
      apply IH. congruence.
    + reflexivity.
Qed.

Lemma nameAt_setName_same (a : string) (t : Node) (p : Path) :
  getNode t p <> None -> nameAt (updateNode (setName a) t p) p = Some a.
Proof.
  intros H. unfold nameAt. destruct (getNode t p) as [n|] eqn:E; [|congruence].
  now rewrite (getNode_updateNode_same _ _ _ _ E).
Qed.

Lemma nameAt_setName_other (a : string) (t : Node) (p q : Path) :
  q <> p -> nameAt (updateNode (setName a) t p) q = nameAt t q.
Proof. intros H. unfold nameAt. now apply getNode_updateNode_other. Qed.

Lemma nameAt_setShorthand (b : bool) (t : Node) (p q : Path) :
  nameAt (updateNode (setShorthand b) t p) q = nameAt t q.
Proof.
  unfold nameAt. destruct (list_eq_dec Nat.eq_dec q p) as [-> | Hne].
  - destruct (getNode t p) as [n|] eqn:E.
    + now rewrite (getNode_updateNode_same _ _ _ _ E).
    + revert t E. induction p as [|i p IH]; intros t E; simpl in *; [discriminate|].
      rewrite nth_error_updNth, Nat.eqb_refl.
      destruct (nth_error (kids t) i) as [c|]; [|reflexivity]. simpl.
      now apply IH.
  - now apply getNode_updateNode_other.
Qed.

(** ** The shape of a tree *)

Lemma skeleton_type (n : Node) : type (skeleton n) = type n.
Proof. now destruct n. Qed.

Lemma skeleton_slot (n : Node) : slot (skeleton n) = slot n.
Proof. now destruct n. Qed.

Lemma skeleton_kids (n : Node) : kids (skeleton n) = map skeleton (kids n).
Proof. now destruct n. Qed.

Lemma getNode_skeleton : forall p t,
  getNode (skeleton t) p = option_map skeleton (getNode t p).
Proof.
  induction p as [|i p IH]; intros t; simpl; [reflexivity|].
  rewrite skeleton_kids, nth_error_map.
  destruct (nth_error (kids t) i); simpl; [apply IH | reflexivity].
Qed.

Lemma skeleton_updateNode (f : Node -> Node) :
  (forall n, skeleton (f n) = skeleton n) ->
  forall p t, skeleton (updateNode f t p) = skeleton t.
Proof.
  intros Hf. induction p as [|i p IH]; intros t; simpl; [apply Hf|].
  destruct t as [ty sl nm sh co cm ks]. simpl. f_equal.
  apply map_updNth. intros x _. apply IH.
Qed.

Lemma skeleton_setName (a : string) (n : Node) : skeleton (setName a n) = skeleton n.
Proof. now destruct n. Qed.

Lemma skeleton_setShorthand (b : bool) (n : Node) :
  skeleton (setShorthand b n) = skeleton n.
Proof. now destruct n. Qed.

Lemma fieldIndexFrom_skeleton (F : Field) : forall l i,
  fieldIndexFrom i F (map skeleton l) = fieldIndexFrom i F l.
Proof.
  induction l as [|c l IH]; intros i; simpl; [reflexivity|].
  rewrite skeleton_slot, IH. reflexivity.
Qed.

Lemma fieldIndex_skeleton (F : Field) (n : Node) :
  fieldIndex (skeleton n) F = fieldIndex n F.
Proof. unfold fieldIndex. rewrite skeleton_kids. apply fieldIndexFrom_skeleton. Qed.

Section SameShape.
Variables t t' : Node.
Hypothesis Hshape : skeleton t' = skeleton t.

Lemma shape_getNode (p : Path) :
  option_map skeleton (getNode t' p) = option_map skeleton (getNode t p).
Proof. now rewrite <- !getNode_skeleton, Hshape. Qed.

Lemma shape_getNode_some (p : Path) (n : Node) :
  getNode t p = Some n ->
  exists n', getNode t' p = Some n' /\ skeleton n' = skeleton n.
Proof.
  intros H. pose proof (shape_getNode p) as E. rewrite H in E.
  destruct (getNode t' p) as [n'|]; [|discriminate].
  exists n'. split; [reflexivity|]. now injection E.
Qed.

Lemma shape_getNode_none (p : Path) : getNode t p = None -> getNode t' p = None.
Proof.
  intros H. pose proof (shape_getNode p) as E. rewrite H in E.
  destruct (getNode t' p); [discriminate | reflexivity].
Qed.

Lemma shape_typeAt (p : Path) : typeAt t' p = typeAt t p.
Proof.
  unfold typeAt. pose proof (shape_getNode p) as E.
  destruct (getNode t' p) as [a|], (getNode t p) as [b|]; try discriminate; auto.
  simpl in *. injection E as E. now rewrite <- (skeleton_type a), E, skeleton_type.
Qed.

Lemma shape_paths : paths t' = paths t.
Proof.
  clear -Hshape. revert t' Hshape.
  induction t as [ty sl nm sh co cm ks IH] using Node_induction.
  intros [ty' sl' nm' sh' co' cm' ks'] H. rewrite !paths_unfold. simpl in *.
  injection H as _ _ _ _ Hks. f_equal. generalize 0.
  revert ks' Hks. induction ks as [|c ks IHks]; intros [|c' ks'] Hks i;
    simpl in *; try discriminate; [reflexivity|].
  injection Hks as Hc Hks. inversion IH as [|? ? Hc0 Hks0]; subst.
  rewrite (Hc0 c' Hc), (IHks Hks0 ks' Hks). reflexivity.
Qed.

Lemma shape_find (T : NodeType) : find t' T = find t T.
Proof.
  unfold find, descendants. rewrite shape_paths. apply filter_ext.
  intros p. unfold nodeSatisfies, check. pose proof (shape_typeAt p) as E.
  unfold typeAt in E.
  destruct (getNode t' p), (getNode t p); simpl in *; try discriminate; auto.
  now injection E as ->.
Qed.
End SameShape.

(** ** One step of the renamer *)

#[local] Arguments optString_eqb : simpl never.

Lemma maybeRenameNode_inv rename ast p alias ast' :
  maybeRenameNode rename ast p alias = Ok ast' ->
  exists parent grandparent,
    ancestor ast p 1 = Ok parent /\ ancestor ast p 2 = Ok grandparent /\
    ((doNotRename parent grandparent p = true /\ ast' = ast) \/
     (doNotRename parent grandparent p = false /\
      exists ast3,
        ((reenters parent p = false /\ ast3 = afterShorthand ast parent grandparent p) \/
         (reenters parent p = true /\
          exists r, rename (afterShorthand ast parent grandparent p)
                           (orElse (optName (field parent f_local)) "")
                           (Some alias) = Ok (ast3, r))) /\
        ast' = updateNode (setName alias) ast3 p)).
Proof.
  unfold maybeRenameNode. intros H.
  destruct (ancestor ast p 1) as [parent| |]; simpl in H; try discriminate.
  destruct (ancestor ast p 2) as [grandparent| |]; simpl in H; try discriminate.
  exists parent, grandparent. split; [reflexivity|]. split; [reflexivity|].
  unfold doNotRename, afterShorthand, reenters, check in *.
  destruct (type parent) eqn:Tp; destruct (type grandparent) eqn:Tg; simpl in *;
    repeat match type of H with
           | context [isField parent ?F p] => destruct (isField parent F p) eqn:?
           end; simpl in *;
    try (destruct (field parent f_exported) as [e|] eqn:Fe; simpl in *;
         [|discriminate];
         destruct (negb (optString_eqb (Some (name e)) (optName (field parent f_local))))
           eqn:Ne; simpl in *);
    first
      [ injection H as <-; left; split; reflexivity
      | injection H as <-; right; split; [reflexivity|];
        eexists; split; [left; split; reflexivity | reflexivity]
      | destruct (rename ast (orElse (optName (field parent f_local)) "")
                         (Some alias)) as [[ast3 r]| |] eqn:Er;
        simpl in *; try discriminate;
        injection H as <-; right; split; [reflexivity|];
        exists ast3; split; [right; split; [reflexivity | eauto] | reflexivity] ].
Qed.

Lemma forEach_invariant (R : Node -> Node -> Prop) (body : Node -> Path -> Outcome Node) :
  (forall t, R t t) ->
  (forall a b c, R a b -> R b c -> R a c) ->
  forall ps,
    (forall t p t', In p ps -> body t p = Ok t' -> R t t') ->
    forall t t', forEach body ps t = Ok t' -> R t t'.
Proof.
  intros Hrefl Htrans. induction ps as [|p ps IH]; intros Hb t t' H; simpl in H.
  - injection H as <-. apply Hrefl.
  - destruct (body t p) as [t1| |] eqn:E; simpl in H; try discriminate.
    eapply Htrans; [eapply Hb; [now left | exact E]|].
    apply IH; [|exact H]. intros; eapply Hb; [right|]; eauto.
Qed.

Lemma skeleton_afterShorthand ast parent grandparent p :
  skeleton (afterShorthand ast parent grandparent p) = skeleton ast.
Proof.
  unfold afterShorthand. destruct (_ && _); [|reflexivity].
  apply skeleton_updateNode. apply skeleton_setShorthand.
Qed.

Lemma maybeRenameNode_skeleton rename ast p alias ast' :
  (forall t X nn t' r, rename t X nn = Ok (t', r) -> skeleton t' = skeleton t) ->
  maybeRenameNode rename ast p alias = Ok ast' -> skeleton ast' = skeleton ast.
Proof.
  intros Hr H. apply maybeRenameNode_inv in H.
  destruct H as (parent & grandparent & _ & _ & [[_ ->] | [_ (ast3 & H3 & ->)]]);
    [reflexivity|].
  rewrite skeleton_updateNode by apply skeleton_setName.
  destruct H3 as [[_ ->] | [_ (r & Hren)]].
  - apply skeleton_afterShorthand.
  - rewrite (Hr _ _ _ _ _ Hren). apply skeleton_afterShorthand.
Qed.

(** Renaming never changes the shape of the tree. *)
Lemma renameIdentifiers_skeleton : forall fuel ast origName newName ast' r,
  renameIdentifiers fuel ast origName newName = Ok (ast', r) ->
  skeleton ast' = skeleton ast.
Proof.
  induction fuel as [|fuel IH]; intros ast origName newName ast' r H; simpl in H;
    [discriminate|].
  destruct (Nat.ltb 0 (List.length (findIdentifiers ast origName))).
  - match type of H with
    | (_ <-- ?m ;; _) = _ => destruct m as [t1| |] eqn:E; simpl in H; try discriminate
    end.
    injection H as <- _.
    revert E. apply forEach_invariant with (R := fun a b => skeleton b = skeleton a).
    + reflexivity.
    + intros a b c Hab Hbc. congruence.
    + intros t p t' _ Hstep. eapply maybeRenameNode_skeleton; [|exact Hstep].
      intros. eapply IH; eauto.
  - now injection H as <- _.
Qed.

Lemma ancestor_shape (t t' : Node) (p : Path) (k : nat) (a : Node) :
  skeleton t' = skeleton t -> ancestor t p k = Ok a ->
  exists a', ancestor t' p k = Ok a' /\ skeleton a' = skeleton a.
Proof.
  intros Hs. unfold ancestor. destruct (Nat.ltb _ _); [discriminate|].
  destruct (getNode t _) as [n|] eqn:E; [|discriminate]. intros H. injection H as <-.
  destruct (shape_getNode_some _ _ Hs _ _ E) as (n' & -> & Hn'). eauto.
Qed.

Lemma check_skeleton (T : NodeType) (a b : Node) :
  skeleton a = skeleton b -> check T a = check T b.
Proof.
  intros H. unfold check. now rewrite <- (skeleton_type a), H, skeleton_type.
Qed.

Lemma isField_skeleton (F : Field) (a b : Node) (p : Path) :
  skeleton a = skeleton b -> isField a F p = isField b F p.
Proof.
  intros H. unfold isField.
  now rewrite <- (fieldIndex_skeleton F a), H, fieldIndex_skeleton.
Qed.

Lemma doNotRename_skeleton (a a' g g' : Node) (p : Path) :
  skeleton a' = skeleton a -> skeleton g' = skeleton g ->
  doNotRename a' g' p = doNotRename a g p.
Proof.
  intros Ha Hg. unfold doNotRename.
  rewrite !(check_skeleton _ _ _ Ha), !(check_skeleton _ _ _ Hg),
          !(isField_skeleton _ _ _ _ Ha). reflexivity.
Qed.

(** The do-not-rename contexts leave the whole tree as it is, whatever the
    re-entry would do. *)
Lemma maybeRenameNode_exempt rename ast p alias parent grandparent :
  ancestor ast p 1 = Ok parent -> ancestor ast p 2 = Ok grandparent ->
  doNotRename parent grandparent p = true ->
  maybeRenameNode rename ast p alias = Ok ast.
Proof.
  intros Hp Hg. unfold maybeRenameNode. rewrite Hp, Hg. simpl.
  unfold doNotRename, check.
  destruct (type parent) eqn:Tp; destruct (type grandparent) eqn:Tg; simpl;
    repeat match goal with
           | |- context [isField parent ?F p] => destruct (isField parent F p) eqn:?
           end; simpl; intros H; try discriminate; reflexivity.
Qed.

(** Outside an export specifier a renamed occurrence needs no re-entry. *)
Lemma maybeRenameNode_plain rename ast p alias parent grandparent :
  ancestor ast p 1 = Ok parent -> ancestor ast p 2 = Ok grandparent ->
  doNotRename parent grandparent p = false ->
  check ExportSpecifier parent = false ->
  maybeRenameNode rename ast p alias
  = Ok (updateNode (setName alias) (afterShorthand ast parent grandparent p) p).
Proof.
  intros Hp Hg. unfold maybeRenameNode. rewrite Hp, Hg. simpl.
  unfold doNotRename, afterShorthand, check.
  destruct (type parent) eqn:Tp; destruct (type grandparent) eqn:Tg; simpl;
    repeat match goal with
           | |- context [isField parent ?F p] => destruct (isField parent F p) eqn:?
           end; simpl; intros H H'; try discriminate; reflexivity.
Qed.

Lemma getNode_afterShorthand_some ast parent grandparent p n :
  getNode ast p = Some n -> getNode (afterShorthand ast parent grandparent p) p <> None.
Proof.
  intros H.
  destruct (shape_getNode_some _ _ (skeleton_afterShorthand ast parent grandparent p)
                               _ _ H) as (n' & -> & _). discriminate.
Qed.

(** C10: an occurrence that is the property part of a member access is left
    unrenamed also when the member access is computed ([obj[origName]]): the
    member-expression branch never reads the [computed] flag, so the call
    returns with the tree unchanged exactly as for [obj.origName]. *)
Theorem maybeRenameNode_member_property_computed
    (fuel : nat) (ast : Node) (p : Path) (alias : string)
    (n parent grandparent : Node) :
  getNode ast p = Some n ->
  ancestor ast p 1 = Ok parent ->
  ancestor ast p 2 = Ok grandparent ->
  check MemberExpression parent = true ->
  isField parent f_property p = true ->
  computed parent = true ->
  maybeRenameNode (renameIdentifiers fuel) ast p alias = Ok ast /\
  nameAt ast p = Some (name n).
Proof.
  intros Hn Hp Hg Hm Hf _. split.
  - apply maybeRenameNode_exempt with parent grandparent; auto.
    unfold doNotRename. rewrite Hm, Hf. simpl. apply orb_true_r.
  - unfold nameAt. now rewrite Hn.
Qed.

(** The statement at [const v = obj[getStaticProps];]. *)
Lemma maybeRenameNode_member_property_computed_witness :
  maybeRenameNode (renameIdentifiers 2) computedAccess [0;0;0;1;1] "_getStaticProps"
  = Ok computedAccess /\
  nameAt computedAccess [0;0;0;1;1] = Some (name (ident f_property "getStaticProps")).
Proof.
  apply (maybeRenameNode_member_property_computed 2 computedAccess [0;0;0;1;1]
           "_getStaticProps" (ident f_property "getStaticProps")
           computedMember computedDeclarator); reflexivity.
Defined.

(** ** A pass of the renamer *)

Lemma getNode_updateNode_at (f : Node -> Node) : forall p t,
  getNode (updateNode f t p) p = option_map f (getNode t p).
Proof.
  induction p as [|i p IH]; intros t; simpl; [reflexivity|].
  rewrite nth_error_updNth, Nat.eqb_refl.
  destruct (nth_error (kids t) i) as [c|]; simpl; [apply IH | reflexivity].
Qed.

Lemma nameAt_setName (a : string) (t : Node) (p q : Path) :
  nameAt (updateNode (setName a) t p) q = nameAt t q \/
  nameAt (updateNode (setName a) t p) q = Some a.
Proof.
  destruct (list_eq_dec Nat.eq_dec q p) as [-> | Hne].
  - unfold nameAt. rewrite getNode_updateNode_at.
    destruct (getNode t p); simpl; auto.
  - left. now apply nameAt_setName_other.
Qed.

Lemma renamedTo_refl (A : string) (t : Node) : renamedTo A t t.
Proof. split; auto. Qed.

Lemma renamedTo_trans (A : string) (a b c : Node) :
  renamedTo A a b -> renamedTo A b c -> renamedTo A a c.
Proof.
  intros [Hs1 Hn1] [Hs2 Hn2]. split; [congruence|].
  intros p. destruct (Hn2 p) as [-> | ->]; auto.
Qed.

Lemma renamedTo_afterShorthand A ast parent grandparent p :
  renamedTo A ast (afterShorthand ast parent grandparent p).
Proof.
  split; [apply skeleton_afterShorthand|]. intros q. left.
  unfold afterShorthand. destruct (_ && _); [apply nameAt_setShorthand | reflexivity].
Qed.

Lemma renamedTo_setName A t p : renamedTo A t (updateNode (setName A) t p).
Proof.
  split; [apply skeleton_updateNode, skeleton_setName | intros q; apply nameAt_setName].
Qed.

Lemma maybeRenameNode_renamedTo rename ast p A ast' :
  (forall t X t' r, rename t X (Some A) = Ok (t', r) -> renamedTo A t t') ->
  maybeRenameNode rename ast p A = Ok ast' -> renamedTo A ast ast'.
Proof.
  intros Hr H. apply maybeRenameNode_inv in H.
  destruct H as (parent & grandparent & _ & _ & [[_ ->] | [_ (ast3 & H3 & ->)]]);
    [apply renamedTo_refl|].
  eapply renamedTo_trans; [|apply renamedTo_setName].
  destruct H3 as [[_ ->] | [_ (r & Hren)]].
  - apply renamedTo_afterShorthand.
  - eapply renamedTo_trans; [apply renamedTo_afterShorthand | eapply Hr; eauto].
Qed.

Lemma orElse_some (A b : string) : A <> "" -> orElse (Some A) b = A.
Proof.
  intros H. unfold orElse. destruct (String.eqb A "") eqn:E; [|reflexivity].
  apply String.eqb_eq in E. congruence.
Qed.

Lemma findAvailibleAlias_nonempty (t : Node) (s : string) : findAvailibleAlias t s <> "".
Proof.
  destruct (findAvailibleAlias_spec t s) as (k & _ & -> & Hk & _).
  destruct k; [lia | discriminate].
Qed.

Lemma orElse_nonempty (newName : option string) (t : Node) (s : string) :
  orElse newName (findAvailibleAlias t s) <> "".
Proof.
  unfold orElse. destruct newName as [a|]; [|apply findAvailibleAlias_nonempty].
  destruct (String.eqb a "") eqn:E; [apply findAvailibleAlias_nonempty|].
  intros ->. discriminate.
Qed.

Lemma renameIdentifiers_S (fuel : nat) (ast : Node) (X : string) (newName : option string) :
  renameIdentifiers (S fuel) ast X newName
  = if Nat.ltb 0 (List.length (findIdentifiers ast X)) then
      ast' <-- forEach (fun t nodePath =>
                          maybeRenameNode (renameIdentifiers fuel) t nodePath
                                          (orElse newName (findAvailibleAlias ast X)))
                       (findIdentifiers ast X) ast ;;
      Ok (ast', Some (orElse newName (findAvailibleAlias ast X)))
    else Ok (ast, None).
Proof. reflexivity. Qed.

(** Every run of the renamer with alias [A] only replaces names by [A]. *)
Lemma renameIdentifiers_renamedTo (A : string) (HA : A <> "") :
  forall fuel ast X ast' r,
    renameIdentifiers fuel ast X (Some A) = Ok (ast', r) -> renamedTo A ast ast'.
Proof.
  induction fuel as [|fuel IH]; intros ast X ast' r H; [discriminate|].
  rewrite renameIdentifiers_S in H.
  destruct (Nat.ltb 0 (List.length (findIdentifiers ast X))).
  - rewrite !orElse_some in H by exact HA.
    match type of H with
    | (_ <-- ?m ;; _) = _ => destruct m as [t1| |] eqn:E; simpl in H; try discriminate
    end.
    injection H as <- _. revert E.
    apply forEach_invariant with (R := renamedTo A).
    + apply renamedTo_refl.
    + apply renamedTo_trans.
    + intros t p t' _ Hstep. eapply maybeRenameNode_renamedTo; [|exact Hstep].
      intros. eapply IH; eauto.
  - injection H as <- _. apply renamedTo_refl.
Qed.

(** A call without a usable [newName] is the call with the alias it picks. *)
Lemma renameIdentifiers_alias (fuel : nat) (ast : Node) (X : string)
    (newName : option string) :
  renameIdentifiers fuel ast X newName
  = renameIdentifiers fuel ast X (Some (orElse newName (findAvailibleAlias ast X))).
Proof.
  destruct fuel as [|fuel]; [reflexivity|]. rewrite !renameIdentifiers_S.
  rewrite !(orElse_some (orElse newName _)) by apply orElse_nonempty. reflexivity.
Qed.

Lemma renamable_shape (t t' : Node) (p : Path) :
  skeleton t' = skeleton t -> renamable t' p = renamable t p.
Proof.
  intros Hs. unfold renamable.
  destruct (ancestor t p 1) as [a| |] eqn:E1.
  - destruct (ancestor_shape _ _ _ _ _ Hs E1) as (a' & -> & Ha).
    destruct (ancestor t p 2) as [g| |] eqn:E2.
    + destruct (ancestor_shape _ _ _ _ _ Hs E2) as (g' & -> & Hg).
      now rewrite (doNotRename_skeleton _ _ _ _ p Ha Hg).
    + destruct (ancestor t' p 2) as [g'| |] eqn:E2'; auto.
      destruct (ancestor_shape _ _ _ _ _ (eq_sym Hs) E2') as (? & ? & _). congruence.
    + destruct (ancestor t' p 2) as [g'| |] eqn:E2'; auto.
      destruct (ancestor_shape _ _ _ _ _ (eq_sym Hs) E2') as (? & ? & _). congruence.
  - destruct (ancestor t' p 1) as [a'| |] eqn:E1'; auto.
    destruct (ancestor_shape _ _ _ _ _ (eq_sym Hs) E1') as (? & ? & _). congruence.
  - destruct (ancestor t' p 1) as [a'| |] eqn:E1'; auto.
    destruct (ancestor_shape _ _ _ _ _ (eq_sym Hs) E1') as (? & ? & _). congruence.
Qed.

Lemma ancestor_never_timeout (t : Node) (p : Path) (k : nat) : ancestor t p k <> Timeout.
Proof. unfold ancestor. destruct (Nat.ltb _ _); [discriminate|]. now destruct (getNode _ _). Qed.

(** A step on a renamable occurrence leaves it named by the alias. *)
Lemma maybeRenameNode_renames rename ast p A ast' :
  (forall t X t' r, rename t X (Some A) = Ok (t', r) -> renamedTo A t t') ->
  getNode ast p <> None ->
  renamable ast p = true ->
  maybeRenameNode rename ast p A = Ok ast' -> nameAt ast' p = Some A.
Proof.
  intros Hr Hn Hren H. apply maybeRenameNode_inv in H.
  destruct H as (parent & grandparent & Hp & Hg & H).
  unfold renamable in Hren. rewrite Hp, Hg in Hren.
  destruct H as [[Hd _] | [_ (ast3 & H3 & ->)]];
    [rewrite Hd in Hren; discriminate|].
  apply nameAt_setName_same.
  assert (Hs : renamedTo A ast ast3).
  { destruct H3 as [[_ ->] | [_ (r & Hcall)]].
    - apply renamedTo_afterShorthand.
    - eapply renamedTo_trans; [apply renamedTo_afterShorthand | eapply Hr; eauto]. }
  destruct (getNode ast p) as [n|] eqn:E; [|congruence].
  destruct (shape_getNode_some _ _ (proj1 Hs) _ _ E) as (n' & -> & _). discriminate.
Qed.

Lemma renamedTo_keeps (A : string) (t t' : Node) (p : Path) :
  renamedTo A t t' -> nameAt t p = Some A -> nameAt t' p = Some A.
Proof. intros [_ H] Hp. destruct (H p) as [-> | ->]; auto. Qed.

(** After a whole [forEach] of the renamer, every renamable path of the list
    is named by the alias. *)
Lemma forEach_renames rename A :
  (forall t X t' r, rename t X (Some A) = Ok (t', r) -> renamedTo A t t') ->
  forall ps ast ast',
    forEach (fun t nodePath => maybeRenameNode rename t nodePath A) ps ast = Ok ast' ->
    renamedTo A ast ast' /\
    forall p, In p ps -> getNode ast p <> None -> renamable ast p = true ->
              nameAt ast' p = Some A.
Proof.
  intros Hr. induction ps as [|q ps IH]; intros ast ast' H; simpl in H.
  - injection H as <-. split; [apply renamedTo_refl | intros p []].
  - destruct (maybeRenameNode rename ast q A) as [t1| |] eqn:E; simpl in H;
      try discriminate.
    pose proof (maybeRenameNode_renamedTo _ _ _ _ _ Hr E) as H1.
    destruct (IH _ _ H) as [H2 Hall].
    split; [eapply renamedTo_trans; eauto|].
    intros p [-> | Hin] Hn Hren.
    + eapply renamedTo_keeps; [exact H2|].
      eapply maybeRenameNode_renames; eauto.
    + apply Hall; auto.
      * destruct (getNode ast p) as [n|] eqn:En; [|congruence].
        destruct (shape_getNode_some _ _ (proj1 H1) _ _ En) as (n' & -> & _).
        discriminate.
      * now rewrite (renamable_shape _ _ p (proj1 H1)).
Qed.

(** Pass completeness: a run that returns has renamed every renamable
    identifier that carried the name when the run started. *)
Lemma renameIdentifiers_complete (A : string) (HA : A <> "") :
  forall fuel ast X ast' r,
    renameIdentifiers fuel ast X (Some A) = Ok (ast', r) ->
    forall p, p <> [] -> identifierAt ast p X -> renamable ast p = true ->
              nameAt ast' p = Some A.
Proof.
  intros fuel ast X ast' r H p Hne Hid Hren.
  destruct fuel as [|fuel]; [discriminate|]. rewrite renameIdentifiers_S in H.
  assert (Hin : In p (findIdentifiers ast X)).
  { apply in_findIdentifiers. split; [exact Hne | exact Hid]. }
  destruct (Nat.ltb 0 (List.length (findIdentifiers ast X))) eqn:El.
  - rewrite !orElse_some in H by exact HA.
    match type of H with
    | (_ <-- ?m ;; _) = _ => destruct m as [t1| |] eqn:E; simpl in H; try discriminate
    end.
    injection H as <- _.
    eapply forEach_renames in E; [|intros; eapply renameIdentifiers_renamedTo; eauto].
    apply (proj2 E); auto.
    destruct Hid as (n & -> & _). discriminate.
  - apply Nat.ltb_ge in El. destruct (findIdentifiers ast X); [destruct Hin|].
    simpl in El. lia.
Qed.

(** ** Export specifiers: the re-entry for the local name *)

Lemma getNode_app : forall p q t,
  getNode t (p ++ q) = match getNode t p with
                       | Some n => getNode n q
                       | None => None
                       end.
Proof.
  induction p as [|i p IH]; intros q t; simpl; [reflexivity|].
  destruct (nth_error (kids t) i); [apply IH | reflexivity].
Qed.

Lemma ancestor_child (t : Node) (sp : Path) (i : nat) (n : Node) :
  getNode t sp = Some n -> ancestor t (sp ++ [i]) 1 = Ok n.
Proof.
  intros H. unfold ancestor. rewrite length_app. simpl.
  replace (Nat.ltb (List.length sp + 1) 1) with false
    by (symmetry; apply Nat.ltb_ge; lia).
  replace (List.length sp + 1 - 1) with (List.length sp + 0) by lia.
  rewrite firstn_app_2. simpl. rewrite app_nil_r, H. reflexivity.
Qed.

Lemma getNode_prefix : forall p q t n,
  getNode t (p ++ q) = Some n -> exists m, getNode t p = Some m.
Proof.
  intros p q t n H. rewrite getNode_app in H.
  destruct (getNode t p) as [m|]; [eauto | discriminate].
Qed.

Lemma ancestor_grandchild (t : Node) (sp : Path) (i : nat) (n : Node) :
  sp <> [] -> getNode t sp = Some n -> exists g, ancestor t (sp ++ [i]) 2 = Ok g.
Proof.
  intros Hne H. unfold ancestor. rewrite length_app. simpl.
  destruct sp as [|j sp'] using rev_ind; [congruence|]. clear IHsp'.
  rewrite length_app. simpl.
  replace (Nat.ltb (List.length sp' + 1 + 1) 2) with false
    by (symmetry; apply Nat.ltb_ge; lia).
  replace (List.length sp' + 1 + 1 - 2) with (List.length sp' + 0) by lia.
  rewrite <- app_assoc, firstn_app_2. simpl. rewrite app_nil_r.
  destruct (getNode_prefix _ _ _ _ H) as (m & ->). eauto.
Qed.

Lemma fieldIndexFrom_bound (F : Field) : forall l i k,
  fieldIndexFrom i F l = Some k -> i <= k /\ k - i < List.length l.
Proof.
  induction l as [|c l IH]; intros i k H; simpl in H; [discriminate|].
  destruct (Field_eqb F (slot c)).
  - injection H as <-. simpl. lia.
  - apply IH in H. simpl. lia.
Qed.


Lemma isField_child (spec : Node) (F : Field) (sp : Path) (i : nat) :
  fieldIndex spec F = Some i -> isField spec F (sp ++ [i]) = true.
Proof.
  intros H. unfold isField. rewrite H.
  destruct (sp ++ [i]) eqn:E; [now destruct sp|].
  rewrite <- E, last_last. apply Nat.eqb_refl.
Qed.

Lemma isField_other (spec : Node) (F G : Field) (sp : Path) (i j : nat) :
  fieldIndex spec F = Some i -> fieldIndex spec G = Some j -> i <> j ->
  isField spec F (sp ++ [j]) = false.
Proof.
  intros Hi Hj Hne. unfold isField. rewrite Hi.
  destruct (sp ++ [j]) eqn:E; [reflexivity|].
  rewrite <- E, last_last. now apply Nat.eqb_neq.
Qed.

(** A child of an export specifier is in no do-not-rename context. *)
Lemma renamable_export_child (t : Node) (sp : Path) (spec : Node) (i : nat) :
  sp <> [] -> getNode t sp = Some spec -> check ExportSpecifier spec = true ->
  renamable t (sp ++ [i]) = true.
Proof.
  intros Hne Hs Hc. unfold renamable.
  rewrite (ancestor_child _ _ i _ Hs).
  destruct (ancestor_grandchild _ _ i _ Hne Hs) as (g & ->).
  unfold doNotRename, check in *. apply NodeType_eqb_spec in Hc. rewrite <- Hc.
  reflexivity.
Qed.


Section ExportAlias.
Variables (A L : string) (ast0 : Node) (lp : Path).
Hypothesis HA : A <> "".
Hypothesis HLA : L <> A.

Local Abbreviation AllDone := (allRenamed A L ast0).
Local Abbreviation J := (aliasInvariant A L ast0 lp).





Lemma orElse_empty (s : string) : orElse (Some s) "" = s.
Proof.
  unfold orElse. destruct (String.eqb s "") eqn:E; [|reflexivity].
  apply String.eqb_eq in E. now subst.
Qed.

(** The specifier [local as exported], with [exported] named [N] and
    [local] named [L] in [ast0]. *)
Variables (N : string) (sp : Path) (spec : Node) (e l : nat).
Hypothesis Hsp : sp <> [].
Hypothesis Hspec : getNode ast0 sp = Some spec.
Hypothesis Hcheck : check ExportSpecifier spec = true.
Hypothesis He : fieldIndex spec f_exported = Some e.
Hypothesis Hl : fieldIndex spec f_local = Some l.
Hypothesis Hexported : identifierAt ast0 (sp ++ [e]) N.
Hypothesis Hlocal : identifierAt ast0 (sp ++ [l]) L.
Hypothesis Hlp : lp = sp ++ [l].
Hypothesis HLN : L <> N.



End ExportAlias.

Lemma renameIdentifiers_returns_alias (fuel : nat) (ast : Node) (X A : string)
    (ast' : Node) (r : option string) (p : Path) :
  A <> "" -> In p (findIdentifiers ast X) ->
  renameIdentifiers fuel ast X (Some A) = Ok (ast', r) -> r = Some A.
Proof.
  intros HA Hin H. destruct fuel as [|fuel]; [discriminate|].
  rewrite renameIdentifiers_S in H.
  destruct (Nat.ltb 0 (List.length (findIdentifiers ast X))) eqn:El.
  - rewrite !orElse_some in H by exact HA.
    match type of H with
    | (_ <-- ?m ;; _) = _ => destruct m as [t1| |]; simpl in H; try discriminate
    end.
    now injection H as _ <-.
  - apply Nat.ltb_ge in El. destruct (findIdentifiers ast X); [destruct Hin|].
    simpl in El. lia.
Qed.

(** ** The loader *)

Lemma registryOk_inv (r : Registry) :
  registryOk r ->
  exists a1 a2 a3,
    r = [ ("getServerSideProps", mkTracked "__ORIG_GSSP__" a1);
          ("getStaticProps", mkTracked "__ORIG_GSPROPS__" a2);
          ("getStaticPaths", mkTracked "__ORIG_GSPATHS__" a3) ].
Proof.
  unfold registryOk. simpl. intros H.
  destruct r as [|[k1 [p1 a1]] [|[k2 [p2 a2]] [|[k3 [p3 a3]] [|? ?]]]];
    simpl in H; try discriminate.
  injection H as -> -> -> -> -> ->. eauto.
Qed.

Lemma registryOk_keys (r : Registry) :
  registryOk r -> keys r = keys DATA_FETCHING_FUNCTIONS.
Proof. intros H. destruct (registryOk_inv r H) as (a1 & a2 & a3 & ->). reflexivity. Qed.

Lemma registryOk_setAlias (n a : string) (r : Registry) :
  registryOk r -> registryOk (setAlias n a r).
Proof.
  unfold registryOk, setAlias. intros <-. rewrite map_map. apply map_ext.
  intros [k tf]. simpl. now destruct (String.eqb k n).
Qed.

Lemma fillPlaceholders_empty (r : Registry) :
  registryOk r -> fillPlaceholders r "" = "".
Proof. intros H. destruct (registryOk_inv r H) as (a1 & a2 & a3 & ->). reflexivity. Qed.

(** C8: when none of the three tracked names occurs as a substring of the
    user text, the loader returns the user text unchanged and leaves the
    world as it was: no parser call is recorded (nor a warning, nor a
    dependency). *)
Theorem wrapDataFetchersLoader_prefilter
    (env : Env) (projectDir resourcePath userCode : string) (w : World) :
  registryOk (registry w) ->
  includes "getServerSideProps" userCode = false ->
  includes "getStaticProps" userCode = false ->
  includes "getStaticPaths" userCode = false ->
  wrapDataFetchersLoader env projectDir resourcePath userCode w = (userCode, w) /\
  parseCalls (snd (wrapDataFetchersLoader env projectDir resourcePath userCode w))
  = parseCalls w.
Proof.
  intros Hr H1 H2 H3.
  assert (E : wrapDataFetchersLoader env projectDir resourcePath userCode w
              = (userCode, w)).
  { unfold wrapDataFetchersLoader. destruct (negb (isESM env userCode)); [reflexivity|].
    rewrite (registryOk_keys _ Hr). simpl. rewrite H1, H2, H3. reflexivity. }
  rewrite E. split; reflexivity.
Qed.

(** The fallback on a parse error: the loader returns the user text followed
    by the separator and the (empty) template, and logs one warning. *)
Lemma wrapDataFetchersLoader_parse_error
    (env : Env) (projectDir resourcePath userCode err : string) (w : World) :
  registryOk (registry w) ->
  isESM env userCode = true ->
  forallb (fun functionName => negb (includes functionName userCode))
          (keys DATA_FETCHING_FUNCTIONS) = false ->
  parse env (isTSPath (relative env projectDir resourcePath)) userCode = inl err ->
  let out := wrapDataFetchersLoader env projectDir resourcePath userCode w in
  fst out = (userCode ++ newline)%string /\
  warnings (snd out)
  = warnings w ++ [parseWarning (relative env projectDir resourcePath) err] /\
  registry (snd out) = registry w.
Proof.
  intros Hr Hesm Hpre Hparse. unfold wrapDataFetchersLoader.
  rewrite Hesm, (registryOk_keys _ Hr), Hpre. simpl negb. cbv iota.
  unfold wrapFunctions, makeAST. rewrite Hparse. simpl.
  rewrite (fillPlaceholders_empty _ Hr). repeat split.
Qed.

Lemma append_length (s t : string) :
  String.length (s ++ t) = String.length s + String.length t.
Proof. induction s as [|c s IH]; simpl; [reflexivity | now rewrite IH]. Qed.

Lemma append_newline_neq (s : string) : (s ++ newline)%string <> s.
Proof.
  intros H. apply (f_equal String.length) in H.
  rewrite append_length in H. simpl in H. lia.
Qed.

(** C3 (what the code does): for every input text that passes the ESM gate
    and the substring pre-filter but fails to parse, the loader logs exactly
    one warning and returns the input text followed by a newline (the
    separator in front of the emptied template), which is not the input
    text byte for byte. *)
Theorem wrapDataFetchersLoader_fallback
    (env : Env) (projectDir resourcePath userCode err : string) (w : World) :
  registryOk (registry w) ->
  isESM env userCode = true ->
  forallb (fun functionName => negb (includes functionName userCode))
          (keys DATA_FETCHING_FUNCTIONS) = false ->
  parse env (isTSPath (relative env projectDir resourcePath)) userCode = inl err ->
  let out := wrapDataFetchersLoader env projectDir resourcePath userCode w in
  fst out = (userCode ++ newline)%string /\
  fst out <> userCode /\
  warnings (snd out)
  = warnings w ++ [parseWarning (relative env projectDir resourcePath) err].
Proof.
  intros Hr Hesm Hpre Hparse out.
  destruct (wrapDataFetchersLoader_parse_error env projectDir resourcePath userCode err w
              Hr Hesm Hpre Hparse) as (H1 & H2 & _).
  fold out in H1, H2. split; [exact H1|]. split; [|exact H2].
  rewrite H1. apply append_newline_neq.
Qed.

(** The fallback on [export const getStaticProps = ;]. *)
Lemma wrapDataFetchersLoader_fallback_witness :
  let out := wrapDataFetchersLoader (sampleEnv (printNode templateTree))
               "/proj" "/proj/pages/index.js" brokenText initialWorld in
  fst out = (brokenText ++ newline)%string /\
  fst out <> brokenText /\
  warnings (snd out)
  = warnings initialWorld
    ++ [parseWarning (relative (sampleEnv (printNode templateTree))
                               "/proj" "/proj/pages/index.js")
                     "SyntaxError: Unexpected token"].
Proof.
  apply (wrapDataFetchersLoader_fallback (sampleEnv (printNode templateTree))
           "/proj" "/proj/pages/index.js" brokenText
           "SyntaxError: Unexpected token" initialWorld); reflexivity.
Defined.

(** The pre-filter on [export default function Page() {}]. *)
Lemma wrapDataFetchersLoader_prefilter_witness :
  wrapDataFetchersLoader (sampleEnv (printNode templateTree))
    "/proj" "/proj/pages/index.js" plainText initialWorld = (plainText, initialWorld) /\
  parseCalls (snd (wrapDataFetchersLoader (sampleEnv (printNode templateTree))
                     "/proj" "/proj/pages/index.js" plainText initialWorld))
  = parseCalls initialWorld.
Proof.
  apply (wrapDataFetchersLoader_prefilter (sampleEnv (printNode templateTree))
           "/proj" "/proj/pages/index.js" plainText initialWorld); reflexivity.
Defined.

(** *** Aliases left in the registry by earlier runs *)

Lemma replace_absent (pat rep : string) : forall s,
  includes pat s = false -> replace pat rep s = s.
Proof.
  induction s as [|c s IH]; simpl; intros H.
  - apply orb_false_iff in H. destruct H as [-> _]. reflexivity.
  - apply orb_false_iff in H. destruct H as [-> H]. now rewrite IH.
Qed.

Lemma agreeOn_refl_fresh (r : Registry) :
  registryOk r -> agreeOn [] DATA_FETCHING_FUNCTIONS r.
Proof.
  intros H. destruct (registryOk_inv r H) as (a1 & a2 & a3 & ->).
  unfold agreeOn, DATA_FETCHING_FUNCTIONS.
  repeat constructor; simpl; intros [].
Qed.

Lemma agreeOn_setAlias (found : list string) (n a : string) (r1 r2 : Registry) :
  agreeOn found r1 r2 -> agreeOn (n :: found) (setAlias n a r1) (setAlias n a r2).
Proof.
  unfold agreeOn, setAlias. induction 1 as [|e1 e2 r1 r2 (Hk & Hp & Ha) _ IH]; simpl;
    constructor; [|exact IH].
  rewrite <- Hk. destruct (String.eqb (fst e1) n) eqn:E; simpl.
  - repeat split; auto.
  - repeat split; auto. intros [Hn | Hin]; [|auto].
    apply String.eqb_neq in E. congruence.
Qed.

Lemma agreeOn_weaken (found found' : list string) (r1 r2 : Registry) :
  (forall n, In n found' -> In n found) -> agreeOn found r1 r2 -> agreeOn found' r1 r2.
Proof.
  intros Hsub. unfold agreeOn. induction 1 as [|e1 e2 r1 r2 (Hk & Hp & Ha) _ IH];
    constructor; [|exact IH]. repeat split; auto.
Qed.

(** The loop of [wrapFunctions] treats the two trees alike whatever the
    aliases in the registry, and leaves registries that agree on the names
    it found. *)
Lemma wrapStep_fold_agree : forall names userAST templateAST found r1 r2,
  agreeOn found r1 r2 ->
  let '(u1, t1, r1') := fold_left wrapStep names (userAST, templateAST, r1) in
  let '(u2, t2, r2') := fold_left wrapStep names (userAST, templateAST, r2) in
  u1 = u2 /\ t1 = t2 /\ agreeOn (rev (foundNames userAST names) ++ found) r1' r2'.
Proof.
  induction names as [|n names IH]; intros userAST templateAST found r1 r2 H; simpl.
  - auto.
  - destruct (Nat.ltb 0 (List.length (findIdentifiers userAST n))).
    + specialize (IH (renameAll (findAvailibleAlias userAST n)
                                (findIdentifiers userAST n) userAST)
                     templateAST (n :: found) _ _
                     (agreeOn_setAlias found n (findAvailibleAlias userAST n) _ _ H)).
      simpl. rewrite <- app_assoc. exact IH.
    + apply IH. exact H.
Qed.

Lemma fillPlaceholders_agree (found : list string) : forall r0 r code,
  agreeOn found r0 r ->
  staleAbsent found r0 code = true ->
  fillPlaceholders r code = fillPlaceholders r0 code.
Proof.
  unfold agreeOn, fillPlaceholders, values.
  intros r0 r code H. revert code.
  induction H as [|e0 e r0 r (Hk & Hp & Ha) _ IH]; intros code Hs; simpl in *;
    [reflexivity|].
  destruct (existsb (String.eqb (fst e0)) found) eqn:E.
  - apply existsb_exists in E. destruct E as (x & Hx & Ex).
    apply String.eqb_eq in Ex. subst x.
    rewrite <- Hp, <- (Ha Hx). apply IH. exact Hs.
  - apply andb_true_iff in Hs. destruct Hs as [Hinc Hs].
    apply negb_true_iff in Hinc.
    rewrite (replace_absent _ _ _ Hinc).
    rewrite <- Hp, (replace_absent _ _ _ Hinc). apply IH. exact Hs.
Qed.

Lemma wrapDataFetchersLoader_as_fresh
    (env : Env) (projectDir resourcePath userCode : string) (w : World) :
  registryOk (registry w) ->
  stalePlaceholdersAbsent env projectDir resourcePath userCode = true ->
  fst (wrapDataFetchersLoader env projectDir resourcePath userCode w)
  = fst (wrapDataFetchersLoader env projectDir resourcePath userCode initialWorld).
Proof.
  intros Hr Hstale. unfold wrapDataFetchersLoader.
  destruct (negb (isESM env userCode)); [reflexivity|].
  rewrite (registryOk_keys _ Hr).
  change (keys (registry initialWorld)) with (keys DATA_FETCHING_FUNCTIONS).
  destruct (forallb _ (keys DATA_FETCHING_FUNCTIONS)); [reflexivity|].
  unfold wrapFunctions, makeAST, stalePlaceholdersAbsent in *. simpl registry.
  destruct (parse env (isTSPath (relative env projectDir resourcePath)) userCode)
    as [err | userAST].
  { simpl. now rewrite (fillPlaceholders_empty _ Hr). }
  destruct (parse env false (readFileSync env (templatePath env)))
    as [err | templateAST].
  { simpl. now rewrite (fillPlaceholders_empty _ Hr). }
  rewrite (registryOk_keys _ Hr).
  pose proof (wrapStep_fold_agree (keys DATA_FETCHING_FUNCTIONS) userAST
                (removeComments templateAST) [] DATA_FETCHING_FUNCTIONS (registry w)
                (agreeOn_refl_fresh _ Hr)) as Hfold.
  destruct (fold_left wrapStep (keys DATA_FETCHING_FUNCTIONS)
                      (userAST, removeComments templateAST, DATA_FETCHING_FUNCTIONS))
    as [[u0 t0] r0].
  destruct (fold_left wrapStep (keys DATA_FETCHING_FUNCTIONS)
                      (userAST, removeComments templateAST, registry w))
    as [[u1 t1] r1].
  destruct Hfold as (<- & <- & Hagree). simpl.
  f_equal. f_equal.
  apply fillPlaceholders_agree
    with (found := foundNames userAST (keys DATA_FETCHING_FUNCTIONS)); [|exact Hstale].
  eapply agreeOn_weaken; [|exact Hagree].
  intros n Hn. rewrite app_nil_r. now apply in_rev in Hn.
Qed.

(** C2 (amended): the registry is one module-level object that keeps the
    aliases of earlier runs, but they do not reach the output as long as no
    placeholder of a name that was not found is left in the rendered
    template when the placeholders are filled in: then two runs of the
    loader on the same inputs return the same text whatever registries the
    runs before them left behind. *)
Theorem wrapDataFetchersLoader_history_independent
    (env : Env) (projectDir resourcePath userCode : string) (w1 w2 : World) :
  registryOk (registry w1) ->
  registryOk (registry w2) ->
  stalePlaceholdersAbsent env projectDir resourcePath userCode = true ->
  fst (wrapDataFetchersLoader env projectDir resourcePath userCode w1)
  = fst (wrapDataFetchersLoader env projectDir resourcePath userCode w2).
Proof.
  intros H1 H2 Hs.
  rewrite (wrapDataFetchersLoader_as_fresh env _ _ _ w1 H1 Hs).
  rewrite (wrapDataFetchersLoader_as_fresh env _ _ _ w2 H2 Hs). reflexivity.
Qed.

(** Every run leaves a registry that differs from the initial one in its
    aliases only. *)
Lemma wrapStep_fold_registryOk : forall names userAST templateAST r,
  registryOk r ->
  registryOk (snd (fold_left wrapStep names (userAST, templateAST, r))).
Proof.
  induction names as [|n names IH]; intros userAST templateAST r H; simpl; [exact H|].
  destruct (Nat.ltb 0 (List.length (findIdentifiers userAST n))).
  - apply IH. now apply registryOk_setAlias.
  - apply IH. exact H.
Qed.

Lemma wrapDataFetchersLoader_registryOk
    (env : Env) (projectDir resourcePath userCode : string) (w : World) :
  registryOk (registry w) ->
  registryOk (registry (snd (wrapDataFetchersLoader env projectDir resourcePath
                                                    userCode w))).
Proof.
  intros Hr. unfold wrapDataFetchersLoader.
  destruct (negb (isESM env userCode)); [exact Hr|].
  destruct (forallb _ _); [exact Hr|].
  unfold wrapFunctions, makeAST. simpl registry.
  destruct (parse env _ userCode) as [err | userAST]; [exact Hr|].
  destruct (parse env false _) as [err | templateAST]; [exact Hr|].
  pose proof (wrapStep_fold_registryOk (keys (registry w)) userAST
                (removeComments templateAST) (registry w) Hr) as H.
  destruct (fold_left wrapStep _ _) as [[u t] r]. exact H.
Qed.

(** With the template of the contract, a run on a page with
    [getStaticProps] gives the same text after a run on a page with
    [getServerSideProps] as it gives first. *)
Lemma wrapDataFetchersLoader_history_independent_witness :
  fst (wrapDataFetchersLoader (sampleEnv (printNode templateTree))
         "/proj" "/proj/pages/about.js" pageWithGSP
         (afterFirstRun (sampleEnv (printNode templateTree))))
  = fst (wrapDataFetchersLoader (sampleEnv (printNode templateTree))
           "/proj" "/proj/pages/about.js" pageWithGSP initialWorld).
Proof.
  apply (wrapDataFetchersLoader_history_independent
           (sampleEnv (printNode templateTree))
           "/proj" "/proj/pages/about.js" pageWithGSP
           (afterFirstRun (sampleEnv (printNode templateTree))) initialWorld).
  - vm_compute. reflexivity.
  - reflexivity.
  - vm_compute. reflexivity.
Defined.

(** C2 as stated fails: the registry is not created per run.  After a run
    on a page with [getServerSideProps] it holds the alias
    [_getServerSideProps], and with a template that mentions
    [__ORIG_GSSP__] outside the declaration of its wrapper, a run on a page
    with [getStaticProps] returns another text after that run than it
    returns as the first run: the same user text, options and template text,
    two outputs. *)
Lemma wrapDataFetchersLoader_history_counterexample :
  registry (afterFirstRun (sampleEnv (printNode strayTemplateTree)))
  = setAlias "getServerSideProps" "_getServerSideProps" DATA_FETCHING_FUNCTIONS /\
  fst (wrapDataFetchersLoader (sampleEnv (printNode strayTemplateTree))
         "/proj" "/proj/pages/about.js" pageWithGSP
         (afterFirstRun (sampleEnv (printNode strayTemplateTree))))
  = (printNode (exportedFunction "_getStaticProps") ++ newline
     ++ "const getStaticProps = Sentry.withSentryGSProps(_getStaticProps);" ++ newline
     ++ "export { getStaticProps };" ++ newline
     ++ "Sentry.debug(_getServerSideProps);")%string /\
  fst (wrapDataFetchersLoader (sampleEnv (printNode strayTemplateTree))
         "/proj" "/proj/pages/about.js" pageWithGSP initialWorld)
  = (printNode (exportedFunction "_getStaticProps") ++ newline
     ++ "const getStaticProps = Sentry.withSentryGSProps(_getStaticProps);" ++ newline
     ++ "export { getStaticProps };" ++ newline
     ++ "Sentry.debug();")%string /\
  fst (wrapDataFetchersLoader (sampleEnv (printNode strayTemplateTree))
         "/proj" "/proj/pages/about.js" pageWithGSP
         (afterFirstRun (sampleEnv (printNode strayTemplateTree))))
  <> fst (wrapDataFetchersLoader (sampleEnv (printNode strayTemplateTree))
            "/proj" "/proj/pages/about.js" pageWithGSP initialWorld).
Proof.
  split; [vm_compute; reflexivity|].
  split; [vm_compute; reflexivity|].
  split; [vm_compute; reflexivity|].
  vm_compute. discriminate.
Qed.

(** ** Removal *)

Lemma remove_unfold (t : Node) (ps : list Path) :
  remove t ps = setKids (removeKids ps 0 (kids t)) t.
Proof.
  destruct t as [ty sl nm sh co cm ks]. simpl. unfold setKids. simpl. f_equal.
  generalize 0. induction ks as [|c ks IH]; intros i; simpl; [reflexivity|].
  now rewrite IH.
Qed.

Lemma prune_unfold (f : Node -> bool) (t : Node) :
  prune f t = setKids (pruneKids f (kids t)) t.
Proof.
  destruct t as [ty sl nm sh co cm ks]. simpl. unfold setKids. simpl. f_equal.
  induction ks as [|c ks IH]; simpl; [reflexivity|]. now rewrite IH.
Qed.

Lemma in_pathsUnder (i : nat) (ps : list Path) (q : Path) :
  In q (pathsUnder i ps) <-> In (i :: q) ps.
Proof.
  unfold pathsUnder. rewrite in_flat_map. split.
  - intros (p & Hp & Hq). destruct p as [|j p]; [destruct Hq|].
    destruct (Nat.eqb i j) eqn:E; [|destruct Hq].
    apply Nat.eqb_eq in E. subst j. destruct Hq as [<- | []]. exact Hp.
  - intros H. exists (i :: q). split; [exact H|]. rewrite Nat.eqb_refl. now left.
Qed.

Lemma existsb_isNil (l : list Path) : existsb isNil l = true <-> In [] l.
Proof.
  rewrite existsb_exists. split.
  - intros (x & Hx & Hn). destruct x; [exact Hx | discriminate].
  - intros H. exists []. auto.
Qed.

(** Removing the nodes that satisfy [f] is pruning by [f]. *)
Lemma remove_prune (f : Node -> bool) : forall t ps,
  (forall p, In p ps <-> p <> [] /\ nodeSatisfies t f p = true) ->
  remove t ps = prune f t.
Proof.
  induction t as [ty sl nm sh co cm ks IH] using Node_induction.
  intros ps Hps. rewrite remove_unfold, prune_unfold. simpl. f_equal.
  assert (Hgen : forall l i,
             Forall (fun c => forall ps',
                         (forall p, In p ps' <-> p <> [] /\ nodeSatisfies c f p = true) ->
                         remove c ps' = prune f c) l ->
             (forall j c q, nth_error l j = Some c ->
                            (In q (pathsUnder (i + j) ps) <-> nodeSatisfies c f q = true)) ->
             removeKids ps i l = pruneKids f l).
  { induction l as [|c l IHl]; intros i Hall Hq; simpl; [reflexivity|].
    inversion Hall as [|? ? Hc Hl]; subst.
    assert (Hnil : existsb isNil (pathsUnder i ps) = f c).
    { apply eq_true_iff_eq. rewrite existsb_isNil.
      specialize (Hq 0 c [] eq_refl). rewrite Nat.add_0_r in Hq. exact Hq. }
    rewrite Hnil.
    assert (Hrest : removeKids ps (S i) l = pruneKids f l).
    { apply IHl; [exact Hl|]. intros j c' q Hn.
      specialize (Hq (S j) c' q Hn). now rewrite <- Nat.add_succ_comm in Hq. }
    rewrite Hrest. destruct (f c) eqn:Ef; [reflexivity|]. f_equal.
    apply Hc. intros p. specialize (Hq 0 c p eq_refl). rewrite Nat.add_0_r in Hq.
    rewrite Hq. split; [|tauto]. intros Hs. split; [|exact Hs].
    intros ->. unfold nodeSatisfies in Hs. simpl in Hs. congruence. }
  apply Hgen; [exact IH|].
  intros j c q Hn. simpl. rewrite in_pathsUnder, Hps.
  unfold nodeSatisfies. simpl. rewrite Hn. split; [tauto|].
  intros H. split; [discriminate | exact H].
Qed.

Lemma filter_filter {A : Type} (f g : A -> bool) (l : list A) :
  filter g (filter f l) = filter (fun x => f x && g x) l.
Proof.
  induction l as [|x l IH]; simpl; [reflexivity|].
  destruct (f x); simpl; [destruct (g x); now rewrite IH | exact IH].
Qed.

Lemma in_find_filter (t : Node) (T : NodeType) (g : Node -> bool) (p : Path) :
  In p (filter (nodeSatisfies t g) (find t T)) <->
  p <> [] /\ nodeSatisfies t (fun n => check T n && g n) p = true.
Proof.
  unfold find. rewrite filter_filter, filter_In, in_descendants.
  unfold nodeSatisfies. destruct (getNode t p) as [n|]; simpl.
  - split; [tauto|]. intros [H1 H2]. repeat split; auto. discriminate.
  - split; [intros [[_ H] _]; congruence | intros [_ H]; discriminate].
Qed.

Lemma remove_findExports (t : Node) (s : string) :
  remove t (findExports t s) = prune (exportMatch s) t.
Proof. apply remove_prune. intros p. apply in_find_filter. Qed.

Lemma remove_findDeclarations (t : Node) (s : string) :
  remove t (findDeclarations t s) = prune (declarationMatch s) t.
Proof. apply remove_prune. intros p. apply in_find_filter. Qed.

Lemma deleteWrapper_prune (s : string) (t : Node) :
  deleteWrapper s t = prune (declarationMatch s) (prune (exportMatch s) t).
Proof.
  unfold deleteWrapper. now rewrite remove_findExports, remove_findDeclarations.
Qed.

Lemma pruneKids_map_filter (f : Node -> bool) (l : list Node) :
  pruneKids f l = map (prune f) (filter (fun c => negb (f c)) l).
Proof.
  induction l as [|c l IH]; simpl; [reflexivity|].
  destruct (f c); simpl; now rewrite IH.
Qed.

Lemma prune_kids (f : Node -> bool) (n : Node) :
  kids (prune f n) = map (prune f) (filter (fun c => negb (f c)) (kids n)).
Proof. rewrite prune_unfold. simpl. apply pruneKids_map_filter. Qed.

Lemma prune_type (f : Node -> bool) (n : Node) : type (prune f n) = type n.
Proof. now rewrite prune_unfold. Qed.

Lemma prune_slot (f : Node -> bool) (n : Node) : slot (prune f n) = slot n.
Proof. now rewrite prune_unfold. Qed.

Lemma prune_name (f : Node -> bool) (n : Node) : name (prune f n) = name n.
Proof. now rewrite prune_unfold. Qed.

Lemma prune_check (f : Node -> bool) (T : NodeType) (n : Node) :
  check T (prune f n) = check T n.
Proof. unfold check. now rewrite prune_type. Qed.

Lemma fieldIndexFrom_hd (F : Field) : forall l i,
  match fieldIndexFrom i F l with
  | Some k => nth_error l (k - i)
  | None => None
  end = hd_error (filter (fun c => Field_eqb F (slot c)) l).
Proof.
  induction l as [|c l IH]; intros i; simpl; [reflexivity|].
  destruct (Field_eqb F (slot c)) eqn:E; simpl.
  - now rewrite Nat.sub_diag.
  - rewrite <- (IH (S i)). destruct (fieldIndexFrom (S i) F l) as [k|] eqn:Ek;
      [|reflexivity].
    apply fieldIndexFrom_bound in Ek. destruct Ek as [Hk _].
    replace (k - i) with (S (k - S i)) by lia. reflexivity.
Qed.

Lemma field_hd (n : Node) (F : Field) : field n F = hd_error (fieldArray n F).
Proof.
  unfold field, fieldIndex, fieldArray. rewrite <- (fieldIndexFrom_hd F (kids n) 0).
  destruct (fieldIndexFrom 0 F (kids n)) as [k|]; [|reflexivity].
  now rewrite Nat.sub_0_r.
Qed.

Section Pruning.
Variable f : Node -> bool.
Hypothesis f_removable : forall c, f c = true -> removableType c = true.

Lemma wfSlots_kids (n c : Node) :
  wfSlots n = true -> In c (kids n) ->
  (filterSlot c = true -> f c = false) /\ wfSlots c = true.
Proof.
  destruct n as [ty sl nm sh co cm ks]. simpl. intros H Hin.
  rewrite forallb_forall in H. specialize (H c Hin).
  apply andb_true_iff in H. destruct H as [H1 H2]. split; [|exact H2].
  intros Hs. rewrite Hs in H1. simpl in H1. apply negb_true_iff in H1.
  destruct (f c) eqn:Ef; [|reflexivity].
  apply f_removable in Ef. congruence.
Qed.

Lemma prune_fieldArray (n : Node) (F : Field) :
  wfSlots n = true ->
  (forall c, Field_eqb F (slot c) = true -> filterSlot c = true) ->
  fieldArray (prune f n) F = map (prune f) (fieldArray n F).
Proof.
  intros Hwf HF. unfold fieldArray. rewrite prune_kids.
  assert (H : forall c, In c (kids n) -> Field_eqb F (slot c) = true -> f c = false).
  { intros c Hin Hs. apply (wfSlots_kids n c Hwf Hin). now apply HF. }
  induction (kids n) as [|c l IH]; simpl; [reflexivity|].
  destruct (Field_eqb F (slot c)) eqn:Es.
  - rewrite (H c (or_introl eq_refl) Es). simpl. rewrite prune_slot, Es.
    simpl. f_equal. apply IH. intros; apply H; auto. now right.
  - destruct (f c); simpl.
    + apply IH. intros; apply H; auto. now right.
    + rewrite prune_slot, Es. apply IH. intros; apply H; auto. now right.
Qed.

Lemma prune_field (n : Node) (F : Field) :
  wfSlots n = true ->
  (forall c, Field_eqb F (slot c) = true -> filterSlot c = true) ->
  field (prune f n) F = option_map (prune f) (field n F).
Proof.
  intros Hwf HF. rewrite !field_hd, (prune_fieldArray n F Hwf HF).
  now destruct (fieldArray n F).
Qed.

Lemma filterSlot_declarations c :
  Field_eqb f_declarations (slot c) = true -> filterSlot c = true.
Proof. unfold filterSlot. now intros ->. Qed.

Lemma filterSlot_id c : Field_eqb f_id (slot c) = true -> filterSlot c = true.
Proof. unfold filterSlot. intros ->. now rewrite orb_true_r. Qed.

Lemma filterSlot_exported c :
  Field_eqb f_exported (slot c) = true -> filterSlot c = true.
Proof. unfold filterSlot. intros ->. now rewrite orb_true_r. Qed.

Lemma prune_exportMatch (s : string) (n : Node) :
  wfSlots n = true -> exportMatch s (prune f n) = exportMatch s n.
Proof.
  intros Hwf. unfold exportMatch, exportFilter.
  rewrite prune_check, (prune_field n f_exported Hwf filterSlot_exported).
  destruct (field n f_exported); cbn [option_map];
    [now rewrite prune_name | reflexivity].
Qed.

Lemma prune_declarationMatch (s : string) (n : Node) :
  wfSlots n = true -> declarationMatch s (prune f n) = declarationMatch s n.
Proof.
  intros Hwf. unfold declarationMatch, declarationFilter.
  rewrite prune_check, (prune_fieldArray n f_declarations Hwf filterSlot_declarations).
  destruct (fieldArray n f_declarations) as [|d [|d' l]] eqn:E; cbn [map];
    try reflexivity.
  assert (Hd : wfSlots d = true).
  { apply (wfSlots_kids n d Hwf). unfold fieldArray in E.
    assert (Hin : In d (filter (fun c => Field_eqb f_declarations (slot c)) (kids n)))
      by (rewrite E; now left).
    apply filter_In in Hin. tauto. }
  rewrite prune_check, (prune_field d f_id Hd filterSlot_id).
  destruct (field d f_id); cbn [option_map];
    [now rewrite prune_check, prune_name | reflexivity].
Qed.


Lemma prune_removableType (n : Node) : removableType (prune f n) = removableType n.
Proof. unfold removableType. now rewrite !prune_check. Qed.

Lemma prune_filterSlot (n : Node) : filterSlot (prune f n) = filterSlot n.
Proof. unfold filterSlot. now rewrite prune_slot. Qed.

Lemma prune_wfSlots : forall n, wfSlots n = true -> wfSlots (prune f n) = true.
Proof.
  induction n as [ty sl nm sh co cm ks IH] using Node_induction. intros Hwf.
  rewrite prune_unfold. simpl in *. rewrite pruneKids_map_filter.
  rewrite forallb_forall in *. intros c' Hin.
  apply in_map_iff in Hin. destruct Hin as (c & <- & Hc).
  apply filter_In in Hc. destruct Hc as [Hc _].
  specialize (Hwf c Hc). apply andb_true_iff in Hwf. destruct Hwf as [H1 H2].
  rewrite prune_filterSlot, prune_removableType, H1. simpl.
  rewrite Forall_forall in IH. now apply IH.
Qed.


End Pruning.

Lemma exportMatch_removable (s : string) (c : Node) :
  exportMatch s c = true -> removableType c = true.
Proof.
  unfold exportMatch, removableType. intros H. apply andb_true_iff in H.
  destruct H as [-> _]. reflexivity.
Qed.

Lemma declarationMatch_removable (s : string) (c : Node) :
  declarationMatch s c = true -> removableType c = true.
Proof.
  unfold declarationMatch, removableType. intros H. apply andb_true_iff in H.
  destruct H as [-> _]. apply orb_true_r.
Qed.











(** *** One name of the template *)

Lemma deleteWrapper_wfSlots (s : string) (t : Node) :
  wfSlots t = true -> wfSlots (deleteWrapper s t) = true.
Proof.
  intros H. rewrite deleteWrapper_prune.
  apply prune_wfSlots. apply prune_wfSlots. exact H.
Qed.




(** *** The whole pass over the template *)

Lemma deleteWrappers_wfSlots : forall names t,
  wfSlots t = true -> wfSlots (deleteWrappers names t) = true.
Proof.
  unfold deleteWrappers. induction names as [|n names IH]; intros t H; simpl;
    [exact H|]. apply IH. now apply deleteWrapper_wfSlots.
Qed.




(** *** Declarations of several bindings *)


Lemma wfSlots_child (n c : Node) : wfSlots n = true -> In c (kids n) -> wfSlots c = true.
Proof.
  intros H Hin. apply (wfSlots_kids (fun _ => false) ltac:(discriminate) n c H Hin).
Qed.


Lemma prune_top_not_removable (f : Node -> bool) (t : Node) :
  (forall p, In p (kids t) -> removableType p = false) ->
  forall p, In p (kids (prune f t)) -> removableType p = false.
Proof.
  intros H p Hp. rewrite prune_kids in Hp. apply in_map_iff in Hp.
  destruct Hp as (p0 & <- & Hp0). apply filter_In in Hp0.
  rewrite prune_removableType. apply H. tauto.
Qed.




(** ** The per-name pass and the renamer *)

(** What the loop of [wrapFunctions] does for a name it finds: every
    occurrence, whatever its context, is given the alias, which is the alias
    [renameIdentifiers] returns, and the alias is recorded. *)
Lemma wrapStep_found (userAST templateAST : Node) (reg : Registry) (functionName : string) :
  findIdentifiers userAST functionName <> [] ->
  wrapStep (userAST, templateAST, reg) functionName
  = (renameAll (findAvailibleAlias userAST functionName)
               (findIdentifiers userAST functionName) userAST,
     templateAST,
     setAlias functionName (findAvailibleAlias userAST functionName) reg).
Proof.
  intros H. unfold wrapStep.
  destruct (findIdentifiers userAST functionName) as [|p ps]; [congruence|].
  reflexivity.
Qed.

Lemma renameAll_renamedTo (A : string) : forall ps t, renamedTo A t (renameAll A ps t).
Proof.
  unfold renameAll. induction ps as [|p ps IH]; intros t; simpl;
    [apply renamedTo_refl|].
  eapply renamedTo_trans; [apply renamedTo_setName | apply IH].
Qed.

Lemma renameAll_names (A : string) : forall ps t p,
  In p ps -> getNode t p <> None -> nameAt (renameAll A ps t) p = Some A.
Proof.
  unfold renameAll. induction ps as [|q ps IH]; intros t p Hin Hn; [destruct Hin|].
  simpl. destruct Hin as [-> | Hin].
  - eapply renamedTo_keeps; [apply (renameAll_renamedTo A ps)|].
    now apply nameAt_setName_same.
  - apply IH; [exact Hin|].
    destruct (getNode t p) as [n|] eqn:E; [|congruence].
    destruct (shape_getNode_some _ _ (proj1 (renamedTo_setName A t q)) _ _ E)
      as (n' & -> & _). discriminate.
Qed.

Lemma renameIdentifiers_alias_recorded (fuel : nat) (userAST ast' : Node)
    (functionName : string) (r : option string) :
  findIdentifiers userAST functionName <> [] ->
  renameIdentifiers fuel userAST functionName None = Ok (ast', r) ->
  r = Some (findAvailibleAlias userAST functionName).
Proof.
  intros Hne H. rewrite renameIdentifiers_alias in H. simpl orElse in H.
  destruct (findIdentifiers userAST functionName) as [|p ps] eqn:E; [congruence|].
  eapply renameIdentifiers_returns_alias with (p := p);
    [apply findAvailibleAlias_nonempty | rewrite E; now left | exact H].
Qed.

(** C1 (the code at a module that re-exports an imported
    [getServerSideProps]): the per-name pass of [wrapFunctions] records the
    alias the renamer returns, but it writes the alias into every
    occurrence, the imported side of the import specifier included, where
    [renameIdentifiers] leaves the imported name alone; the two trees
    differ. *)
Theorem wrapStep_not_renameIdentifiers :
  wrapStep (reExported, templateTree, DATA_FETCHING_FUNCTIONS) "getServerSideProps"
  = (reExportedByDriver, templateTree,
     setAlias "getServerSideProps" "_getServerSideProps" DATA_FETCHING_FUNCTIONS) /\
  renameIdentifiers 3 reExported "getServerSideProps" None
  = Ok (reExportedByRenamer, Some "_getServerSideProps") /\
  nameAt reExportedByDriver [0;0;0;1] = Some "_getServerSideProps" /\
  nameAt reExportedByRenamer [0;0;0;1] = Some "getServerSideProps" /\
  reExportedByDriver <> reExportedByRenamer.
Proof.
  split; [vm_compute; reflexivity|].
  split; [vm_compute; reflexivity|].
  split; [reflexivity|]. split; [reflexivity|]. discriminate.
Qed.

(* ================================================================== *)
(** * Further properties of the code *)
(* ================================================================== *)

(** ** The renamer *)

(** X1: a run of [renameIdentifiers] that returns has not added, removed or
    moved any node nor changed the class of one: the paths of the tree and
    the type at every path are as before, and the name at every path is the
    old name or the alias the run returns. *)
Theorem renameIdentifiers_only_renames
    (fuel : nat) (ast : Node) (origName : string) (newName : option string)
    (ast' : Node) (r : option string) :
  renameIdentifiers fuel ast origName newName = Ok (ast', r) ->
  paths ast' = paths ast /\
  (forall p, typeAt ast' p = typeAt ast p) /\
  (forall p, nameAt ast' p = nameAt ast p \/
             nameAt ast' p = Some (orElse newName (findAvailibleAlias ast origName))).
Proof.
  intros H. pose proof (renameIdentifiers_skeleton _ _ _ _ _ _ H) as Hs.
  split; [now apply shape_paths|]. split; [intros p; now apply shape_typeAt|].
  rewrite renameIdentifiers_alias in H.
  apply (renameIdentifiers_renamedTo _ (orElse_nonempty newName ast origName)) in H.
  exact (proj2 H).
Qed.

Lemma renameIdentifiers_only_renames_witness :
  paths aliasedExportRenamed = paths aliasedExport /\
  (forall p, typeAt aliasedExportRenamed p = typeAt aliasedExport p) /\
  (forall p, nameAt aliasedExportRenamed p = nameAt aliasedExport p \/
             nameAt aliasedExportRenamed p
             = Some (orElse None (findAvailibleAlias aliasedExport "getServerSideProps"))).
Proof.
  apply (renameIdentifiers_only_renames 3 aliasedExport "getServerSideProps" None
           aliasedExportRenamed (Some "_getServerSideProps")).
  vm_compute. reflexivity.
Defined.

Lemma keepsExempt_refl (t : Node) : keepsExempt t t.
Proof. split; auto. Qed.

Lemma keepsExempt_trans (a b c : Node) :
  keepsExempt a b -> keepsExempt b c -> keepsExempt a c.
Proof.
  intros [Hs1 Hn1] [Hs2 Hn2]. split; [congruence|].
  intros q Hq. rewrite Hn2, Hn1; auto. now rewrite (renamable_shape _ _ q Hs1).
Qed.

Lemma keepsExempt_afterShorthand ast parent grandparent p :
  keepsExempt ast (afterShorthand ast parent grandparent p).
Proof.
  split; [apply skeleton_afterShorthand|]. intros q _.
  unfold afterShorthand. destruct (_ && _); [apply nameAt_setShorthand | reflexivity].
Qed.

Lemma maybeRenameNode_keepsExempt rename ast p alias ast' :
  (forall t X nn t' r, rename t X nn = Ok (t', r) -> keepsExempt t t') ->
  maybeRenameNode rename ast p alias = Ok ast' -> keepsExempt ast ast'.
Proof.
  intros Hr H. apply maybeRenameNode_inv in H.
  destruct H as (parent & grandparent & Hp & Hg & [[_ ->] | [Hd (ast3 & H3 & ->)]]);
    [apply keepsExempt_refl|].
  assert (H3' : keepsExempt ast ast3).
  { destruct H3 as [[_ ->] | [_ (r & Hcall)]].
    - apply keepsExempt_afterShorthand.
    - eapply keepsExempt_trans; [apply keepsExempt_afterShorthand | eapply Hr; eauto]. }
  destruct H3' as [Hs Hn].
  split; [rewrite skeleton_updateNode by apply skeleton_setName; exact Hs|].
  intros q Hq. rewrite nameAt_setName_other; [now apply Hn|].
  intros ->. unfold renamable in Hq. rewrite Hp, Hg, Hd in Hq. discriminate.
Qed.

Lemma renameIdentifiers_keepsExempt : forall fuel ast X nn ast' r,
  renameIdentifiers fuel ast X nn = Ok (ast', r) -> keepsExempt ast ast'.
Proof.
  induction fuel as [|fuel IH]; intros ast X nn ast' r H; [discriminate|].
  rewrite renameIdentifiers_S in H.
  destruct (Nat.ltb 0 (List.length (findIdentifiers ast X)));
    [|injection H as <- _; apply keepsExempt_refl].
  match type of H with
  | (_ <-- ?m ;; _) = _ => destruct m as [t1| |] eqn:E; simpl in H; try discriminate
  end.
  injection H as <- _. revert E.
  apply forEach_invariant with (R := keepsExempt).
  - apply keepsExempt_refl.
  - apply keepsExempt_trans.
  - intros t p t' _ Hstep. eapply maybeRenameNode_keepsExempt; [|exact Hstep].
    intros. eapply IH; eauto.
Qed.

(** X2: over a whole run of [renameIdentifiers], re-entries for export
    specifiers included, an occurrence in a do-not-rename context (imported
    side of an import specifier, key of a property of an object pattern or
    literal, property part of a member access) keeps its name, whatever name
    it has. *)
Theorem renameIdentifiers_never_renames_exempt
    (fuel : nat) (ast : Node) (origName : string) (newName : option string)
    (ast' : Node) (r : option string) (p : Path) (parent grandparent : Node) :
  renameIdentifiers fuel ast origName newName = Ok (ast', r) ->
  ancestor ast p 1 = Ok parent ->
  ancestor ast p 2 = Ok grandparent ->
  doNotRename parent grandparent p = true ->
  nameAt ast' p = nameAt ast p.
Proof.
  intros H Hp Hg Hd. apply renameIdentifiers_keepsExempt in H.
  apply (proj2 H). unfold renamable. now rewrite Hp, Hg, Hd.
Qed.

Lemma renameIdentifiers_never_renames_exempt_witness :
  nameAt aliasedExportRenamed [0;0;0;1] = nameAt aliasedExport [0;0;0;1].
Proof.
  apply (renameIdentifiers_never_renames_exempt 3 aliasedExport "getServerSideProps"
           None aliasedExportRenamed (Some "_getServerSideProps") [0;0;0;1]
           helperImportSpecifier helperImportDeclaration).
  - vm_compute. reflexivity.
  - reflexivity.
  - reflexivity.
  - reflexivity.
Defined.

(** X3: after a run of [renameIdentifiers] that returns, every occurrence of
    [origName] outside the do-not-rename contexts carries the alias, and the
    identifiers still named [origName] are exactly occurrences the run found
    in a do-not-rename context (when the alias is not [origName] itself). *)
Theorem renameIdentifiers_renames_all_renamable
    (fuel : nat) (ast : Node) (origName : string) (newName : option string)
    (ast' : Node) (r : option string) :
  renameIdentifiers fuel ast origName newName = Ok (ast', r) ->
  let A := orElse newName (findAvailibleAlias ast origName) in
  (forall p, In p (findIdentifiers ast origName) -> renamable ast p = true ->
             nameAt ast' p = Some A) /\
  (A <> origName ->
   forall p, In p (findIdentifiers ast' origName) ->
             In p (findIdentifiers ast origName) /\ renamable ast p = false).
Proof.
  intros H A. rewrite renameIdentifiers_alias in H. fold A in H.
  assert (HA : A <> "") by apply orElse_nonempty.
  pose proof (renameIdentifiers_renamedTo A HA _ _ _ _ _ H) as [Hs Hn].
  assert (Hall : forall p, In p (findIdentifiers ast origName) ->
                           renamable ast p = true -> nameAt ast' p = Some A).
  { intros p Hin Hren. apply in_findIdentifiers in Hin. destruct Hin as [Hne Hid].
    eapply renameIdentifiers_complete; eauto. }
  split; [exact Hall|].
  intros HAN p Hin. apply in_findIdentifiers in Hin.
  destruct Hin as [Hne (n' & Hn' & Hty' & Hnm')].
  destruct (shape_getNode_some _ _ (eq_sym Hs) _ _ Hn') as (n & Hg & Hsk).
  assert (Hty : type n = Identifier)
    by (now rewrite <- (skeleton_type n), Hsk, skeleton_type).
  assert (Hnm : name n = origName).
  { specialize (Hn p). unfold nameAt in Hn. rewrite Hn', Hg in Hn. simpl in Hn.
    destruct Hn as [Hn | Hn]; injection Hn as Hn; congruence. }
  assert (Hin : In p (findIdentifiers ast origName)).
  { apply in_findIdentifiers. split; [exact Hne|]. exists n. auto. }
  split; [exact Hin|].
  destruct (renamable ast p) eqn:Hren; [|reflexivity].
  specialize (Hall p Hin Hren). unfold nameAt in Hall. rewrite Hn' in Hall.
  simpl in Hall. injection Hall as Hall. congruence.
Qed.

Lemma renameIdentifiers_renames_all_renamable_witness :
  let A := orElse None (findAvailibleAlias aliasedExport "getServerSideProps") in
  (forall p, In p (findIdentifiers aliasedExport "getServerSideProps") ->
             renamable aliasedExport p = true ->
             nameAt aliasedExportRenamed p = Some A) /\
  (A <> "getServerSideProps" ->
   forall p, In p (findIdentifiers aliasedExportRenamed "getServerSideProps") ->
             In p (findIdentifiers aliasedExport "getServerSideProps") /\
             renamable aliasedExport p = false).
Proof.
  apply (renameIdentifiers_renames_all_renamable 3 aliasedExport "getServerSideProps"
           None aliasedExportRenamed (Some "_getServerSideProps")).
  vm_compute. reflexivity.
Defined.

(** X4: [renameIdentifiers] returns [undefined] together with the untouched
    tree exactly when no identifier carries the name; when one does, a run
    that returns gives back an alias. *)
Theorem renameIdentifiers_undefined_iff
    (fuel : nat) (ast : Node) (origName : string) (newName : option string) :
  (findIdentifiers ast origName = [] <->
   renameIdentifiers (S fuel) ast origName newName = Ok (ast, None)) /\
  (forall ast' r, renameIdentifiers (S fuel) ast origName newName = Ok (ast', r) ->
                  r = None -> ast' = ast).
Proof.
  rewrite renameIdentifiers_S.
  destruct (findIdentifiers ast origName) as [|p ps] eqn:E.
  - simpl. split; [split; reflexivity|]. intros ast' r H _. now injection H as <- _.
  - change (Nat.ltb 0 (List.length (p :: ps))) with true. cbv iota.
    set (m := forEach _ (p :: ps) ast). destruct m as [t1| |]; simpl;
      (split; [split; intros H; discriminate|]);
      intros ast' r H Hr; try discriminate.
    injection H as _ <-. discriminate.
Qed.

Lemma ancestor_parentPath (ast : Node) (p : Path) (parent : Node) :
  ancestor ast p 1 = Ok parent ->
  getNode ast (parentPath p) = Some parent /\ parentPath p <> p.
Proof.
  unfold ancestor, parentPath. destruct (Nat.ltb (List.length p) 1) eqn:E;
    [discriminate|]. apply Nat.ltb_ge in E.
  rewrite removelast_firstn_len.
  replace (List.length p - 1) with (pred (List.length p)) by lia.
  destruct (getNode ast (firstn (pred (List.length p)) p)) as [n|]; [|discriminate].
  intros H. injection H as <-. split; [reflexivity|].
  intros Heq. apply (f_equal (@List.length nat)) in Heq.
  rewrite length_firstn in Heq. lia.
Qed.

(** X5: the shorthand fix-up.  When [maybeRenameNode] handles the value of a
    property of an object pattern or of an object literal it returns with the
    value named by the alias and the property marked non-shorthand (so that
    [{ gSSP }] prints as [{ gSSP: _gSSP }]); nothing else is written. *)
Theorem maybeRenameNode_shorthand_fixup
    (rename : Node -> string -> option string -> Outcome (Node * option string))
    (ast : Node) (p : Path) (alias : string) (n parent grandparent : Node) :
  getNode ast p = Some n ->
  ancestor ast p 1 = Ok parent ->
  ancestor ast p 2 = Ok grandparent ->
  check Property parent = true ->
  check ObjectPattern grandparent || check ObjectExpression grandparent = true ->
  isField parent f_key p = false ->
  let ast' := updateNode (setName alias)
                (updateNode (setShorthand false) ast (parentPath p)) p in
  maybeRenameNode rename ast p alias = Ok ast' /\
  nameAt ast' p = Some alias /\
  shorthandAt ast' (parentPath p) = Some false /\
  (forall q, q <> p -> nameAt ast' q = nameAt ast q) /\
  (forall q, q <> parentPath p -> shorthandAt ast' q = shorthandAt ast q).
Proof.
  intros Hn Hp Hg Hprop Hgp Hkey ast'.
  destruct (ancestor_parentPath _ _ _ Hp) as [Hpp Hneq].
  assert (HP : type parent = Property)
    by (symmetry; apply NodeType_eqb_spec; exact Hprop).
  assert (Hd : doNotRename parent grandparent p = false).
  { unfold doNotRename, check. rewrite HP, Hkey. simpl.
    now rewrite !andb_false_r. }
  assert (He : check ExportSpecifier parent = false)
    by (unfold check; now rewrite HP).
  split.
  - rewrite (maybeRenameNode_plain _ _ _ _ _ _ Hp Hg Hd He).
    unfold afterShorthand. rewrite Hprop, Hgp. reflexivity.
  - split; [|split; [|split]].
    + apply nameAt_setName_same.
      destruct (shape_getNode_some _ _
                  (skeleton_updateNode (setShorthand false) (skeleton_setShorthand false)
                                       (parentPath p) ast) _ _ Hn) as (n' & -> & _).
      discriminate.
    + unfold shorthandAt, ast'.
      rewrite (getNode_updateNode_other shorthand (setName alias))
        by (auto; intros []; reflexivity).
      rewrite getNode_updateNode_at, Hpp. reflexivity.
    + intros q Hq. unfold ast'.
      now rewrite nameAt_setName_other, nameAt_setShorthand.
    + intros q Hq. unfold shorthandAt, ast'.
      destruct (list_eq_dec Nat.eq_dec q p) as [-> | Hqp].
      * rewrite getNode_updateNode_at.
        rewrite <- (getNode_updateNode_other shorthand (setShorthand false)
                      ltac:(reflexivity) ltac:(reflexivity) (parentPath p) ast p)
          by congruence.
        destruct (getNode (updateNode _ _ _) p); reflexivity.
      * rewrite (getNode_updateNode_other shorthand (setName alias))
          by (auto; intros []; reflexivity).
        now apply getNode_updateNode_other.
Qed.

Lemma maybeRenameNode_shorthand_fixup_witness :
  let ast' := updateNode (setName "_getStaticProps")
                (updateNode (setShorthand false) destructured
                            (parentPath [0;0;0;0;0;1])) [0;0;0;0;0;1] in
  maybeRenameNode (renameIdentifiers 1) destructured [0;0;0;0;0;1] "_getStaticProps"
  = Ok ast' /\
  nameAt ast' [0;0;0;0;0;1] = Some "_getStaticProps" /\
  shorthandAt ast' (parentPath [0;0;0;0;0;1]) = Some false /\
  (forall q, q <> [0;0;0;0;0;1] -> nameAt ast' q = nameAt destructured q) /\
  (forall q, q <> parentPath [0;0;0;0;0;1] ->
             shorthandAt ast' q = shorthandAt destructured q).
Proof.
  apply (maybeRenameNode_shorthand_fixup (renameIdentifiers 1) destructured
           [0;0;0;0;0;1] "_getStaticProps" (ident f_value "getStaticProps")
           shorthandProperty shorthandPattern); reflexivity.
Defined.

(** ** The comment stripper *)

Lemma clearComments_kids (n : Node) : kids (clearComments n) = map clearComments (kids n).
Proof. now destruct n. Qed.

Lemma clearComments_attrs (n : Node) :
  type (clearComments n) = type n /\ slot (clearComments n) = slot n /\
  name (clearComments n) = name n /\ shorthand (clearComments n) = shorthand n /\
  computed (clearComments n) = computed n /\ comments (clearComments n) = None.
Proof. destruct n. repeat split. Qed.

Lemma getNode_clearComments : forall p t,
  getNode (clearComments t) p = option_map clearComments (getNode t p).
Proof.
  induction p as [|i p IH]; intros t; simpl; [reflexivity|].
  rewrite clearComments_kids, nth_error_map.
  destruct (nth_error (kids t) i); simpl; [apply IH | reflexivity].
Qed.

Lemma getNode_removeComments (t : Node) (p : Path) :
  p <> [] -> getNode (removeComments t) p = option_map clearComments (getNode t p).
Proof.
  destruct p as [|i p]; [congruence|]. intros _. simpl. rewrite nth_error_map.
  destruct (nth_error (kids t) i); simpl; [apply getNode_clearComments | reflexivity].
Qed.

Lemma kidPaths_map (g : Node -> Node) : forall l i,
  Forall (fun c => paths (g c) = paths c) l -> kidPaths i (map g l) = kidPaths i l.
Proof.
  induction l as [|c l IH]; intros i H; simpl; [reflexivity|].
  inversion H as [|? ? Hc Hl]; subst. now rewrite Hc, IH.
Qed.

Lemma paths_clearComments : forall t, paths (clearComments t) = paths t.
Proof.
  induction t as [ty sl nm sh co cm ks IH] using Node_induction.
  rewrite !paths_unfold. simpl. f_equal. now apply kidPaths_map.
Qed.

Lemma paths_removeComments (t : Node) : paths (removeComments t) = paths t.
Proof.
  rewrite !paths_unfold. unfold removeComments. simpl. f_equal.
  apply kidPaths_map. apply Forall_forall. intros c _. apply paths_clearComments.
Qed.

Lemma fieldArray_clearComments (n : Node) (F : Field) :
  fieldArray (clearComments n) F = map clearComments (fieldArray n F).
Proof.
  unfold fieldArray. rewrite clearComments_kids.
  induction (kids n) as [|c l IH]; simpl; [reflexivity|].
  destruct (clearComments_attrs c) as (_ & -> & _).
  destruct (Field_eqb F (slot c)); simpl; now rewrite IH.
Qed.

Lemma field_clearComments (n : Node) (F : Field) :
  field (clearComments n) F = option_map clearComments (field n F).
Proof.
  rewrite !field_hd, fieldArray_clearComments. now destruct (fieldArray n F).
Qed.

Lemma check_clearComments (T : NodeType) (n : Node) :
  check T (clearComments n) = check T n.
Proof. unfold check. now destruct n. Qed.

Lemma name_clearComments (n : Node) : name (clearComments n) = name n.
Proof. now destruct n. Qed.

Lemma exportFilter_clearComments (s : string) (n : Node) :
  exportFilter s (clearComments n) = exportFilter s n.
Proof.
  unfold exportFilter. rewrite check_clearComments, field_clearComments.
  destruct (field n f_exported); cbn [option_map];
    [now rewrite name_clearComments | reflexivity].
Qed.

Lemma declarationFilter_clearComments (s : string) (n : Node) :
  declarationFilter s (clearComments n) = declarationFilter s n.
Proof.
  unfold declarationFilter. rewrite fieldArray_clearComments.
  destruct (fieldArray n f_declarations) as [|d [|d' l]]; cbn [map]; try reflexivity.
  rewrite check_clearComments, field_clearComments.
  destruct (field d f_id); cbn [option_map];
    [now rewrite check_clearComments, name_clearComments | reflexivity].
Qed.

Lemma query_removeComments (t : Node) (T : NodeType) (g : Node -> bool) :
  (forall n, g (clearComments n) = g n) ->
  filter (nodeSatisfies (removeComments t) g) (find (removeComments t) T)
  = filter (nodeSatisfies t g) (find t T).
Proof.
  intros Hg. unfold find, descendants. rewrite paths_removeComments.
  rewrite !filter_filter. apply filter_ext_in. intros p Hp.
  assert (Hne : p <> []).
  { apply (in_descendants t p). exact Hp. }
  unfold nodeSatisfies. rewrite (getNode_removeComments t p Hne).
  destruct (getNode t p); simpl; [|reflexivity].
  now rewrite check_clearComments, Hg.
Qed.

(** X6: [removeComments] strips the comments of every node below the root
    and changes nothing else there (class, field, name, flags); the root
    node itself, which [find] does not visit, keeps its comments; a second
    call changes nothing. *)
Theorem removeComments_strips (t : Node) :
  (forall p n, p <> [] -> getNode t p = Some n ->
     exists n', getNode (removeComments t) p = Some n' /\
                comments n' = None /\
                type n' = type n /\ slot n' = slot n /\ name n' = name n /\
                shorthand n' = shorthand n /\ computed n' = computed n) /\
  paths (removeComments t) = paths t /\
  comments (removeComments t) = comments t /\
  removeComments (removeComments t) = removeComments t.
Proof.
  split; [|split; [|split]].
  - intros p n Hne Hn. exists (clearComments n).
    rewrite (getNode_removeComments t p Hne), Hn. split; [reflexivity|].
    destruct (clearComments_attrs n) as (? & ? & ? & ? & ? & ?). repeat split; auto.
  - apply paths_removeComments.
  - reflexivity.
  - unfold removeComments. simpl. unfold setKids. simpl. f_equal.
    rewrite map_map. apply map_ext_in. intros c _.
    induction c as [ty sl nm sh co cm ks IH] using Node_induction. simpl. f_equal.
    rewrite map_map. apply map_ext_in. intros c Hc.
    rewrite Forall_forall in IH. now apply IH.
Qed.

(** X7: stripping the comments does not change what the three queries
    find: [findIdentifiers], [findExports] and [findDeclarations] return the
    same paths on the stripped tree as on the tree itself, for every name. *)
Theorem removeComments_keeps_queries (t : Node) (s : string) :
  findIdentifiers (removeComments t) s = findIdentifiers t s /\
  findExports (removeComments t) s = findExports t s /\
  findDeclarations (removeComments t) s = findDeclarations t s.
Proof.
  split; [|split].
  - apply query_removeComments. intros n. unfold identifierFilter.
    now rewrite name_clearComments.
  - apply query_removeComments. apply exportFilter_clearComments.
  - apply query_removeComments. apply declarationFilter_clearComments.
Qed.

(** ** The loop of [wrapFunctions] *)

Lemma renameAll_other (A : string) : forall ps t p,
  ~ In p ps -> nameAt (renameAll A ps t) p = nameAt t p.
Proof.
  unfold renameAll. induction ps as [|q ps IH]; intros t p Hnin; simpl; [reflexivity|].
  rewrite IH by (intros H; apply Hnin; now right).
  apply nameAt_setName_other. intros ->. apply Hnin. now left.
Qed.

Lemma nodeSatisfies_identifierFilter (t : Node) (s : string) (p : Path) :
  nodeSatisfies t (identifierFilter s) p
  = match nameAt t p with Some x => String.eqb x s | None => false end.
Proof. unfold nodeSatisfies, nameAt, identifierFilter. now destruct (getNode t p). Qed.

Lemma candidate_neq (k : nat) (s : string) : 1 <= k -> candidate k s <> s.
Proof.
  intros Hk H. apply (f_equal String.length) in H. rewrite candidate_length in H. lia.
Qed.

Lemma findAvailibleAlias_neq (t : Node) (s : string) : findAvailibleAlias t s <> s.
Proof.
  destruct (findAvailibleAlias_spec t s) as (k & _ & -> & Hk & _).
  now apply candidate_neq.
Qed.

(** The identifiers of a tree after all the occurrences of [N] were named
    [A], for a name [A] no identifier carried. *)
Lemma findIdentifiers_renameAll (t : Node) (N A s : string) :
  findIdentifiers t A = [] -> A <> N ->
  findIdentifiers (renameAll A (findIdentifiers t N) t) s
  = if String.eqb s A then findIdentifiers t N
    else if String.eqb s N then []
    else findIdentifiers t s.
Proof.
  intros Hfresh HAN. set (ps := findIdentifiers t N). set (u := renameAll A ps t).
  assert (Hs : skeleton u = skeleton t) by apply (proj1 (renameAll_renamedTo A ps t)).
  assert (Hname : forall p, In p (find t Identifier) ->
            nameAt u p = if nodeSatisfies t (identifierFilter N) p
                         then Some A else nameAt t p).
  { intros p Hp. destruct (nodeSatisfies t (identifierFilter N) p) eqn:E.
    - apply renameAll_names.
      + unfold ps, findIdentifiers. apply filter_In. auto.
      + apply in_find in Hp. destruct Hp as [_ (n & -> & _)]. discriminate.
    - apply renameAll_other. unfold ps, findIdentifiers. rewrite filter_In.
      intros [_ H]. congruence. }
  assert (HA : forall p, In p (find t Identifier) ->
                         nodeSatisfies t (identifierFilter A) p = false).
  { intros p Hp. destruct (nodeSatisfies t (identifierFilter A) p) eqn:E;
      [|reflexivity].
    assert (Hin : In p (findIdentifiers t A))
      by (unfold findIdentifiers; apply filter_In; auto).
    rewrite Hfresh in Hin. destruct Hin. }
  unfold findIdentifiers at 1. fold u. rewrite (shape_find _ _ Hs).
  assert (Hpt : forall p, In p (find t Identifier) ->
            nodeSatisfies u (identifierFilter s) p
            = if String.eqb s A then nodeSatisfies t (identifierFilter N) p
              else if String.eqb s N then false
              else nodeSatisfies t (identifierFilter s) p).
  { intros p Hp. rewrite (nodeSatisfies_identifierFilter u), (Hname p Hp).
    specialize (HA p Hp). rewrite nodeSatisfies_identifierFilter in HA.
    destruct (nodeSatisfies t (identifierFilter N) p) eqn:EN;
      rewrite nodeSatisfies_identifierFilter in EN.
    - rewrite (String.eqb_sym s A).
      destruct (String.eqb A s) eqn:EAs; [reflexivity|].
      rewrite (nodeSatisfies_identifierFilter t s).
      destruct (nameAt t p) as [x|]; [|discriminate].
      apply String.eqb_eq in EN. subst x. rewrite (String.eqb_sym s N).
      now destruct (String.eqb N s).
    - rewrite (nodeSatisfies_identifierFilter t s).
      destruct (nameAt t p) as [x|]; [|now destruct (String.eqb s A), (String.eqb s N)].
      destruct (String.eqb s A) eqn:EsA.
      + apply String.eqb_eq in EsA. subst s. exact HA.
      + destruct (String.eqb s N) eqn:EsN; [|reflexivity].
        apply String.eqb_eq in EsN. subst s. exact EN. }
  rewrite (filter_ext_in _ _ _ Hpt).
  destruct (String.eqb s A); [reflexivity|].
  destruct (String.eqb s N); [|reflexivity].
  generalize (find t Identifier). clear.
  intros l. induction l; simpl; auto.
Qed.

(** X8: for a name it finds, one turn of the loop of [wrapFunctions] leaves
    no identifier with that name in the user tree: the occurrences, and only
    they, now carry the alias; the identifiers with any other name, the
    shape of the user tree and the template are as before; the alias is
    recorded in the registry. *)
Theorem wrapStep_renames_every_occurrence
    (userAST templateAST : Node) (reg : Registry) (functionName : string) :
  findIdentifiers userAST functionName <> [] ->
  let functionAlias := findAvailibleAlias userAST functionName in
  let userAST' := renameAll functionAlias (findIdentifiers userAST functionName)
                            userAST in
  wrapStep (userAST, templateAST, reg) functionName
  = (userAST', templateAST, setAlias functionName functionAlias reg) /\
  findIdentifiers userAST' functionName = [] /\
  findIdentifiers userAST' functionAlias = findIdentifiers userAST functionName /\
  (forall s, s <> functionName -> s <> functionAlias ->
             findIdentifiers userAST' s = findIdentifiers userAST s) /\
  paths userAST' = paths userAST.
Proof.
  intros Hne A u'.
  destruct (findAvailibleAlias_spec userAST functionName) as (k & _ & _ & _ & Hfresh).
  pose proof (findAvailibleAlias_neq userAST functionName) as HAN. fold A in Hfresh, HAN.
  split; [now apply wrapStep_found|]. split; [|split; [|split]].
  - unfold u'. rewrite (findIdentifiers_renameAll _ _ _ _ Hfresh HAN).
    rewrite String.eqb_refl.
    destruct (String.eqb functionName A) eqn:E; [|reflexivity].
    apply String.eqb_eq in E. congruence.
  - unfold u'. rewrite (findIdentifiers_renameAll _ _ _ _ Hfresh HAN).
    now rewrite String.eqb_refl.
  - intros s H1 H2. unfold u'. rewrite (findIdentifiers_renameAll _ _ _ _ Hfresh HAN).
    apply String.eqb_neq in H1, H2. now rewrite H1, H2.
  - apply shape_paths. apply (proj1 (renameAll_renamedTo A _ userAST)).
Qed.

Lemma wrapStep_renames_every_occurrence_witness :
  let functionAlias := findAvailibleAlias reExported "getServerSideProps" in
  let userAST' := renameAll functionAlias
                            (findIdentifiers reExported "getServerSideProps")
                            reExported in
  wrapStep (reExported, templateTree, DATA_FETCHING_FUNCTIONS) "getServerSideProps"
  = (userAST', templateTree,
     setAlias "getServerSideProps" functionAlias DATA_FETCHING_FUNCTIONS) /\
  findIdentifiers userAST' "getServerSideProps" = [] /\
  findIdentifiers userAST' functionAlias
  = findIdentifiers reExported "getServerSideProps" /\
  (forall s, s <> "getServerSideProps" -> s <> functionAlias ->
             findIdentifiers userAST' s = findIdentifiers reExported s) /\
  paths userAST' = paths reExported.
Proof.
  apply (wrapStep_renames_every_occurrence reExported templateTree
           DATA_FETCHING_FUNCTIONS "getServerSideProps").
  vm_compute. discriminate.
Defined.

Lemma startsWithUnderscore_alias (t : Node) (n m : string) :
  startsWithUnderscore m = false -> m <> findAvailibleAlias t n.
Proof.
  intros Hm ->. destruct (findAvailibleAlias_spec t n) as (k & _ & E & Hk & _).
  rewrite E in Hm. destruct k; [lia | discriminate].
Qed.

Lemma absentFrom_renameAll (u : Node) (n m : string) :
  m <> n -> startsWithUnderscore m = false ->
  absentFrom (renameAll (findAvailibleAlias u n) (findIdentifiers u n) u) m
  = absentFrom u m.
Proof.
  intros Hmn Hm. unfold absentFrom.
  destruct (findAvailibleAlias_spec u n) as (k & _ & _ & _ & Hfresh).
  rewrite (findIdentifiers_renameAll _ _ _ _ Hfresh (findAvailibleAlias_neq u n)).
  pose proof (startsWithUnderscore_alias u n m Hm) as HmA.
  apply String.eqb_neq in Hmn, HmA. now rewrite HmA, Hmn.
Qed.

Lemma wrapStep_absent (u t : Node) (r : Registry) (n : string) :
  absentFrom u n = true -> wrapStep (u, t, r) n = (u, deleteWrapper n t, r).
Proof.
  unfold absentFrom, wrapStep. destruct (findIdentifiers u n); [reflexivity | discriminate].
Qed.

Lemma wrapStep_present (u t : Node) (r : Registry) (n : string) :
  absentFrom u n = false ->
  wrapStep (u, t, r) n
  = (renameAll (findAvailibleAlias u n) (findIdentifiers u n) u, t,
     setAlias n (findAvailibleAlias u n) r).
Proof.
  unfold absentFrom. intros H. apply wrapStep_found.
  destruct (findIdentifiers u n); [discriminate | congruence].
Qed.

Lemma foundNames_cons (u : Node) (n : string) (rest : list string) :
  foundNames u (n :: rest)
  = if absentFrom u n then foundNames u rest
    else n :: foundNames (renameAll (findAvailibleAlias u n) (findIdentifiers u n) u) rest.
Proof. unfold absentFrom. simpl. now destruct (findIdentifiers u n). Qed.

(** X9: the turns of the loop of [wrapFunctions] do not disturb one
    another.  For distinct names that do not begin with an underscore (the
    three tracked names are such), the names the loop finds are the names of
    the list that occur in the user tree it starts from, and the template it
    leaves is the template with the wrappers of exactly the other names
    deleted. *)
Theorem wrapFunctions_loop_by_original_tree :
  forall (names : list string) (userAST templateAST : Node) (reg : Registry),
    NoDup names ->
    (forall n, In n names -> startsWithUnderscore n = false) ->
    foundNames userAST names = filter (fun n => negb (absentFrom userAST n)) names /\
    snd (fst (fold_left wrapStep names (userAST, templateAST, reg)))
    = deleteWrappers (filter (absentFrom userAST) names) templateAST.
Proof.
  induction names as [|n names IH]; intros u t r Hnd Hus; [split; reflexivity|].
  inversion Hnd as [|? ? Hnin Hnd']; subst.
  assert (Hus' : forall m, In m names -> startsWithUnderscore m = false)
    by (intros; apply Hus; now right).
  rewrite foundNames_cons. cbn [fold_left filter].
  destruct (absentFrom u n) eqn:E; cbn [negb].
  - rewrite (wrapStep_absent _ _ _ _ E).
    destruct (IH u (deleteWrapper n t) r Hnd' Hus') as [H1 H2]. split; auto.
  - rewrite (wrapStep_present _ _ _ _ E).
    set (u' := renameAll _ _ u).
    destruct (IH u' t (setAlias n (findAvailibleAlias u n) r) Hnd' Hus') as [H1 H2].
    assert (Hext : forall m, In m names -> absentFrom u' m = absentFrom u m).
    { intros m Hm. apply absentFrom_renameAll; [|now apply Hus'].
      intros ->. contradiction. }
    split.
    + rewrite H1. f_equal. apply filter_ext_in. intros m Hm. now rewrite Hext.
    + rewrite H2. f_equal. apply filter_ext_in. exact Hext.
Qed.

Lemma wrapFunctions_loop_by_original_tree_witness :
  foundNames reExported (keys DATA_FETCHING_FUNCTIONS)
  = filter (fun n => negb (absentFrom reExported n)) (keys DATA_FETCHING_FUNCTIONS) /\
  snd (fst (fold_left wrapStep (keys DATA_FETCHING_FUNCTIONS)
                      (reExported, templateTree, DATA_FETCHING_FUNCTIONS)))
  = deleteWrappers (filter (absentFrom reExported) (keys DATA_FETCHING_FUNCTIONS))
                   templateTree.
Proof.
  apply (wrapFunctions_loop_by_original_tree (keys DATA_FETCHING_FUNCTIONS)
           reExported templateTree DATA_FETCHING_FUNCTIONS).
  - repeat constructor; simpl; intuition discriminate.
  - intros n [<- | [<- | [<- | []]]]; reflexivity.
Defined.

Lemma Forall2_map_left {A B C : Type} (R : B -> C -> Prop) (g : A -> B) :
  forall l l', Forall2 R (map g l) l' -> Forall2 (fun a c => R (g a) c) l l'.
Proof.
  induction l as [|a l IH]; intros l' H; inversion H; subst; constructor; auto.
Qed.

Lemma Forall2_same {A : Type} (R : A -> A -> Prop) (l : list A) :
  (forall a, R a a) -> Forall2 R l l.
Proof. intros H. induction l; constructor; auto. Qed.

Lemma existsb_eqb_in (s : string) (l : list string) :
  existsb (String.eqb s) l = true <-> In s l.
Proof.
  rewrite existsb_exists. split.
  - intros (x & Hx & E). apply String.eqb_eq in E. now subst.
  - intros H. exists s. split; [exact H | apply String.eqb_refl].
Qed.

Lemma wrapStep_fold_recorded :
  forall (names : list string) (userAST templateAST : Node) (reg : Registry),
    NoDup names ->
    (forall n, In n names -> startsWithUnderscore n = false) ->
    Forall2 (recorded names userAST) reg
            (snd (fold_left wrapStep names (userAST, templateAST, reg))).
Proof.
  induction names as [|n names IH]; intros u t r Hnd Hus.
  - simpl. apply Forall2_same. intros e. repeat split.
  - inversion Hnd as [|? ? Hnin Hnd']; subst.
    assert (Hus' : forall m, In m names -> startsWithUnderscore m = false)
      by (intros; apply Hus; now right).
    cbn [fold_left]. destruct (absentFrom u n) eqn:E.
    + rewrite (wrapStep_absent _ _ _ _ E).
      eapply Forall2_impl; [|apply (IH u (deleteWrapper n t) r Hnd' Hus')].
      intros e e' (Hk & Hp & Ha). repeat split; auto. cbn [existsb].
      destruct (String.eqb (fst e) n) eqn:En; [|exact Ha].
      apply String.eqb_eq in En. rewrite En, E in *. cbn [negb orb].
      rewrite andb_false_r in *.
      destruct (existsb (String.eqb n) names) eqn:Ex; [|exact Ha].
      apply existsb_eqb_in in Ex. contradiction.
    + rewrite (wrapStep_present _ _ _ _ E).
      set (u' := renameAll _ _ u). set (A := findAvailibleAlias u n).
      pose proof (IH u' t (setAlias n A r) Hnd' Hus') as H.
      unfold setAlias in H at 1. apply Forall2_map_left in H.
      eapply Forall2_impl; [|exact H].
      intros e e' (Hk & Hp & Ha). unfold recorded. cbn [existsb].
      destruct (String.eqb (fst e) n) eqn:En; cbn [fst snd placeholder orb] in *.
      * apply String.eqb_eq in En. repeat split; auto.
        rewrite En in *. rewrite E. cbn [negb andb].
        destruct (existsb (String.eqb n) names) eqn:Ex;
          [apply existsb_eqb_in in Ex; contradiction|].
        cbn [andb] in Ha. rewrite Ha. cbn [alias].
        destruct (findAvailibleAlias_spec u n) as (k & _ & Ek & Hk1 & _).
        exists k. auto.
      * repeat split; auto.
        destruct (existsb (String.eqb (fst e)) names) eqn:Ex; cbn [orb andb] in *;
          [|exact Ha].
        apply existsb_eqb_in in Ex.
        unfold u', A in Ha. rewrite absentFrom_renameAll in Ha; auto.
        intros Heq. apply String.eqb_neq in En. contradiction.
Qed.

(** X10: what the loop of [wrapFunctions] records.  For distinct names that
    do not begin with an underscore, every registry entry keeps its name and
    placeholder; the entry of a name of the loop that occurs in the user
    tree gets as alias that name with one or more underscores in front, and
    every other entry keeps the alias it had (the alias of an earlier run
    included). *)
Theorem wrapFunctions_loop_registry
    (names : list string) (userAST templateAST : Node) (reg : Registry) :
  NoDup names ->
  (forall n, In n names -> startsWithUnderscore n = false) ->
  Forall2 (recorded names userAST) reg
          (snd (fold_left wrapStep names (userAST, templateAST, reg))).
Proof. apply wrapStep_fold_recorded. Qed.

Lemma wrapFunctions_loop_registry_witness :
  Forall2 (recorded (keys DATA_FETCHING_FUNCTIONS) reExported)
          DATA_FETCHING_FUNCTIONS
          (snd (fold_left wrapStep (keys DATA_FETCHING_FUNCTIONS)
                          (reExported, templateTree, DATA_FETCHING_FUNCTIONS))).
Proof.
  apply (wrapFunctions_loop_registry (keys DATA_FETCHING_FUNCTIONS)
           reExported templateTree DATA_FETCHING_FUNCTIONS).
  - repeat constructor; simpl; intuition discriminate.
  - intros n [<- | [<- | [<- | []]]]; reflexivity.
Defined.

(** ** The wrapper of the data-fetching functions *)

Lemma updNth_last {A : Type} (f : A -> A) (l : list A) (x : A) :
  updNth (List.length l) f (l ++ [x]) = l ++ [f x].
Proof. induction l as [|y l IH]; simpl; [reflexivity | now rewrite IH]. Qed.

(** X11: [wrapperCore] is transparent: with or without an active
    transaction, the promise it returns is fulfilled with the value the
    user's function gives, and rejected with the error the user's function
    throws or rejects with. *)
Theorem wrapperCore_transparent {C R : Type} (origFunction : DataFetcher C R)
    (context : C) (route : string) (h : Hub) :
  fst (wrapperCore origFunction context route h)
  = match body origFunction context with
    | Returns v => Fulfilled v
    | Throws err | ReturnsRejected err => Rejected err
    end.
Proof.
  unfold wrapperCore, callOriginal.
  destruct (activeTransaction h); destruct (body origFunction context); reflexivity.
Qed.

(** X12: the tracing effects of [wrapperCore].  Without an active
    transaction nothing is traced; a thrown exception is still captured.
    With one, the transaction is renamed to the route with source [route],
    and gets one more child span, after the ones it had, with op
    [nextjs.data] and the description [name (route)], the name being the
    name of the function without leading underscores.  That span is finished
    exactly once when the function returns a value and when it throws, and
    never when the function returns a promise that rejects; the exception is
    captured, once, only when the function throws. *)
Theorem wrapperCore_effects {C R : Type} (origFunction : DataFetcher C R)
    (context : C) (route : string) (h : Hub) :
  let h' := snd (wrapperCore origFunction context route h) in
  capturedExceptions h'
  = capturedExceptions h
    ++ match body origFunction context with Throws err => [err] | _ => [] end /\
  match activeTransaction h with
  | None => activeTransaction h' = None
  | Some transaction =>
      activeTransaction h'
      = Some (mkTransaction route (Some "route")
                (spans transaction
                 ++ [mkSpan "nextjs.data"
                            (stripLeadingUnderscores (functionName origFunction)
                             ++ " (" ++ route ++ ")")%string
                            match body origFunction context with
                            | ReturnsRejected _ => 0
                            | _ => 1
                            end]))
  end.
Proof.
  unfold wrapperCore, callOriginal.
  destruct (activeTransaction h) as [tx|] eqn:E;
    destruct (body origFunction context); simpl;
    unfold finishSpan, captureException; simpl;
    rewrite ?E, ?updNth_last, ?app_nil_r; split; reflexivity.
Qed.

Lemma stripLeadingUnderscores_candidate (k : nat) (s : string) :
  startsWithUnderscore s = false -> stripLeadingUnderscores (candidate k s) = s.
Proof.
  intros H. induction k as [|k IH]; simpl; [|exact IH].
  destruct s as [|c s]; [reflexivity|]. simpl in *. now rewrite H.
Qed.

(** X13: the alias round trip between the loader and the wrapper: for a
    name that does not begin with an underscore, stripping the leading
    underscores of the alias [findAvailibleAlias] allocates, as [wrapperCore]
    does for the span description, gives the name back, whatever the tree. *)
Theorem stripLeadingUnderscores_alias (t : Node) (origName : string) :
  startsWithUnderscore origName = false ->
  stripLeadingUnderscores (findAvailibleAlias t origName) = origName.
Proof.
  intros H. destruct (findAvailibleAlias_spec t origName) as (k & _ & -> & _).
  now apply stripLeadingUnderscores_candidate.
Qed.

Lemma stripLeadingUnderscores_alias_witness :
  stripLeadingUnderscores (findAvailibleAlias reExported "getServerSideProps")
  = "getServerSideProps".
Proof.
  apply (stripLeadingUnderscores_alias reExported "getServerSideProps"). reflexivity.
Defined.

(** ** More of the loader *)

(** X14: what a run of the loader does besides returning text.  When the
    user text is not ESM, or holds none of the three names, the world is
    left as it was.  Otherwise the template path is registered as a
    dependency, once; the user text is parsed with the TSX parser exactly
    when the path of the page ends in [.ts] or [.tsx]; the template is
    parsed, always with the JSX parser, only after the user text parsed; and
    one warning is logged exactly when one of the two fails to parse. *)
Theorem wrapDataFetchersLoader_effects
    (env : Env) (projectDir resourcePath userCode : string) (w : World) :
  registryOk (registry w) ->
  let out := wrapDataFetchersLoader env projectDir resourcePath userCode w in
  let filepath := relative env projectDir resourcePath in
  let templateCode := readFileSync env (templatePath env) in
  if negb (isESM env userCode)
     || forallb (fun functionName => negb (includes functionName userCode))
                (keys DATA_FETCHING_FUNCTIONS)
  then out = (userCode, w)
  else
    dependencies (snd out) = dependencies w ++ [templatePath env] /\
    parseCalls (snd out)
    = parseCalls w
      ++ (userCode, isTSPath filepath)
         :: match parse env (isTSPath filepath) userCode with
            | inl _ => []
            | inr _ => [(templateCode, false)]
            end /\
    warnings (snd out)
    = warnings w
      ++ match parse env (isTSPath filepath) userCode with
         | inl err => [parseWarning filepath err]
         | inr _ =>
             match parse env false templateCode with
             | inl err => [parseWarning filepath err]
             | inr _ => []
             end
         end.
Proof.
  intros Hr out filepath templateCode. unfold out, wrapDataFetchersLoader.
  rewrite (registryOk_keys _ Hr).
  destruct (negb (isESM env userCode)); [reflexivity|]. cbn [orb].
  destruct (forallb _ (keys DATA_FETCHING_FUNCTIONS)); [reflexivity|].
  unfold wrapFunctions, makeAST. fold filepath templateCode. simpl registry.
  destruct (parse env (isTSPath filepath) userCode) as [err | userAST]; simpl.
  { repeat split. }
  destruct (parse env false templateCode) as [err | templateAST]; simpl.
  { rewrite <- app_assoc. repeat split. }
  destruct (fold_left wrapStep _ _) as [[u t] r]. simpl.
  rewrite <- app_assoc, ?app_nil_r. repeat split.
Qed.

Lemma wrapDataFetchersLoader_effects_witness :
  let env := sampleEnv (printNode templateTree) in
  let out := wrapDataFetchersLoader env "/proj" "/proj/pages/index.tsx" pageWithGSSP
                                    initialWorld in
  let filepath := relative env "/proj" "/proj/pages/index.tsx" in
  let templateCode := readFileSync env (templatePath env) in
  if negb (isESM env pageWithGSSP)
     || forallb (fun functionName => negb (includes functionName pageWithGSSP))
                (keys DATA_FETCHING_FUNCTIONS)
  then out = (pageWithGSSP, initialWorld)
  else
    dependencies (snd out) = dependencies initialWorld ++ [templatePath env] /\
    parseCalls (snd out)
    = parseCalls initialWorld
      ++ (pageWithGSSP, isTSPath filepath)
         :: match parse env (isTSPath filepath) pageWithGSSP with
            | inl _ => []
            | inr _ => [(templateCode, false)]
            end /\
    warnings (snd out)
    = warnings initialWorld
      ++ match parse env (isTSPath filepath) pageWithGSSP with
         | inl err => [parseWarning filepath err]
         | inr _ =>
             match parse env false templateCode with
             | inl err => [parseWarning filepath err]
             | inr _ => []
             end
         end.
Proof.
  apply (wrapDataFetchersLoader_effects (sampleEnv (printNode templateTree))
           "/proj" "/proj/pages/index.tsx" pageWithGSSP initialWorld).
  reflexivity.
Defined.

(** X15: when the user text parses and the template does not, the loader
    falls back as for unparsable user text: it returns the user text
    followed by a newline, logs one warning (which names the page, not the
    template) and leaves the registry as it was. *)
Theorem wrapDataFetchersLoader_template_fallback
    (env : Env) (projectDir resourcePath userCode err : string) (userAST : Node)
    (w : World) :
  registryOk (registry w) ->
  isESM env userCode = true ->
  forallb (fun functionName => negb (includes functionName userCode))
          (keys DATA_FETCHING_FUNCTIONS) = false ->
  parse env (isTSPath (relative env projectDir resourcePath)) userCode = inr userAST ->
  parse env false (readFileSync env (templatePath env)) = inl err ->
  let out := wrapDataFetchersLoader env projectDir resourcePath userCode w in
  fst out = (userCode ++ newline)%string /\
  warnings (snd out)
  = warnings w ++ [parseWarning (relative env projectDir resourcePath) err] /\
  registry (snd out) = registry w.
Proof.
  intros Hr Hesm Hpre Hu Ht. unfold wrapDataFetchersLoader.
  rewrite Hesm, (registryOk_keys _ Hr), Hpre. simpl negb. cbv iota.
  unfold wrapFunctions, makeAST. rewrite Hu. simpl. rewrite Ht. simpl.
  rewrite (fillPlaceholders_empty _ Hr). repeat split.
Qed.

Lemma wrapDataFetchersLoader_template_fallback_witness :
  let out := wrapDataFetchersLoader (sampleEnv brokenTemplate)
               "/proj" "/proj/pages/index.js" pageWithGSSP initialWorld in
  fst out = (pageWithGSSP ++ newline)%string /\
  warnings (snd out)
  = warnings initialWorld
    ++ [parseWarning (relative (sampleEnv brokenTemplate) "/proj" "/proj/pages/index.js")
                     "SyntaxError: Unexpected token"] /\
  registry (snd out) = registry initialWorld.
Proof.
  apply (wrapDataFetchersLoader_template_fallback (sampleEnv brokenTemplate)
           "/proj" "/proj/pages/index.js" pageWithGSSP "SyntaxError: Unexpected token"
           (exportedFunction "getServerSideProps") initialWorld); reflexivity.
Defined.

(** X16: filling in the placeholders changes nothing in a text that holds
    none of the three placeholders, whatever aliases the registry holds. *)
Theorem fillPlaceholders_without_placeholders (r : Registry) (code : string) :
  registryOk r ->
  includes "__ORIG_GSSP__" code = false ->
  includes "__ORIG_GSPROPS__" code = false ->
  includes "__ORIG_GSPATHS__" code = false ->
  fillPlaceholders r code = code.
Proof.
  intros Hr H1 H2 H3. destruct (registryOk_inv r Hr) as (a1 & a2 & a3 & ->).
  unfold fillPlaceholders. simpl.
  now rewrite (replace_absent _ _ _ H1), (replace_absent _ _ _ H2),
              (replace_absent _ _ _ H3).
Qed.

Lemma fillPlaceholders_without_placeholders_witness :
  fillPlaceholders (setAlias "getServerSideProps" "_getServerSideProps"
                             DATA_FETCHING_FUNCTIONS) plainText = plainText.
Proof.
  apply (fillPlaceholders_without_placeholders
           (setAlias "getServerSideProps" "_getServerSideProps" DATA_FETCHING_FUNCTIONS)
           plainText); reflexivity.
Defined.

(** ** More of the removal *)

Lemma remove_nil : forall t, remove t [] = t.
Proof.
  induction t as [ty sl nm sh co cm ks IH] using Node_induction.
  rewrite remove_unfold. unfold setKids. simpl. f_equal.
  generalize 0. induction ks as [|c ks IHks]; intros i; simpl; [reflexivity|].
  f_equal; [exact (Forall_inv IH) | exact (IHks (Forall_inv_tail IH) (S i))].
Qed.

(** X17: for a name the template has no wrapper of (no export specifier
    exporting it, no single-binding declaration of it), the deletion of the
    loop of [wrapFunctions] leaves the template tree as it is. *)
Theorem deleteWrapper_nothing_to_delete (functionName : string) (templateAST : Node) :
  findExports templateAST functionName = [] ->
  findDeclarations templateAST functionName = [] ->
  deleteWrapper functionName templateAST = templateAST.
Proof.
  intros He Hd. unfold deleteWrapper. rewrite He, remove_nil, Hd. apply remove_nil.
Qed.

Lemma deleteWrapper_nothing_to_delete_witness :
  deleteWrapper "getInitialProps" templateTree = templateTree.
Proof.
  apply (deleteWrapper_nothing_to_delete "getInitialProps" templateTree); reflexivity.
Defined.

Lemma prune_keeps_child (f : Node -> bool) (p c : Node) :
  In c (kids p) -> f c = false -> In (prune f c) (kids (prune f p)).
Proof.
  intros Hin Hf. rewrite prune_kids. apply in_map, filter_In.
  split; [exact Hin | now rewrite Hf].
Qed.

Lemma prune_keeps_statement (f : Node -> bool) (t d : Node) :
  (forall c, f c = true -> removableType c = true) ->
  (forall p, In p (kids t) -> removableType p = false) ->
  In d (statements t) -> f d = false -> In (prune f d) (statements (prune f t)).
Proof.
  intros Hrem Htop Hin Hd. unfold statements in *.
  apply in_flat_map in Hin. destruct Hin as (p & Hp & Hdp).
  apply in_flat_map. exists (prune f p). split; apply prune_keeps_child; auto.
  destruct (f p) eqn:E; [|reflexivity].
  apply Hrem in E. rewrite (Htop p Hp) in E. discriminate.
Qed.

Lemma declarationFilter_name (n m : string) (d : Node) :
  declarationFilter m d = true -> declarationFilter n d = true -> m = n.
Proof.
  unfold declarationFilter.
  destruct (fieldArray d f_declarations) as [|x [|y l]]; try discriminate.
  destruct (check VariableDeclarator x); cbn [andb]; [|discriminate].
  destruct (field x f_id) as [i|]; [|discriminate].
  destruct (check Identifier i); cbn [andb]; [|discriminate].
  intros H1 H2. apply String.eqb_eq in H1, H2. congruence.
Qed.

Lemma check_exclusive (T T' : NodeType) (n : Node) :
  check T n = true -> T' <> T -> check T' n = false.
Proof.
  unfold check. intros H Hne. apply NodeType_eqb_spec in H. subst T.
  destruct (NodeType_eqb T' (type n)) eqn:E; [|reflexivity].
  apply NodeType_eqb_spec in E. congruence.
Qed.

Lemma declarationMatch_other (n m : string) (d : Node) :
  m <> n -> declarationMatch m d = true ->
  declarationMatch n d = false /\ exportMatch n d = false.
Proof.
  intros Hne H. unfold declarationMatch, exportMatch in *.
  apply andb_true_iff in H. destruct H as [Hty H]. split.
  - rewrite Hty. cbn [andb]. destruct (declarationFilter n d) eqn:E; [|reflexivity].
    exfalso. apply Hne. eapply declarationFilter_name; eauto.
  - rewrite (check_exclusive _ ExportSpecifier _ Hty); [reflexivity | discriminate].
Qed.

Lemma exportMatch_other (n m : string) (s : Node) :
  m <> n -> exportMatch m s = true ->
  declarationMatch n s = false /\ exportMatch n s = false.
Proof.
  intros Hne H. unfold declarationMatch, exportMatch in *.
  apply andb_true_iff in H. destruct H as [Hty H]. split.
  - rewrite (check_exclusive _ VariableDeclaration _ Hty); [reflexivity | discriminate].
  - rewrite Hty. cbn [andb]. unfold exportFilter in *. rewrite Hty in *.
    cbn [andb] in *. destruct (field s f_exported) as [e|]; [|reflexivity].
    apply String.eqb_eq in H. apply String.eqb_neq. congruence.
Qed.

Lemma wfSlots_statement (t d : Node) :
  wfSlots t = true -> In d (statements t) -> wfSlots d = true.
Proof.
  intros Hwf Hin. unfold statements in Hin. apply in_flat_map in Hin.
  destruct Hin as (p & Hp & Hd).
  eapply wfSlots_child; [eapply wfSlots_child; eauto | exact Hd].
Qed.

(** X18: the wrappers can be deleted one by one.  Deleting the wrapper of
    one name keeps, among the statements of the template, the single-binding
    declaration of every other name, and in every statement that is not
    itself a declaration the export specifiers that export another name. *)
Theorem deleteWrapper_keeps_other_wrappers
    (functionName other' : string) (templateAST : Node) :
  other' <> functionName ->
  wfSlots templateAST = true ->
  (forall p, In p (kids templateAST) -> removableType p = false) ->
  (forall d, In d (statements templateAST) -> declarationMatch other' d = true ->
     exists d', In d' (statements (deleteWrapper functionName templateAST)) /\
                declarationMatch other' d' = true) /\
  (forall d s, In d (statements templateAST) -> removableType d = false ->
     In s (kids d) -> exportMatch other' s = true ->
     exists d' s', In d' (statements (deleteWrapper functionName templateAST)) /\
                   In s' (kids d') /\ exportMatch other' s' = true).
Proof.
  intros Hne Hwf Htop. rewrite deleteWrapper_prune.
  set (f1 := exportMatch functionName). set (f2 := declarationMatch functionName).
  pose proof (exportMatch_removable functionName : forall c, f1 c = true -> _) as Hr1.
  pose proof (declarationMatch_removable functionName : forall c, f2 c = true -> _) as Hr2.
  pose proof (prune_wfSlots f1 _ Hwf) as Hwf1.
  pose proof (prune_top_not_removable f1 _ Htop) as Htop1.
  assert (Hnot : forall (f : Node -> bool) c,
             (forall x, f x = true -> removableType x = true) ->
             removableType c = false -> f c = false).
  { intros f c Hf Hc. destruct (f c) eqn:E; [|reflexivity].
    apply Hf in E. congruence. }
  split.
  - intros d Hin Hd.
    destruct (declarationMatch_other functionName other' d Hne Hd) as [Hd2 Hd1].
    pose proof (wfSlots_statement _ _ Hwf Hin) as Hwfd.
    exists (prune f2 (prune f1 d)). split.
    + apply prune_keeps_statement; auto.
      * apply prune_keeps_statement; auto.
      * unfold f2. now rewrite (prune_declarationMatch f1 Hr1 _ d Hwfd).
    + rewrite (prune_declarationMatch f2 Hr2) by (now apply prune_wfSlots).
      now rewrite (prune_declarationMatch f1 Hr1).
  - intros d s Hin Hd Hsd Hs.
    destruct (exportMatch_other functionName other' s Hne Hs) as [Hs2 Hs1].
    pose proof (wfSlots_statement _ _ Hwf Hin) as Hwfd.
    pose proof (wfSlots_child _ _ Hwfd Hsd) as Hwfs.
    exists (prune f2 (prune f1 d)), (prune f2 (prune f1 s)). split; [|split].
    + apply prune_keeps_statement; auto.
      * apply prune_keeps_statement; auto.
      * apply Hnot; auto. now rewrite prune_removableType.
    + apply prune_keeps_child; [apply prune_keeps_child; auto|].
      unfold f2. now rewrite (prune_declarationMatch f1 Hr1 _ s Hwfs).
    + rewrite (prune_exportMatch f2 Hr2) by (now apply prune_wfSlots).
      now rewrite (prune_exportMatch f1 Hr1).
Qed.

Lemma deleteWrapper_keeps_other_wrappers_witness :
  (forall d, In d (statements templateTree) -> declarationMatch "getStaticProps" d = true ->
     exists d', In d' (statements (deleteWrapper "getServerSideProps" templateTree)) /\
                declarationMatch "getStaticProps" d' = true) /\
  (forall d s, In d (statements templateTree) -> removableType d = false ->
     In s (kids d) -> exportMatch "getStaticProps" s = true ->
     exists d' s', In d' (statements (deleteWrapper "getServerSideProps" templateTree)) /\
                   In s' (kids d') /\ exportMatch "getStaticProps" s' = true).
Proof.
  apply (deleteWrapper_keeps_other_wrappers "getServerSideProps" "getStaticProps"
           templateTree).
  - discriminate.
  - reflexivity.
  - intros p [<- | []]. reflexivity.
Defined.

(** ** More of the queries *)

Lemma kidPaths_NoDup : forall l i,
  Forall (fun c => NoDup (paths c)) l -> NoDup (kidPaths i l).
Proof.
  induction l as [|c l IH]; intros i H; simpl; [constructor|].
  apply NoDup_app.
  - apply Injective_map_NoDup; [|exact (Forall_inv H)].
    intros a b Hab. now injection Hab.
  - apply IH. exact (Forall_inv_tail H).
  - intros p Hp Hq. apply in_map_iff in Hp. destruct Hp as (q & <- & _).
    apply in_kidPaths in Hq. destruct Hq as (j & q' & c' & Heq & _).
    injection Heq as Heq _. lia.
Qed.

Lemma paths_NoDup : forall t, NoDup (paths t).
Proof.
  induction t as [ty sl nm sh co cm ks IH] using Node_induction.
  rewrite paths_unfold. simpl. constructor; [|now apply kidPaths_NoDup].
  intros H. apply in_kidPaths in H. destruct H as (j & q & c & Heq & _). discriminate.
Qed.

(** X19: [findIdentifiers] finds the identifiers named by the name below
    the root of the tree, whatever their syntactic role, and only them: its
    paths are exactly the non-empty paths to a node that passes the
    [Identifier] check (a node of the class or of one of its subclasses, all
    encoded as [Identifier]) and carries that name, each path once.  The
    root is never found. *)
Theorem findIdentifiers_exact (t : Node) (s : string) :
  NoDup (findIdentifiers t s) /\
  forall p, In p (findIdentifiers t s) <->
            p <> [] /\ exists n, getNode t p = Some n /\ type n = Identifier
                                 /\ name n = s.
Proof.
  split; [|intros p; apply in_findIdentifiers].
  unfold findIdentifiers, find, descendants. apply NoDup_filter, NoDup_filter.
  pose proof (paths_NoDup t) as H. rewrite paths_unfold in *. simpl.
  now inversion H.
Qed.

(** ** The dialect of a page *)

Lemma dropS_append (s t : string) : dropS (String.length s) (s ++ t) = t.
Proof. induction s as [|c s IH]; simpl; [now destruct t | exact IH]. Qed.

Lemma dropS_split : forall n s, n <= String.length s ->
  exists a, s = (a ++ dropS n s)%string.
Proof.
  induction n as [|n IH]; intros s Hn.
  - exists ""%string. now destruct s.
  - destruct s as [|c s]; simpl in *; [lia|].
    destruct (IH s ltac:(lia)) as (a & Ha). exists (String c a). simpl. now rewrite <- Ha.
Qed.

Lemma endsWith_spec (suffix s : string) :
  endsWith suffix s = true <-> exists a, s = (a ++ suffix)%string.
Proof.
  unfold endsWith. split.
  - intros H. apply andb_true_iff in H. destruct H as [Hlen Heq].
    apply Nat.leb_le in Hlen. apply String.eqb_eq in Heq.
    destruct (dropS_split (String.length s - String.length suffix) s ltac:(lia))
      as (a & Ha).
    exists a. now rewrite Heq in Ha.
  - intros (a & ->). apply andb_true_iff. split.
    + apply Nat.leb_le. rewrite append_length. lia.
    + rewrite append_length.
      replace (String.length a + String.length suffix - String.length suffix)
        with (String.length a) by lia.
      rewrite dropS_append. apply String.eqb_refl.
Qed.

(** X20: the dialect test [/\.tsx?$/] of [wrapFunctions] selects the TSX
    parser exactly for the pages whose path ends in [.ts] or in [.tsx]; for
    every other path the user text goes to the JSX parser. *)
Theorem isTSPath_iff (filepath : string) :
  isTSPath filepath = true <->
  exists a, filepath = (a ++ ".ts")%string \/ filepath = (a ++ ".tsx")%string.
Proof.
  unfold isTSPath. rewrite orb_true_iff, !endsWith_spec. split.
  - intros [(a & H) | (a & H)]; exists a; auto.
  - intros (a & [H | H]); [left | right]; exists a; exact H.
Qed.

(** ** Runs of the renamer that need no re-entry *)

Lemma forallb_pointwise {A : Type} (f g : A -> bool) (l : list A) :
  (forall x, f x = g x) -> forallb f l = forallb g l.
Proof. intros H. induction l as [|x l IH]; simpl; [reflexivity | now rewrite H, IH]. Qed.

Lemma needsNoReentry_shape (t t' : Node) (p : Path) :
  skeleton t' = skeleton t -> needsNoReentry t' p = needsNoReentry t p.
Proof.
  intros Hs. unfold needsNoReentry.
  destruct (ancestor t p 1) as [a| |] eqn:E1.
  - destruct (ancestor_shape _ _ _ _ _ Hs E1) as (a' & -> & Ha).
    rewrite (check_skeleton _ _ _ Ha).
    destruct (ancestor t p 2) as [g| |] eqn:E2.
    + now destruct (ancestor_shape _ _ _ _ _ Hs E2) as (g' & -> & _).
    + destruct (ancestor t' p 2) as [g'| |] eqn:E2'; auto.
      destruct (ancestor_shape _ _ _ _ _ (eq_sym Hs) E2') as (? & ? & _). congruence.
    + destruct (ancestor t' p 2) as [g'| |] eqn:E2'; auto.
      destruct (ancestor_shape _ _ _ _ _ (eq_sym Hs) E2') as (? & ? & _). congruence.
  - destruct (ancestor t' p 1) as [a'| |] eqn:E1'; auto.
    destruct (ancestor_shape _ _ _ _ _ (eq_sym Hs) E1') as (? & ? & _). congruence.
  - destruct (ancestor t' p 1) as [a'| |] eqn:E1'; auto.
    destruct (ancestor_shape _ _ _ _ _ (eq_sym Hs) E1') as (? & ? & _). congruence.
Qed.

Lemma maybeRenameNode_no_reentry rename ast p alias :
  needsNoReentry ast p = true ->
  exists ast', maybeRenameNode rename ast p alias = Ok ast' /\
               skeleton ast' = skeleton ast.
Proof.
  unfold needsNoReentry. intros H.
  destruct (ancestor ast p 1) as [parent| |] eqn:Hp; try discriminate.
  destruct (ancestor ast p 2) as [grandparent| |] eqn:Hg; try discriminate.
  apply negb_true_iff in H.
  destruct (doNotRename parent grandparent p) eqn:Hd.
  - exists ast. split; [eapply maybeRenameNode_exempt; eauto | reflexivity].
  - eexists. split; [eapply maybeRenameNode_plain; eauto|].
    rewrite skeleton_updateNode by apply skeleton_setName.
    apply skeleton_afterShorthand.
Qed.

Lemma forEach_no_reentry rename alias : forall ps ast,
  forallb (needsNoReentry ast) ps = true ->
  exists ast', forEach (fun t nodePath => maybeRenameNode rename t nodePath alias) ps ast
               = Ok ast'.
Proof.
  induction ps as [|p ps IH]; intros ast H; simpl in *; [eauto|].
  apply andb_true_iff in H. destruct H as [Hp Hps].
  destruct (maybeRenameNode_no_reentry rename ast p alias Hp) as (t1 & -> & Hs). simpl.
  apply IH. rewrite <- Hps. apply forallb_pointwise. intros q.
  now apply needsNoReentry_shape.
Qed.

(** X21: [renameIdentifiers] returns, at the first level of the recursion,
    whenever no occurrence of the name is a part of an export specifier (and
    each has the two ancestors the renamer reads), as in a module that
    declares its data-fetching function with [export function ...]: it gives
    back the renamed tree and the alias. *)
Theorem renameIdentifiers_returns_without_reentry
    (fuel : nat) (ast : Node) (origName : string) (newName : option string) :
  findIdentifiers ast origName <> [] ->
  forallb (needsNoReentry ast) (findIdentifiers ast origName) = true ->
  exists ast',
    renameIdentifiers (S fuel) ast origName newName
    = Ok (ast', Some (orElse newName (findAvailibleAlias ast origName))).
Proof.
  intros Hne H. rewrite renameIdentifiers_S.
  destruct (forEach_no_reentry (renameIdentifiers fuel)
              (orElse newName (findAvailibleAlias ast origName)) _ _ H) as (ast' & ->).
  exists ast'. destruct (findIdentifiers ast origName); [congruence | reflexivity].
Qed.

Lemma renameIdentifiers_returns_without_reentry_witness :
  exists ast',
    renameIdentifiers 1 computedAccess "getStaticProps" None
    = Ok (ast', Some (orElse None (findAvailibleAlias computedAccess "getStaticProps"))).
Proof.
  apply (renameIdentifiers_returns_without_reentry 0 computedAccess "getStaticProps" None).
  - vm_compute. discriminate.
  - reflexivity.
Defined.

Lemma plainOccurrence_shape (t t' : Node) (p : Path) :
  skeleton t' = skeleton t -> plainOccurrence t' p = plainOccurrence t p.
Proof.
  intros Hs. unfold plainOccurrence.
  destruct (ancestor t p 1) as [a| |] eqn:E1.
  - destruct (ancestor_shape _ _ _ _ _ Hs E1) as (a' & -> & Ha).
    destruct (ancestor t p 2) as [g| |] eqn:E2.
    + destruct (ancestor_shape _ _ _ _ _ Hs E2) as (g' & -> & Hg).
      now rewrite (doNotRename_skeleton _ _ _ _ p Ha Hg), !(check_skeleton _ _ _ Ha),
                  !(check_skeleton _ _ _ Hg).
    + destruct (ancestor t' p 2) as [g'| |] eqn:E2'; auto.
      destruct (ancestor_shape _ _ _ _ _ (eq_sym Hs) E2') as (? & ? & _). congruence.
    + destruct (ancestor t' p 2) as [g'| |] eqn:E2'; auto.
      destruct (ancestor_shape _ _ _ _ _ (eq_sym Hs) E2') as (? & ? & _). congruence.
  - destruct (ancestor t' p 1) as [a'| |] eqn:E1'; auto.
    destruct (ancestor_shape _ _ _ _ _ (eq_sym Hs) E1') as (? & ? & _). congruence.
  - destruct (ancestor t' p 1) as [a'| |] eqn:E1'; auto.
    destruct (ancestor_shape _ _ _ _ _ (eq_sym Hs) E1') as (? & ? & _). congruence.
Qed.

Lemma maybeRenameNode_plainOccurrence rename ast p alias :
  plainOccurrence ast p = true ->
  maybeRenameNode rename ast p alias = Ok (updateNode (setName alias) ast p).
Proof.
  unfold plainOccurrence. intros H.
  destruct (ancestor ast p 1) as [parent| |] eqn:Hp; try discriminate.
  destruct (ancestor ast p 2) as [grandparent| |] eqn:Hg; try discriminate.
  apply andb_true_iff in H. destruct H as [H H3].
  apply andb_true_iff in H. destruct H as [H1 H2].
  apply negb_true_iff in H1, H2, H3.
  rewrite (maybeRenameNode_plain _ _ _ _ _ _ Hp Hg H1 H2).
  unfold afterShorthand. now rewrite H3.
Qed.

Lemma forEach_plainOccurrence rename alias : forall ps ast,
  forallb (plainOccurrence ast) ps = true ->
  forEach (fun t nodePath => maybeRenameNode rename t nodePath alias) ps ast
  = Ok (renameAll alias ps ast).
Proof.
  unfold renameAll. induction ps as [|p ps IH]; intros ast H; simpl in *; [reflexivity|].
  apply andb_true_iff in H. destruct H as [Hp Hps].
  rewrite (maybeRenameNode_plainOccurrence _ _ _ _ Hp). simpl.
  apply IH. rewrite <- Hps. apply forallb_pointwise. intros q.
  apply plainOccurrence_shape. apply skeleton_updateNode, skeleton_setName.
Qed.

(** X22: where the loop of [wrapFunctions] and the renamer agree.  When
    every occurrence of a name in the user tree is in none of the contexts
    [maybeRenameNode] treats specially (no do-not-rename context, no part of
    an export specifier, no value of a property of an object pattern or
    literal), [renameIdentifiers] returns exactly the user tree and the alias
    that one turn of the loop produces and records. *)
Theorem wrapStep_agrees_with_renameIdentifiers
    (fuel : nat) (userAST templateAST : Node) (reg : Registry) (functionName : string) :
  findIdentifiers userAST functionName <> [] ->
  forallb (plainOccurrence userAST) (findIdentifiers userAST functionName) = true ->
  exists userAST' functionAlias,
    renameIdentifiers (S fuel) userAST functionName None
    = Ok (userAST', Some functionAlias) /\
    wrapStep (userAST, templateAST, reg) functionName
    = (userAST', templateAST, setAlias functionName functionAlias reg).
Proof.
  intros Hne H.
  exists (renameAll (findAvailibleAlias userAST functionName)
                    (findIdentifiers userAST functionName) userAST),
         (findAvailibleAlias userAST functionName).
  split; [|now apply wrapStep_found].
  rewrite renameIdentifiers_S. simpl orElse.
  rewrite (forEach_plainOccurrence _ _ _ _ H). simpl.
  destruct (findIdentifiers userAST functionName); [congruence | reflexivity].
Qed.

Lemma wrapStep_agrees_with_renameIdentifiers_witness :
  exists userAST' functionAlias,
    renameIdentifiers 1 exportFunctionDeclaration "getStaticProps" None
    = Ok (userAST', Some functionAlias) /\
    wrapStep (exportFunctionDeclaration, templateTree, DATA_FETCHING_FUNCTIONS)
             "getStaticProps"
    = (userAST', templateTree,
       setAlias "getStaticProps" functionAlias DATA_FETCHING_FUNCTIONS).
Proof.
  apply (wrapStep_agrees_with_renameIdentifiers 0 exportFunctionDeclaration templateTree
           DATA_FETCHING_FUNCTIONS "getStaticProps").
  - vm_compute. discriminate.
  - vm_compute. reflexivity.
Defined.

(** ** The registry over many runs *)

Lemma keys_tracked_NoDup : NoDup (keys DATA_FETCHING_FUNCTIONS).
Proof. repeat constructor; simpl; intuition discriminate. Qed.

Lemma keys_tracked_no_underscore (n : string) :
  In n (keys DATA_FETCHING_FUNCTIONS) -> startsWithUnderscore n = false.
Proof. intros [<- | [<- | [<- | []]]]; reflexivity. Qed.

Lemma recorded_aliasesOk (names : list string) (u : Node) : forall r r',
  Forall2 (recorded names u) r r' -> aliasesOk r -> aliasesOk r'.
Proof.
  unfold aliasesOk. induction 1 as [|e e' r r' (Hk & _ & Ha) _ IH]; intros Hok;
    [constructor|].
  inversion Hok as [|? ? He Hr]; subst. constructor; [|now apply IH].
  rewrite Hk. destruct (_ && _); [now right | now rewrite Ha].
Qed.

Lemma wrapDataFetchersLoader_aliasesOk
    (env : Env) (projectDir resourcePath userCode : string) (w : World) :
  registryOk (registry w) -> aliasesOk (registry w) ->
  aliasesOk (registry (snd (wrapDataFetchersLoader env projectDir resourcePath
                                                  userCode w))).
Proof.
  intros Hr Hok. unfold wrapDataFetchersLoader.
  destruct (negb (isESM env userCode)); [exact Hok|].
  destruct (forallb _ _); [exact Hok|].
  unfold wrapFunctions, makeAST. simpl registry.
  destruct (parse env _ userCode) as [err | userAST]; [exact Hok|].
  destruct (parse env false _) as [err | templateAST]; [exact Hok|].
  pose proof (wrapStep_fold_recorded (keys (registry w)) userAST
                (removeComments templateAST) (registry w)) as H.
  rewrite (registryOk_keys _ Hr) in H.
  specialize (H keys_tracked_NoDup keys_tracked_no_underscore).
  rewrite (registryOk_keys _ Hr).
  destruct (fold_left wrapStep _ _) as [[u t] r]. simpl in *.
  eapply recorded_aliasesOk; eauto.
Qed.

Lemma includes_dollar_candidate (k : nat) (s : string) :
  includes "$" s = false -> includes "$" (candidate k s) = false.
Proof. intros H. induction k as [|k IH]; simpl; [exact H | exact IH]. Qed.

(** X23: the registry over the life of the module.  After any number of
    runs of the loader, on any pages, the registry still holds the three
    tracked names with their placeholders, in the order of the module, and
    each alias is either empty or the tracked name with one or more
    underscores in front; so an alias never holds a [$], and stripping its
    underscores gives the empty string or the tracked name. *)
Theorem runLoader_registry_invariant (env : Env) (pages : list (string * string * string)) :
  let r := registry (runLoader env pages initialWorld) in
  registryOk r /\ aliasesOk r /\
  Forall (fun e => includes "$" (alias (snd e)) = false /\
                   (stripLeadingUnderscores (alias (snd e)) = ""
                    \/ stripLeadingUnderscores (alias (snd e)) = fst e)) r.
Proof.
  assert (H : forall w, registryOk (registry w) -> aliasesOk (registry w) ->
                        registryOk (registry (runLoader env pages w)) /\
                        aliasesOk (registry (runLoader env pages w))).
  { unfold runLoader. induction pages as [|page pages IH]; intros w Hr Hok; simpl;
      [auto|].
    apply IH; [now apply wrapDataFetchersLoader_registryOk
              | now apply wrapDataFetchersLoader_aliasesOk]. }
  destruct (H initialWorld) as [Hr Hok].
  { reflexivity. }
  { unfold aliasesOk. repeat constructor. }
  simpl. split; [exact Hr|]. split; [exact Hok|].
  assert (Hkeys : forall e, In e (registry (runLoader env pages initialWorld)) ->
                            startsWithUnderscore (fst e) = false).
  { intros e He. apply keys_tracked_no_underscore.
    rewrite <- (registryOk_keys _ Hr). now apply in_map. }
  assert (Hdollar : forall e, In e (registry (runLoader env pages initialWorld)) ->
                              includes "$" (fst e) = false).
  { intros e He. assert (Hin : In (fst e) (keys DATA_FETCHING_FUNCTIONS))
      by (rewrite <- (registryOk_keys _ Hr); now apply in_map).
    destruct Hin as [<- | [<- | [<- | []]]]; reflexivity. }
  unfold aliasesOk in Hok. rewrite Forall_forall in *. intros e He.
  destruct (Hok e He) as [-> | (k & _ & ->)]; [split; [reflexivity | now left]|].
  split; [apply includes_dollar_candidate; now apply Hdollar|].
  right. apply stripLeadingUnderscores_candidate. now apply Hkeys.
Qed.

(* ================================================================== *)
(** * The renamer returns *)
(* ================================================================== *)

(** ** Lists *)

Lemma firstIndex_le {X : Type} (f : X -> bool) (l : list X) :
  firstIndex f l <= List.length l.
Proof. induction l as [|x l IH]; simpl; [lia|]. destruct (f x); lia. Qed.

Lemma firstIndex_app_le {X : Type} (f : X -> bool) (l1 l2 : list X) (x : X) :
  f x = true -> firstIndex f (l1 ++ x :: l2) <= List.length l1.
Proof.
  intros Hx. induction l1 as [|y l1 IH]; simpl; [now rewrite Hx|].
  destruct (f y); lia.
Qed.

Lemma firstIndex_app_eq {X : Type} (f : X -> bool) (l1 l2 : list X) (x : X) :
  (forall y, In y l1 -> f y = false) -> f x = true ->
  firstIndex f (l1 ++ x :: l2) = List.length l1.
Proof.
  intros H Hx. induction l1 as [|y l1 IH]; simpl; [now rewrite Hx|].
  rewrite (H y) by (now left). f_equal. apply IH. intros z Hz. apply H. now right.
Qed.

Lemma filter_length_le {X : Type} (f g : X -> bool) (l : list X) :
  (forall x, In x l -> f x = true -> g x = true) ->
  List.length (filter f l) <= List.length (filter g l).
Proof.
  induction l as [|x l IH]; intros H; simpl; [lia|].
  assert (IH' : List.length (filter f l) <= List.length (filter g l))
    by (apply IH; intros y Hy; apply H; now right).
  destruct (f x) eqn:Ef.
  - rewrite (H x) by auto using in_eq. simpl. lia.
  - destruct (g x); simpl; lia.
Qed.

Lemma filter_length_lt {X : Type} (f g : X -> bool) (l : list X) (x : X) :
  (forall y, In y l -> f y = true -> g y = true) ->
  In x l -> g x = true -> f x = false ->
  List.length (filter f l) < List.length (filter g l).
Proof.
  induction l as [|y l IH]; intros H Hin Hg Hf; [destruct Hin|]. simpl.
  assert (Hle : List.length (filter f l) <= List.length (filter g l))
    by (apply filter_length_le; intros z Hz; apply H; now right).
  destruct Hin as [-> | Hin].
  - rewrite Hf, Hg. simpl. lia.
  - assert (IH' : List.length (filter f l) < List.length (filter g l))
      by (apply IH; auto; intros z Hz; apply H; now right).
    destruct (f y) eqn:Ef.
    + rewrite (H y) by auto using in_eq. simpl. lia.
    + destruct (g y); simpl; lia.
Qed.

Lemma NoDup_split_eq {X : Type} (x : X) : forall l1 l2 l1' l2',
  NoDup (l1 ++ x :: l2) -> l1 ++ x :: l2 = l1' ++ x :: l2' -> l1 = l1'.
Proof.
  induction l1 as [|y l1 IH]; intros l2 l1' l2' Hnd Heq.
  - destruct l1' as [|z l1']; [reflexivity|]. simpl in *.
    injection Heq as _ Heq. apply NoDup_cons_iff in Hnd. destruct Hnd as [Hnin _].
    exfalso. apply Hnin. rewrite Heq. apply in_elt.
  - destruct l1' as [|z l1']; simpl in *.
    + injection Heq as Hy _. apply NoDup_cons_iff in Hnd. destruct Hnd as [Hnin _].
      exfalso. apply Hnin. rewrite Hy. apply in_elt.
    + injection Heq as Hy Heq. apply NoDup_cons_iff in Hnd. destruct Hnd as [_ Hnd].
      f_equal; [exact Hy | eapply IH; eauto].
Qed.

(** ** One step of the renamer, outside the do-not-rename contexts *)

Lemma maybeRenameNode_step rename ast p alias parent grandparent :
  ancestor ast p 1 = Ok parent -> ancestor ast p 2 = Ok grandparent ->
  doNotRename parent grandparent p = false ->
  maybeRenameNode rename ast p alias
  = if reenters parent p
    then r <-- rename (afterShorthand ast parent grandparent p)
                      (orElse (optName (field parent f_local)) "") (Some alias) ;;
         Ok (updateNode (setName alias) (fst r) p)
    else if check ExportSpecifier parent
         then match field parent f_exported with
              | Some _ =>
                  Ok (updateNode (setName alias)
                                 (afterShorthand ast parent grandparent p) p)
              | None => Throw
              end
         else Ok (updateNode (setName alias)
                             (afterShorthand ast parent grandparent p) p).
Proof.
  intros Hp Hg. unfold maybeRenameNode. rewrite Hp, Hg. simpl.
  unfold doNotRename, afterShorthand, reenters, check.
  destruct (type parent) eqn:Tp; destruct (type grandparent) eqn:Tg; simpl;
    repeat match goal with
           | |- context [isField parent ?F p] => destruct (isField parent F p) eqn:?
           end; simpl; intros H; try discriminate; try reflexivity;
    destruct (field parent f_exported) as [e|]; simpl; try reflexivity;
    destruct (negb (optString_eqb (Some (name e)) (optName (field parent f_local))));
    simpl; try reflexivity;
    match goal with
    | |- context [rename ?a ?b ?c] => destruct (rename a b c) as [[? ?]| |]; reflexivity
    end.
Qed.

(** ** Well-shaped trees *)

Lemma specifierShape_skeleton (n : Node) : specifierShape (skeleton n) = specifierShape n.
Proof.
  unfold specifierShape. rewrite skeleton_kids.
  destruct (kids n) as [|l [|e [|x ks]]]; simpl; try reflexivity.
  unfold check. rewrite !skeleton_type, !skeleton_slot, !skeleton_kids.
  destruct (kids l), (kids e); reflexivity.
Qed.

Lemma nodeSatisfies_shape (f : Node -> bool) (t t' : Node) (p : Path) :
  (forall n, f (skeleton n) = f n) -> skeleton t' = skeleton t ->
  nodeSatisfies t' f p = nodeSatisfies t f p.
Proof.
  intros Hf Hs. unfold nodeSatisfies. pose proof (shape_getNode _ _ Hs p) as E.
  destruct (getNode t' p) as [a|], (getNode t p) as [b|]; try discriminate; auto.
  simpl in E. injection E as E. now rewrite <- (Hf a), E, Hf.
Qed.

Lemma wellShaped_shape (t t' : Node) :
  skeleton t' = skeleton t -> wellShaped t' = wellShaped t.
Proof.
  intros Hs. unfold wellShaped. rewrite !(shape_find _ _ Hs). f_equal.
  apply forallb_pointwise. intros p.
  apply nodeSatisfies_shape; auto using specifierShape_skeleton.
Qed.

Lemma named_iff (t : Node) (s : string) (p : Path) :
  nodeSatisfies t (identifierFilter s) p = true <-> nameAt t p = Some s.
Proof.
  unfold nodeSatisfies, identifierFilter, nameAt.
  destruct (getNode t p) as [n|]; simpl; [|split; discriminate].
  rewrite String.eqb_eq. split; [now intros -> | now intros [= ->]].
Qed.

Lemma ancestor_exists (t : Node) (p : Path) (k : nat) :
  getNode t p <> None -> k <= List.length p -> exists a, ancestor t p k = Ok a.
Proof.
  intros Hn Hk. unfold ancestor.
  replace (Nat.ltb (List.length p) k) with false by (symmetry; apply Nat.ltb_ge; lia).
  destruct (getNode t p) as [n|] eqn:E; [|congruence].
  rewrite <- (firstn_skipn (List.length p - k) p) in E at 1.
  destruct (getNode_prefix _ _ _ _ E) as (m & ->). eauto.
Qed.

Lemma wellShaped_identifier (t : Node) (p : Path) :
  wellShaped t = true -> In p (find t Identifier) ->
  2 <= List.length p /\
  exists parent grandparent,
    ancestor t p 1 = Ok parent /\ ancestor t p 2 = Ok grandparent.
Proof.
  unfold wellShaped. intros H Hin. apply andb_true_iff in H. destruct H as [H _].
  rewrite forallb_forall in H. specialize (H p Hin). apply Nat.leb_le in H.
  split; [exact H|].
  apply in_find in Hin. destruct Hin as [_ (n & Hn & _)].
  destruct (ancestor_exists t p 1) as (a & Ha); [congruence | lia |].
  destruct (ancestor_exists t p 2) as (g & Hg); [congruence | lia |]. eauto.
Qed.

Lemma wellShaped_specifier (t : Node) (sp : Path) (spec : Node) :
  wellShaped t = true -> sp <> [] -> getNode t sp = Some spec ->
  check ExportSpecifier spec = true -> specifierShape spec = true.
Proof.
  unfold wellShaped. intros H Hne Hs Hc. apply andb_true_iff in H. destruct H as [_ H].
  rewrite forallb_forall in H.
  assert (Hin : In sp (find t ExportSpecifier)).
  { apply in_find. split; [exact Hne|]. exists spec. split; [exact Hs|].
    symmetry. now apply NodeType_eqb_spec. }
  specialize (H sp Hin). unfold nodeSatisfies in H. now rewrite Hs in H.
Qed.

Lemma isNil_true {X : Type} (l : list X) : isNil l = true -> l = [].
Proof. destruct l; [reflexivity | discriminate]. Qed.

Lemma specifierShape_parts (spec : Node) :
  specifierShape spec = true ->
  exists l e,
    kids spec = [l; e] /\ check Identifier l = true /\ check Identifier e = true /\
    kids l = [] /\ kids e = [] /\
    fieldIndex spec f_local = Some 0 /\ fieldIndex spec f_exported = Some 1 /\
    field spec f_local = Some l /\ field spec f_exported = Some e.
Proof.
  unfold specifierShape. destruct (kids spec) as [|l [|e [|x ks]]] eqn:Ek;
    try discriminate. intros H.
  apply andb_true_iff in H. destruct H as [H1 H2].
  apply andb_true_iff in H1. destruct H1 as [H1 Hkl].
  apply andb_true_iff in H1. destruct H1 as [Hcl Hsl].
  apply andb_true_iff in H2. destruct H2 as [H2 Hke].
  apply andb_true_iff in H2. destruct H2 as [Hce Hse].
  apply Field_eqb_spec in Hsl, Hse. apply isNil_true in Hkl, Hke.
  exists l, e.
  assert (Hl : fieldIndex spec f_local = Some 0).
  { unfold fieldIndex. rewrite Ek. simpl. rewrite <- Hsl. reflexivity. }
  assert (He : fieldIndex spec f_exported = Some 1).
  { unfold fieldIndex. rewrite Ek. simpl. rewrite <- Hsl, <- Hse. reflexivity. }
  split; [reflexivity|]. repeat (split; [assumption|]).
  split; unfold field; [rewrite Hl | rewrite He]; rewrite Ek; reflexivity.
Qed.

(** An identifier whose parent is an export specifier is its local or its
    exported part. *)
Lemma specifier_child (t : Node) (p : Path) (parent : Node) :
  wellShaped t = true -> In p (find t Identifier) ->
  ancestor t p 1 = Ok parent -> check ExportSpecifier parent = true ->
  exists sp l e,
    sp <> [] /\ getNode t sp = Some parent /\ kids parent = [l; e] /\
    check Identifier l = true /\ check Identifier e = true /\
    kids l = [] /\ kids e = [] /\
    field parent f_local = Some l /\ field parent f_exported = Some e /\
    getNode t (sp ++ [0]) = Some l /\ getNode t (sp ++ [1]) = Some e /\
    ((p = sp ++ [0] /\ isField parent f_exported p = false) \/
     (p = sp ++ [1] /\ isField parent f_exported p = true)).
Proof.
  intros Hw Hin Hp Hc.
  destruct (wellShaped_identifier _ _ Hw Hin) as [Hlen _].
  destruct (ancestor_parentPath _ _ _ Hp) as [Hpar _].
  assert (Hne : p <> []) by (intros ->; simpl in Hlen; lia).
  assert (Hsp : parentPath p <> []).
  { unfold parentPath. intros E.
    pose proof (app_removelast_last 0 Hne) as Hsplit. rewrite E in Hsplit.
    rewrite Hsplit in Hlen. simpl in Hlen. lia. }
  pose proof (wellShaped_specifier _ _ _ Hw Hsp Hpar Hc) as Hshape.
  destruct (specifierShape_parts _ Hshape)
    as (l & e & Hk & Hcl & Hce & Hkl & Hke & Hil & Hie & Hfl & Hfe).
  exists (parentPath p), l, e.
  assert (G0 : getNode t (parentPath p ++ [0]) = Some l)
    by (rewrite getNode_app, Hpar; simpl; now rewrite Hk).
  assert (G1 : getNode t (parentPath p ++ [1]) = Some e)
    by (rewrite getNode_app, Hpar; simpl; now rewrite Hk).
  repeat (split; [assumption|]).
  pose proof (app_removelast_last 0 Hne) as Hsplit. fold (parentPath p) in Hsplit.
  apply in_find in Hin. destruct Hin as [_ (n & Hn & _)].
  rewrite Hsplit, getNode_app, Hpar in Hn. simpl in Hn. rewrite Hk in Hn.
  destruct (last p 0) as [|[|i]] eqn:El; simpl in Hn.
  - left. split; [exact Hsplit|]. rewrite Hsplit.
    eapply isField_other; eauto.
  - right. split; [exact Hsplit|]. rewrite Hsplit. now apply isField_child.
  - destruct i; discriminate.
Qed.

(** ** The order of the visit *)

Lemma kidPaths_nth : forall l i j c,
  nth_error l i = Some c ->
  exists P Q, kidPaths j l = P ++ map (cons (j + i)) (paths c) ++ Q.
Proof.
  induction l as [|x l IH]; intros i j c H; [destruct i; discriminate|].
  destruct i as [|i]; simpl in *.
  - injection H as ->. exists [], (kidPaths (S j) l). now rewrite Nat.add_0_r.
  - destruct (IH i (S j) c H) as (P & Q & E).
    exists (map (cons j) (paths x) ++ P), Q.
    rewrite E, <- app_assoc. replace (j + S i) with (S j + i) by lia. reflexivity.
Qed.

(** The two parts of a specifier are visited one after the other, the local
    part first. *)
Lemma paths_specifier : forall sp t spec l e,
  getNode t sp = Some spec -> kids spec = [l; e] -> kids l = [] -> kids e = [] ->
  exists X Y, paths t = X ++ sp :: (sp ++ [0]) :: (sp ++ [1]) :: Y.
Proof.
  induction sp as [|i sp IH]; intros t spec l e H Hk Hl He; simpl in H.
  - injection H as ->. exists [], []. rewrite paths_unfold, Hk. simpl.
    rewrite !paths_unfold, Hl, He. reflexivity.
  - destruct (nth_error (kids t) i) as [c|] eqn:E; [|discriminate].
    destruct (IH c spec l e H Hk Hl He) as (X & Y & EX).
    destruct (kidPaths_nth _ _ 0 _ E) as (P & Q & EP).
    rewrite paths_unfold, EP, EX. simpl. rewrite map_app. simpl.
    exists ([] :: P ++ map (cons i) X), (map (cons i) Y ++ Q).
    simpl. rewrite <- !app_assoc. reflexivity.
Qed.

Lemma find_specifier (t : Node) (sp : Path) (spec l e : Node) :
  sp <> [] -> getNode t sp = Some spec -> check ExportSpecifier spec = true ->
  kids spec = [l; e] -> kids l = [] -> kids e = [] ->
  check Identifier l = true -> check Identifier e = true ->
  exists X Y, find t Identifier = X ++ (sp ++ [0]) :: (sp ++ [1]) :: Y.
Proof.
  intros Hne Hs Hc Hk Hl He Hcl Hce.
  destruct (paths_specifier _ _ _ _ _ Hs Hk Hl He) as (X & Y & E).
  destruct X as [|x X].
  - rewrite paths_unfold in E. simpl in E. injection E as E _. congruence.
  - assert (G0 : getNode t (sp ++ [0]) = Some l)
      by (rewrite getNode_app, Hs; simpl; now rewrite Hk).
    assert (G1 : getNode t (sp ++ [1]) = Some e)
      by (rewrite getNode_app, Hs; simpl; now rewrite Hk).
    assert (N : nodeSatisfies t (check Identifier) sp = false).
    { unfold nodeSatisfies. rewrite Hs. unfold check in *.
      apply NodeType_eqb_spec in Hc. now rewrite <- Hc. }
    assert (N0 : nodeSatisfies t (check Identifier) (sp ++ [0]) = true)
      by (unfold nodeSatisfies; now rewrite G0).
    assert (N1 : nodeSatisfies t (check Identifier) (sp ++ [1]) = true)
      by (unfold nodeSatisfies; now rewrite G1).
    unfold find, descendants. rewrite E. cbn [tl app].
    rewrite filter_app. cbn [filter]. rewrite N, N0, N1. eauto.
Qed.

Lemma find_NoDup (t : Node) (T : NodeType) : NoDup (find t T).
Proof.
  unfold find, descendants. apply NoDup_filter.
  pose proof (paths_NoDup t) as H. rewrite paths_unfold in *. simpl.
  now inversion H.
Qed.

(** ** The rank of a call *)

Lemma pending_mono (A : string) (t tc : Node) (q : Path) :
  renamedTo A t tc -> pending A tc q = true -> pending A t q = true.
Proof.
  intros [Hs Hn] H. unfold pending in *.
  rewrite (renamable_shape _ _ q Hs) in H.
  apply andb_true_iff in H. destruct H as [-> H]. simpl.
  apply negb_true_iff in H. apply negb_true_iff.
  destruct (nodeSatisfies t (identifierFilter A) q) eqn:E; [|reflexivity].
  apply named_iff in E.
  assert (E' : nameAt tc q = Some A) by (destruct (Hn q) as [-> | ->]; auto).
  apply named_iff in E'. congruence.
Qed.

Lemma pendingCount_le (A : string) (t tc : Node) :
  renamedTo A t tc -> pendingCount A tc <= pendingCount A t.
Proof.
  intros H. unfold pendingCount. rewrite (shape_find _ _ (proj1 H)).
  apply filter_length_le. intros q _. now apply pending_mono.
Qed.

Lemma pendingCount_lt (A : string) (t tc : Node) (q : Path) :
  renamedTo A t tc -> In q (find t Identifier) -> pending A t q = true ->
  nameAt tc q = Some A -> pendingCount A tc < pendingCount A t.
Proof.
  intros H Hin Hq Hname. unfold pendingCount. rewrite (shape_find _ _ (proj1 H)).
  apply filter_length_lt with (x := q); auto.
  - intros y _. now apply pending_mono.
  - unfold pending. apply named_iff in Hname. rewrite Hname. apply andb_false_r.
Qed.

Lemma renameRank_budget (A : string) (t : Node) (N : string) :
  renameRank A t N < renameBudget t.
Proof.
  unfold renameRank, renameBudget, pendingCount, firstRenamable.
  pose proof (filter_length_le (pending A t) (fun _ => true) (find t Identifier)
                (fun _ _ _ => eq_refl)) as H1.
  rewrite (forallb_filter_id (fun _ : Path => true)) in H1
    by (apply forallb_forall; reflexivity).
  pose proof (firstIndex_le
                (fun p => renamable t p && nodeSatisfies t (identifierFilter N) p)
                (find t Identifier)) as H2.
  nia.
Qed.

Lemma rank_lt_progress (A : string) (t tc : Node) (N L : string) :
  renamedTo A t tc -> pendingCount A tc < pendingCount A t ->
  renameRank A tc L < renameRank A t N.
Proof.
  intros H Hlt. unfold renameRank, firstRenamable.
  rewrite (shape_find _ _ (proj1 H)).
  pose proof (firstIndex_le
                (fun p => renamable tc p && nodeSatisfies tc (identifierFilter L) p)
                (find t Identifier)).
  nia.
Qed.

Lemma rank_lt_position (A : string) (t tc : Node) (N L : string) :
  renamedTo A t tc -> firstRenamable tc L < firstRenamable t N ->
  renameRank A tc L < renameRank A t N.
Proof.
  intros H Hlt. unfold renameRank. rewrite (shape_find _ _ (proj1 H)).
  pose proof (pendingCount_le _ _ _ H). nia.
Qed.

(** ** Closed specifiers *)

Lemma aliasClosed_parts (A : string) (t : Node) :
  wellShaped t = true -> aliasClosed A t = true -> partsClosed A t.
Proof.
  intros Hw H sp Hin H1. unfold aliasClosed in H. rewrite forallb_forall in H.
  specialize (H sp Hin). apply in_find in Hin.
  destruct Hin as [Hne (spec & Hs & Hty)].
  assert (Hc : check ExportSpecifier spec = true)
    by (unfold check; rewrite Hty; reflexivity).
  destruct (specifierShape_parts _ (wellShaped_specifier _ _ _ Hw Hne Hs Hc))
    as (l & e & Hk & _ & _ & _ & _ & _ & _ & Hfl & Hfe).
  unfold nodeSatisfies, specifierClosed in H. rewrite Hs, Hfe, Hfl in H.
  unfold nameAt in *. rewrite getNode_app, Hs in *. simpl in *. rewrite Hk in *.
  simpl in *. injection H1 as H1. rewrite H1, String.eqb_refl in H. simpl in H.
  apply String.eqb_eq in H. now rewrite H.
Qed.

Lemma fresh_parts (A : string) (t : Node) :
  wellShaped t = true -> findIdentifiers t A = [] -> partsClosed A t.
Proof.
  intros Hw H sp Hin H1. exfalso. apply in_find in Hin.
  destruct Hin as [Hne (spec & Hs & Hty)].
  assert (Hc : check ExportSpecifier spec = true)
    by (unfold check; rewrite Hty; reflexivity).
  destruct (specifierShape_parts _ (wellShaped_specifier _ _ _ Hw Hne Hs Hc))
    as (l & e & Hk & _ & Hce & _).
  assert (G1 : getNode t (sp ++ [1]) = Some e)
    by (rewrite getNode_app, Hs; simpl; now rewrite Hk).
  assert (Hin : In (sp ++ [1]) (findIdentifiers t A)).
  { apply in_findIdentifiers. split; [now destruct sp|]. exists e.
    split; [exact G1|]. split.
    - unfold check in Hce. apply NodeType_eqb_spec in Hce. auto.
    - unfold nameAt in H1. rewrite G1 in H1. now injection H1. }
  rewrite H in Hin. exact Hin.
Qed.

Lemma partsClosed_names (A : string) (t t' : Node) :
  skeleton t' = skeleton t -> (forall q, nameAt t' q = nameAt t q) ->
  partsClosed A t -> partsClosed A t'.
Proof.
  intros Hs Hn H sp Hin H1. rewrite (shape_find _ _ Hs) in Hin.
  rewrite Hn in *. now apply H.
Qed.

Lemma partsClosed_setName (A : string) (t : Node) (p : Path) :
  wellShaped t = true -> partsClosed A t ->
  (forall sp, In sp (find t ExportSpecifier) -> p = sp ++ [1] ->
              nameAt t (sp ++ [0]) = Some A) ->
  partsClosed A (updateNode (setName A) t p).
Proof.
  intros Hw H Hp sp Hin H1.
  rewrite (shape_find _ _ (proj1 (renamedTo_setName A t p))) in Hin.
  destruct (list_eq_dec Nat.eq_dec p (sp ++ [0])) as [-> | Hne0].
  - apply nameAt_setName_same. apply in_find in Hin.
    destruct Hin as [Hne (spec & Hs & Hty)].
    assert (Hc : check ExportSpecifier spec = true)
      by (unfold check; rewrite Hty; reflexivity).
    destruct (specifierShape_parts _ (wellShaped_specifier _ _ _ Hw Hne Hs Hc))
      as (l & e & Hk & _).
    rewrite getNode_app, Hs. simpl. rewrite Hk. discriminate.
  - rewrite nameAt_setName_other by congruence.
    destruct (list_eq_dec Nat.eq_dec p (sp ++ [1])) as [-> | Hne1].
    + now apply Hp.
    + rewrite nameAt_setName_other in H1 by congruence. now apply H.
Qed.

Lemma afterShorthand_specifier (ast parent grandparent : Node) (p : Path) :
  check Property parent = false -> afterShorthand ast parent grandparent p = ast.
Proof. intros H. unfold afterShorthand. now rewrite H. Qed.

Lemma check_specifier_not_property (n : Node) :
  check ExportSpecifier n = true -> check Property n = false.
Proof.
  unfold check. intros H. apply NodeType_eqb_spec in H. now rewrite <- H.
Qed.

Lemma partsClosed_afterShorthand (A : string) (ast parent grandparent : Node) (p : Path) :
  partsClosed A ast -> partsClosed A (afterShorthand ast parent grandparent p).
Proof.
  apply partsClosed_names; [apply skeleton_afterShorthand|].
  intros q. unfold afterShorthand.
  destruct (_ && _); [apply nameAt_setShorthand | reflexivity].
Qed.

(** ** A pass of the renamer returns *)

Lemma passInvariant_skip (A N : string) (t : Node) (pre : list Path) (tc : Node)
    (p : Path) :
  nodeSatisfies t (identifierFilter N) p = false \/ renamable t p = false ->
  passInvariant A N t pre tc -> passInvariant A N t (pre ++ [p]) tc.
Proof.
  intros Hp (Hren & Hcl & Hdone & Hprog). split; [exact Hren|]. split; [exact Hcl|].
  split.
  - intros q Hq Hn Hr. apply in_app_or in Hq. destruct Hq as [Hq | [<- | []]]; auto.
    exfalso. destruct Hp as [Hp | Hp]; [|congruence].
    apply named_iff in Hn. congruence.
  - destruct Hprog as [H | [H | H]]; auto. right. right.
    intros q Hq. apply in_app_or in Hq. destruct Hq as [Hq | [<- | []]]; auto.
    destruct Hp as [-> | ->]; [apply andb_false_r | reflexivity].
Qed.

Lemma passInvariant_renamed (A N : string) (t : Node) (pre : list Path) (tc tc' : Node)
    (p : Path) :
  In p (find t Identifier) ->
  nodeSatisfies t (identifierFilter N) p = true -> renamable t p = true ->
  passInvariant A N t pre tc ->
  renamedTo A tc tc' -> partsClosed A tc' -> nameAt tc' p = Some A ->
  passInvariant A N t (pre ++ [p]) tc'.
Proof.
  intros Hin Hn Hr (Hren & _ & Hdone & _) Hstep Hcl Hp.
  assert (Hren' : renamedTo A t tc') by (eapply renamedTo_trans; eauto).
  split; [exact Hren'|]. split; [exact Hcl|]. split.
  - intros q Hq Hnq Hrq. apply in_app_or in Hq. destruct Hq as [Hq | [<- | []]]; auto.
    eapply renamedTo_keeps; [exact Hstep | auto].
  - destruct (string_dec N A) as [-> | Hne]; [now left|]. right. left.
    apply pendingCount_lt with (q := p); auto.
    unfold pending. rewrite Hr. simpl. apply negb_true_iff.
    destruct (nodeSatisfies t (identifierFilter A) p) eqn:E; [|reflexivity].
    apply named_iff in Hn, E. congruence.
Qed.

Section Pass.
Variables (A : string) (fuel : nat).
Hypothesis HA : A <> "".
Hypothesis IHfuel : forall t N,
  wellShaped t = true -> partsClosed A t -> renameRank A t N < fuel ->
  exists t' r, renameIdentifiers fuel t N (Some A) = Ok (t', r) /\ partsClosed A t'.
Variables (t : Node) (N : string).
Hypothesis Hw : wellShaped t = true.
Hypothesis Hrank : renameRank A t N <= fuel.

(** The step for an identifier named [N] outside the do-not-rename
    contexts: it returns, with the identifier named [A]. *)
Lemma pass_step (pre : list Path) (p : Path) (post : list Path) (tc : Node) :
  find t Identifier = pre ++ p :: post ->
  nodeSatisfies t (identifierFilter N) p = true ->
  renamable t p = true ->
  passInvariant A N t pre tc ->
  exists tc', maybeRenameNode (renameIdentifiers fuel) tc p A = Ok tc' /\
              renamedTo A tc tc' /\ partsClosed A tc' /\ nameAt tc' p = Some A.
Proof.
  intros Hsplit Hnamed Hrenamable (Hren & Hcl & Hdone & Hprog).
  pose proof (proj1 Hren) as Hshape.
  assert (Hin : In p (find t Identifier)) by (rewrite Hsplit; apply in_elt).
  assert (Hwc : wellShaped tc = true)
    by (rewrite (wellShaped_shape _ _ Hshape); exact Hw).
  assert (Hinc : In p (find tc Identifier))
    by (rewrite (shape_find _ _ Hshape); exact Hin).
  destruct (wellShaped_identifier _ _ Hwc Hinc) as [_ (parent & gp & Hp & Hg)].
  assert (Hd : doNotRename parent gp p = false).
  { rewrite <- (renamable_shape _ _ p Hshape) in Hrenamable.
    unfold renamable in Hrenamable. rewrite Hp, Hg in Hrenamable.
    now apply negb_true_iff in Hrenamable. }
  assert (Hgetc : exists n, getNode tc p = Some n).
  { apply in_find in Hinc. destruct Hinc as [_ (n & Hn & _)]. eauto. }
  destruct Hgetc as (n & Hn).
  rewrite (maybeRenameNode_step _ _ _ _ _ _ Hp Hg Hd).
  destruct (check ExportSpecifier parent) eqn:Hc.
  2: { assert (Hre : reenters parent p = false) by (unfold reenters; now rewrite Hc).
       rewrite Hre. eexists. split; [reflexivity|].
       split; [eapply renamedTo_trans;
               [apply renamedTo_afterShorthand | apply renamedTo_setName]|].
       split.
       - apply partsClosed_setName.
         + rewrite (wellShaped_shape _ _ (skeleton_afterShorthand _ _ _ _)). exact Hwc.
         + now apply partsClosed_afterShorthand.
         + intros sp Hsp ->. exfalso.
           rewrite (shape_find _ _ (skeleton_afterShorthand _ _ _ _)) in Hsp.
           apply in_find in Hsp. destruct Hsp as [_ (spec & Hs & Hty)].
           rewrite (ancestor_child _ _ 1 _ Hs) in Hp. injection Hp as <-.
           unfold check in Hc. rewrite Hty in Hc. discriminate.
       - apply nameAt_setName_same. eapply getNode_afterShorthand_some; eauto. }
  destruct (specifier_child _ _ _ Hwc Hinc Hp Hc)
    as (sp & l & e & Hsp & Hs & Hk & Hcl' & Hce & Hkl & Hke & Hfl & Hfe & G0 & G1 & Hpos).
  rewrite (afterShorthand_specifier _ _ _ _ (check_specifier_not_property _ Hc)).
  assert (Hspin : In sp (find tc ExportSpecifier)).
  { apply in_find. split; [exact Hsp|]. exists parent. split; [exact Hs|].
    unfold check in Hc. apply NodeType_eqb_spec in Hc. auto. }
  destruct Hpos as [[-> Hisf] | [-> Hisf]].
  - assert (Hre : reenters parent (sp ++ [0]) = false).
    { unfold reenters. rewrite Hc, Hfe, Hisf. simpl. apply andb_false_r. }
    rewrite Hre, Hfe. eexists. split; [reflexivity|].
    split; [apply renamedTo_setName|]. split.
    + apply partsClosed_setName; auto.
      intros sp' _ Heq. apply app_inj_tail in Heq. destruct Heq as [_ Heq]. discriminate.
    + apply nameAt_setName_same. rewrite G0. discriminate.
  - assert (Hre : reenters parent (sp ++ [1]) = negb (String.eqb (name e) (name l))).
    { unfold reenters. rewrite Hc, Hfe, Hfl, Hisf. simpl. unfold optString_eqb.
      now rewrite andb_true_r. }
    assert (HN : nameAt t (sp ++ [1]) = Some N) by (now apply named_iff).
    assert (Hl_closed : name e = A -> name l = A).
    { intros HeA. specialize (Hcl sp Hspin). unfold nameAt in Hcl.
      rewrite G0, G1 in Hcl. simpl in Hcl. rewrite HeA in Hcl.
      specialize (Hcl eq_refl). now injection Hcl. }
    assert (HeN : name e = N \/ name e = A).
    { destruct (proj2 Hren (sp ++ [1])) as [H | H]; unfold nameAt in H at 1;
        rewrite G1 in H; simpl in H; [left | right]; congruence. }
    destruct (find_specifier tc sp parent l e Hsp Hs Hc Hk Hkl Hke Hcl' Hce)
      as (X & Y & Hfind).
    rewrite (shape_find _ _ Hshape) in Hfind.
    assert (Hpre : pre = X ++ [sp ++ [0]]).
    { apply (NoDup_split_eq (sp ++ [1]) pre post (X ++ [sp ++ [0]]) Y).
      - pose proof (find_NoDup t Identifier) as Hnd. rewrite Hsplit in Hnd.
        exact Hnd.
      - transitivity (find t Identifier); [symmetry; exact Hsplit|].
        rewrite Hfind, <- app_assoc. reflexivity. }
    assert (Hrlc : renamable tc (sp ++ [0]) = true)
      by (eapply renamable_export_child; eauto).
    assert (Hrl : renamable t (sp ++ [0]) = true)
      by (now rewrite <- (renamable_shape _ _ _ Hshape)).
    destruct (String.eqb (name e) (name l)) eqn:Eel.
    + apply String.eqb_eq in Eel. rewrite Hre. simpl. rewrite Hfe.
      eexists. split; [reflexivity|]. split; [apply renamedTo_setName|]. split.
      * apply partsClosed_setName; auto.
        intros sp' _ Heq. apply app_inj_tail in Heq. destruct Heq as [<- _].
        destruct HeN as [HeN | HeN].
        -- destruct (proj2 Hren (sp ++ [0])) as [H | H]; [|exact H].
           apply Hdone; auto.
           ++ rewrite Hpre. apply in_or_app. right. now left.
           ++ rewrite <- H. unfold nameAt. rewrite G0. simpl. congruence.
        -- unfold nameAt. rewrite G0. simpl. congruence.
      * apply nameAt_setName_same. rewrite G1. discriminate.
    + apply String.eqb_neq in Eel. rewrite Hre. simpl. rewrite Hfl.
      cbn [optName option_map]. rewrite orElse_empty.
      assert (HeA : name e <> A).
      { intros H. apply Eel. rewrite H. symmetry. now apply Hl_closed. }
      assert (HeN' : name e = N) by (destruct HeN; congruence).
      assert (Hrank' : renameRank A tc (name l) < fuel).
      { apply Nat.lt_le_trans with (renameRank A t N); [|exact Hrank].
        destruct Hprog as [H | [H | H]];
          [congruence | now apply rank_lt_progress |].
        apply rank_lt_position; [exact Hren|].
        assert (F1 : firstRenamable t N = List.length pre).
        { unfold firstRenamable. rewrite Hsplit. apply firstIndex_app_eq; [exact H|].
          now rewrite Hrenamable, Hnamed. }
        assert (F2 : firstRenamable tc (name l) <= List.length X).
        { unfold firstRenamable. rewrite (shape_find _ _ Hshape), Hfind.
          apply firstIndex_app_le. rewrite Hrlc. simpl. apply named_iff.
          unfold nameAt. now rewrite G0. }
        rewrite F1, Hpre, length_app. simpl. lia. }
      destruct (IHfuel tc (name l) Hwc Hcl Hrank') as (tc2 & r & Hcall & Hcl2).
      rewrite Hcall. cbn [bindO fst].
      pose proof (renameIdentifiers_renamedTo A HA _ _ _ _ _ Hcall) as Hren2.
      assert (Hl2 : nameAt tc2 (sp ++ [0]) = Some A).
      { destruct (string_dec (name l) A) as [HlA | HlA].
        - eapply renamedTo_keeps; [exact Hren2|].
          unfold nameAt. rewrite G0. simpl. now rewrite HlA.
        - eapply renameIdentifiers_complete; [exact HA | exact Hcall | | | exact Hrlc].
          + now destruct sp.
          + exists l. split; [exact G0|]. split; [|reflexivity].
            unfold check in Hcl'. apply NodeType_eqb_spec in Hcl'. auto. }
      eexists. split; [reflexivity|].
      split; [eapply renamedTo_trans; [exact Hren2 | apply renamedTo_setName]|].
      split.
      * apply partsClosed_setName; auto.
        -- rewrite (wellShaped_shape _ _ (proj1 Hren2)). exact Hwc.
        -- intros sp' _ Heq. apply app_inj_tail in Heq. destruct Heq as [<- _].
           exact Hl2.
      * apply nameAt_setName_same.
        destruct (shape_getNode_some _ _ (proj1 Hren2) _ _ G1) as (n' & -> & _).
        discriminate.
Qed.

Lemma pass_loop : forall post pre tc,
  find t Identifier = pre ++ post ->
  passInvariant A N t pre tc ->
  exists t',
    forEach (fun t0 nodePath => maybeRenameNode (renameIdentifiers fuel) t0 nodePath A)
            (filter (nodeSatisfies t (identifierFilter N)) post) tc = Ok t' /\
    renamedTo A t t' /\ partsClosed A t'.
Proof.
  induction post as [|p post IH]; intros pre tc Hsplit Hinv.
  - exists tc. split; [reflexivity|]. split; apply Hinv.
  - assert (Hsplit' : find t Identifier = (pre ++ [p]) ++ post)
      by (rewrite <- app_assoc; exact Hsplit).
    cbn [filter]. destruct (nodeSatisfies t (identifierFilter N) p) eqn:Enamed.
    2: { apply (IH (pre ++ [p]) tc Hsplit'). apply passInvariant_skip; auto. }
    cbn [forEach].
    destruct (renamable t p) eqn:Er.
    + destruct (pass_step pre p post tc Hsplit Enamed Er Hinv)
        as (tc' & -> & Hstep & Hcl' & Hp).
      cbn [bindO]. apply (IH (pre ++ [p]) tc' Hsplit').
      eapply passInvariant_renamed; eauto.
      rewrite Hsplit. apply in_elt.
    + pose proof (proj1 (proj1 Hinv)) as Hshape.
      assert (Hinc : In p (find tc Identifier))
        by (rewrite (shape_find _ _ Hshape), Hsplit; apply in_elt).
      assert (Hwc : wellShaped tc = true)
        by (rewrite (wellShaped_shape _ _ Hshape); exact Hw).
      destruct (wellShaped_identifier _ _ Hwc Hinc) as [_ (parent & gp & Hp & Hg)].
      rewrite <- (renamable_shape _ _ p Hshape) in Er.
      unfold renamable in Er. rewrite Hp, Hg in Er. apply negb_false_iff in Er.
      rewrite (maybeRenameNode_exempt _ _ _ _ _ _ Hp Hg Er). cbn [bindO].
      apply (IH (pre ++ [p]) tc Hsplit'). apply passInvariant_skip; auto.
      right. rewrite <- (renamable_shape _ _ p Hshape).
      unfold renamable. rewrite Hp, Hg, Er. reflexivity.
Qed.
End Pass.

(** The renamer returns on a well-shaped tree whose specifiers are closed
    under the alias, whatever the name, once the budget covers the rank of
    the call. *)
Lemma renameIdentifiers_returns (A : string) (HA : A <> "") : forall fuel t N,
  wellShaped t = true -> partsClosed A t -> renameRank A t N < fuel ->
  exists t' r, renameIdentifiers fuel t N (Some A) = Ok (t', r) /\ partsClosed A t'.
Proof.
  induction fuel as [|fuel IH]; intros t N Hw Hcl Hrank; [lia|].
  rewrite renameIdentifiers_S.
  destruct (Nat.ltb 0 (List.length (findIdentifiers t N))); [|eauto].
  rewrite !orElse_some by exact HA.
  destruct (pass_loop A fuel HA IH t N Hw ltac:(lia) (find t Identifier) [] t eq_refl)
    as (t' & E & _ & Hcl').
  - split; [apply renamedTo_refl|]. split; [exact Hcl|].
    split; [intros q []|]. right. right. intros q [].
  - unfold findIdentifiers. rewrite E. simpl. eauto.
Qed.

(** ** An alias that is already exported *)

(** In [export { b as a, a as b }] the renamer with alias [b] re-enters for
    [a] from the exported [b] and for [b] from the exported [a], on a tree
    that the renames in between leave as it is: no budget is enough. *)
Lemma cyclicExports_loop : forall fuel,
  renameIdentifiers fuel cyclicExports "b" (Some "b") = Timeout /\
  renameIdentifiers fuel cyclicExports "a" (Some "b") = Timeout.
Proof.
  induction fuel as [|fuel [IHb IHa]]; [split; reflexivity|].
  split; rewrite renameIdentifiers_S; cbv -[renameIdentifiers] in *.
  - rewrite IHa. reflexivity.
  - rewrite IHb. reflexivity.
Qed.

(** ** The partition of the occurrences *)

Lemma ancestor_length (t : Node) (p : Path) (k : nat) (a : Node) :
  ancestor t p k = Ok a -> k <= List.length p.
Proof.
  unfold ancestor. destruct (Nat.ltb (List.length p) k) eqn:E; [discriminate|].
  intros _. now apply Nat.ltb_ge in E.
Qed.

Lemma wellShaped_exported (t : Node) (p : Path) (parent grandparent : Node) :
  wellShaped t = true ->
  ancestor t p 1 = Ok parent -> ancestor t p 2 = Ok grandparent ->
  check ExportSpecifier parent = true -> field parent f_exported <> None.
Proof.
  intros Hw Hp Hg Hc.
  destruct (ancestor_parentPath _ _ _ Hp) as [Hpar _].
  apply ancestor_length in Hg.
  assert (Hsp : parentPath p <> []).
  { unfold parentPath. intros E. destruct p as [|i p]; [simpl in Hg; lia|].
    pose proof (@app_removelast_last _ (i :: p) 0 ltac:(discriminate)) as Hsplit.
    rewrite E in Hsplit. rewrite Hsplit in Hg. simpl in Hg. lia. }
  destruct (specifierShape_parts _ (wellShaped_specifier _ _ _ Hw Hsp Hpar Hc))
    as (l & e & _ & _ & _ & _ & _ & _ & _ & _ & ->). discriminate.
Qed.

(** C4 (amended): for an occurrence handled by [maybeRenameNode].  In the
    four do-not-rename contexts (imported side of an import specifier, key
    of a property of an object pattern, key of a property of an object
    literal, property part of a member access) the call returns with the
    tree, and so the name of the occurrence, unchanged.  In every other
    context the call returns with the occurrence named by the alias:
    whatever the tree and the alias when the occurrence is not the exported
    part of an export specifier whose local part has another name; and for
    every occurrence, that one included, on a well-shaped tree in which no
    export specifier exports under the alias something whose local name is
    not the alias (as when the alias names nothing in the tree), once the
    budget of the re-entry covers the tree. *)
Theorem maybeRenameNode_partition (fuel : nat) (ast : Node) (p : Path) (alias : string)
    (n parent grandparent : Node) :
  getNode ast p = Some n ->
  ancestor ast p 1 = Ok parent ->
  ancestor ast p 2 = Ok grandparent ->
  (doNotRename parent grandparent p = true ->
     maybeRenameNode (renameIdentifiers fuel) ast p alias = Ok ast /\
     nameAt ast p = Some (name n)) /\
  (doNotRename parent grandparent p = false ->
     (reenters parent p = false ->
      (check ExportSpecifier parent = true -> field parent f_exported <> None) ->
      exists ast', maybeRenameNode (renameIdentifiers fuel) ast p alias = Ok ast' /\
                   nameAt ast' p = Some alias) /\
     (wellShaped ast = true -> aliasClosed alias ast = true -> alias <> "" ->
      renameBudget ast <= fuel ->
      exists ast', maybeRenameNode (renameIdentifiers fuel) ast p alias = Ok ast' /\
                   nameAt ast' p = Some alias)).
Proof.
  intros Hn Hp Hg. split.
  - intros Hd. split; [now apply maybeRenameNode_exempt with parent grandparent|].
    unfold nameAt. now rewrite Hn.
  - intros Hd.
    assert (Hplain : reenters parent p = false ->
              (check ExportSpecifier parent = true -> field parent f_exported <> None) ->
              exists ast', maybeRenameNode (renameIdentifiers fuel) ast p alias = Ok ast' /\
                           nameAt ast' p = Some alias).
    { intros Hre Hfe. rewrite (maybeRenameNode_step _ _ _ _ _ _ Hp Hg Hd), Hre.
      assert (Hname : nameAt (updateNode (setName alias)
                                (afterShorthand ast parent grandparent p) p) p
                      = Some alias).
      { apply nameAt_setName_same. eapply getNode_afterShorthand_some; eauto. }
      destruct (check ExportSpecifier parent); [|eauto].
      destruct (field parent f_exported); [eauto|]. now destruct Hfe. }
    split; [exact Hplain|].
    intros Hw Hclosed HA Hfuel.
    destruct (reenters parent p) eqn:Hre.
    + rewrite (maybeRenameNode_step _ _ _ _ _ _ Hp Hg Hd), Hre.
      assert (Hc : check Property parent = false).
      { unfold reenters in Hre. apply andb_true_iff in Hre.
        apply check_specifier_not_property. tauto. }
      rewrite (afterShorthand_specifier _ _ _ _ Hc).
      destruct (renameIdentifiers_returns alias HA fuel ast
                  (orElse (optName (field parent f_local)) "") Hw
                  (aliasClosed_parts _ _ Hw Hclosed))
        as (t' & r & Hcall & _).
      { eapply Nat.lt_le_trans; [apply renameRank_budget | exact Hfuel]. }
      rewrite Hcall. cbn [bindO fst]. eexists. split; [reflexivity|].
      apply nameAt_setName_same.
      destruct (shape_getNode_some _ _ (renameIdentifiers_skeleton _ _ _ _ _ _ Hcall)
                                   _ _ Hn) as (n' & -> & _).
      discriminate.
    + apply Hplain; [reflexivity|]. intros Hc.
      eapply wellShaped_exported; eauto.
Qed.

(** The partition in [import { helper } from './h';
    export { helper as getServerSideProps };]: the imported [helper] is left
    alone, the exported [getServerSideProps] is renamed after the re-entry
    for [helper]. *)
Lemma maybeRenameNode_partition_witness :
  (maybeRenameNode (renameIdentifiers 25) aliasedExport [0;0;0;1] "_getServerSideProps"
   = Ok aliasedExport /\
   nameAt aliasedExport [0;0;0;1] = Some "helper") /\
  (exists ast',
      maybeRenameNode (renameIdentifiers 25) aliasedExport [0;1;0;1] "_getServerSideProps"
      = Ok ast' /\
      nameAt ast' [0;1;0;1] = Some "_getServerSideProps").
Proof.
  split.
  - apply (proj1 (maybeRenameNode_partition 25 aliasedExport [0;0;0;1]
                    "_getServerSideProps" (ident f_imported "helper")
                    helperImportSpecifier helperImportDeclaration
                    eq_refl eq_refl eq_refl)).
    reflexivity.
  - apply (proj2 (proj2 (maybeRenameNode_partition 25 aliasedExport [0;1;0;1]
                           "_getServerSideProps" (ident f_exported "getServerSideProps")
                           (node ExportSpecifier (f_other "specifiers")
                              [ ident f_local "helper";
                                ident f_exported "getServerSideProps" ])
                           (other "ExportNamedDeclaration" "body"
                              [ node ExportSpecifier (f_other "specifiers")
                                  [ ident f_local "helper";
                                    ident f_exported "getServerSideProps" ] ])
                           eq_refl eq_refl eq_refl)
                  eq_refl)).
    + reflexivity.
    + reflexivity.
    + discriminate.
    + vm_compute. lia.
Defined.

(** C4 as stated fails: in [export { b as a, a as b }] the exported [a] is
    in none of the do-not-rename contexts, but handled with the alias [b],
    under which the second specifier already exports the local [a], the call
    never returns, whatever the budget of the re-entry, and the occurrence
    is never given the alias. *)
Lemma maybeRenameNode_partition_counterexample :
  wellShaped cyclicExports = true /\
  identifierAt cyclicExports [0;0;0;1] "a" /\
  renamable cyclicExports [0;0;0;1] = true /\
  aliasClosed "b" cyclicExports = false /\
  forall fuel,
    maybeRenameNode (renameIdentifiers fuel) cyclicExports [0;0;0;1] "b" = Timeout.
Proof.
  split; [reflexivity|].
  split; [eexists; split; [reflexivity|]; split; reflexivity|].
  split; [reflexivity|]. split; [reflexivity|].
  intros fuel. destruct (cyclicExports_loop fuel) as [Hb _].
  cbv -[renameIdentifiers] in *. rewrite Hb. reflexivity.
Qed.

(** ** Export specifiers *)

(** The renamer returns on a well-shaped tree in which the alias names
    nothing, within the budget of the tree. *)
Lemma renameIdentifiers_returns_fresh (fuel : nat) (ast : Node) (N : string)
    (newName : option string) :
  wellShaped ast = true ->
  findIdentifiers ast (orElse newName (findAvailibleAlias ast N)) = [] ->
  renameBudget ast <= fuel ->
  exists ast' r, renameIdentifiers fuel ast N newName = Ok (ast', r).
Proof.
  intros Hw Hfresh Hfuel. rewrite renameIdentifiers_alias.
  destruct (renameIdentifiers_returns _ (orElse_nonempty newName ast N) fuel ast N Hw
              (fresh_parts _ _ Hw Hfresh)) as (ast' & r & H & _); [|eauto].
  eapply Nat.lt_le_trans; [apply renameRank_budget | exact Hfuel].
Qed.




(** ** More budget changes nothing *)

Lemma maybeRenameNode_mono
    (rename1 rename2 : Node -> string -> option string -> Outcome (Node * option string))
    (ast : Node) (p : Path) (alias : string) (ast' : Node) :
  (forall t X nn y, rename1 t X nn = Ok y -> rename2 t X nn = Ok y) ->
  maybeRenameNode rename1 ast p alias = Ok ast' ->
  maybeRenameNode rename2 ast p alias = Ok ast'.
Proof.
  intros Hm H.
  destruct (maybeRenameNode_inv _ _ _ _ _ H) as (parent & gp & Hp & Hg & _).
  destruct (doNotRename parent gp p) eqn:Hd.
  - rewrite (maybeRenameNode_exempt rename1 _ _ _ _ _ Hp Hg Hd) in H.
    rewrite (maybeRenameNode_exempt rename2 _ _ _ _ _ Hp Hg Hd). exact H.
  - rewrite (maybeRenameNode_step rename1 _ _ _ _ _ Hp Hg Hd) in H.
    rewrite (maybeRenameNode_step rename2 _ _ _ _ _ Hp Hg Hd).
    destruct (reenters parent p); [|exact H].
    destruct (rename1 (afterShorthand ast parent gp p)
                      (orElse (optName (field parent f_local)) "") (Some alias))
      as [y| |] eqn:E; simpl in H; try discriminate.
    rewrite (Hm _ _ _ _ E). exact H.
Qed.

Lemma forEach_mono (body1 body2 : Node -> Path -> Outcome Node) :
  (forall t p t', body1 t p = Ok t' -> body2 t p = Ok t') ->
  forall ps t t', forEach body1 ps t = Ok t' -> forEach body2 ps t = Ok t'.
Proof.
  intros Hb. induction ps as [|p ps IH]; intros t t' H; simpl in *; [exact H|].
  destruct (body1 t p) as [t1| |] eqn:E; simpl in H; try discriminate.
  rewrite (Hb _ _ _ E). simpl. now apply IH.
Qed.

Lemma renameIdentifiers_mono : forall fuel fuel' ast N newName y,
  fuel <= fuel' ->
  renameIdentifiers fuel ast N newName = Ok y ->
  renameIdentifiers fuel' ast N newName = Ok y.
Proof.
  induction fuel as [|fuel IH]; intros fuel' ast N newName y Hle H; [discriminate|].
  destruct fuel' as [|fuel']; [lia|]. rewrite renameIdentifiers_S in *.
  destruct (Nat.ltb 0 (List.length (findIdentifiers ast N))); [|exact H].
  match type of H with
  | (_ <-- ?m ;; _) = _ => destruct m as [t1| |] eqn:E; simpl in H; try discriminate
  end.
  erewrite forEach_mono; [exact H | | exact E].
  intros t p t'. apply maybeRenameNode_mono.
  intros t0 X nn y0. apply IH. lia.
Qed.

(** X24: [renameIdentifiers] returns.  On a well-shaped tree (every
    identifier has the two ancestors [maybeRenameNode] reads, every export
    specifier has its local and its exported identifier) in which the alias
    (the given [newName], or the one allocated) names no identifier, the
    re-entry from the export-specifier case comes to an end: one result is
    returned under every budget of re-entry that covers the tree, and the
    tree it returns is well shaped with the same paths. *)
Theorem renameIdentifiers_terminates (ast : Node) (N : string) (newName : option string) :
  wellShaped ast = true ->
  findIdentifiers ast (orElse newName (findAvailibleAlias ast N)) = [] ->
  exists ast' r,
    (forall fuel, renameBudget ast <= fuel ->
                  renameIdentifiers fuel ast N newName = Ok (ast', r)) /\
    wellShaped ast' = true /\ paths ast' = paths ast.
Proof.
  intros Hw Hfresh.
  destruct (renameIdentifiers_returns_fresh (renameBudget ast) ast N newName Hw Hfresh
              (Nat.le_refl _)) as (ast' & r & H).
  exists ast', r.
  pose proof (renameIdentifiers_skeleton _ _ _ _ _ _ H) as Hs.
  split; [|split].
  - intros fuel Hle. eapply renameIdentifiers_mono; eauto.
  - now rewrite (wellShaped_shape _ _ Hs).
  - now apply shape_paths.
Qed.

(** The statement at [import { getServerSideProps } from './data';
    export { getServerSideProps };], where the exported part re-enters the
    renamer once the local part carries the alias. *)
Lemma renameIdentifiers_terminates_witness :
  exists ast' r,
    (forall fuel, renameBudget reExported <= fuel ->
                  renameIdentifiers fuel reExported "getServerSideProps" None
                  = Ok (ast', r)) /\
    wellShaped ast' = true /\ paths ast' = paths reExported.
Proof.
  apply (renameIdentifiers_terminates reExported "getServerSideProps" None);
    reflexivity.
Defined.
